(** * dnscache: a caching DNS resolver with request coalescing

    A shallow embedding of [dnscache.go] (package [dnscache]) and the
    properties of its cache store, lookup path, refresh sweep, key encoding
    and request coalescing.

    Conventions of the embedding
    - a Go [string] is a [string] (a sequence of bytes);
    - a [[]string] is a [list string], the nil slice being [[]];
    - an [error] interface value is an [option error], [None] being nil;
    - [map[string]*cacheEntry] is a [gmap string cacheEntry]: the code never
      puts one entry pointer under two keys and keeps no pointer across calls,
      so in a sequential run the map of pointers and the map of values agree;
    - a [panic] is the [Panic] outcome of the state-and-panic monad [M];
    - what [select] in [update] yields is an input of the model
      ([selected]): either the caller's context is done, or the coordinator's
      channel delivers a [Result];
    - the methods are first embedded as sequential functions over the
      package state; concurrent callers are then embedded as goroutines that
      move by atomic sections (a critical section of the store's lock, a call
      of the coordinator, a receive), interleaved by a scheduler, the end of
      a call in flight being a step of its own. *)

From Stdlib Require Import ZArith Ascii String.
From stdpp Require Import gmap strings list fin_maps.

Open Scope string_scope.

(** ** Errors, contexts and traces *)

(** [context.DeadlineExceeded] and [context.Canceled] are the two sentinel
    errors of package [context]; any other error is an [errorString]. *)
Inductive error : Type :=
  | DeadlineExceeded
  | Canceled
  | errorString (msg : string).

#[global] Instance error_eq_dec : EqDecision error.
Proof. solve_decision. Defined.

(** A function value is identified by its reference. *)
Definition funcRef := positive.

(** [httptrace.ClientTrace]: a set of optional hooks. *)
Record ClientTrace : Type := {
  GetConn : option funcRef;
  GotConn : option funcRef;
  PutIdleConn : option funcRef;
  GotFirstResponseByte : option funcRef;
  Got100Continue : option funcRef;
  Got1xxResponse : option funcRef;
  DNSStart : option funcRef;
  DNSDone : option funcRef;
  ConnectStart : option funcRef;
  ConnectDone : option funcRef;
  TLSHandshakeStart : option funcRef;
  TLSHandshakeDone : option funcRef;
  WroteHeaderField : option funcRef;
  WroteHeaders : option funcRef;
  Wait100Continue : option funcRef;
  WroteRequest : option funcRef
}.

(** What the code observes of a [context.Context]: whether it carries a
    deadline (kept as the duration it was created with, in nanoseconds) and
    the client trace attached to it, if any. *)
Record Context : Type := {
  ctx_deadline : option Z;
  ctx_trace : option ClientTrace
}.

(** [context.Background()]: no deadline, no values, never done. *)
Definition Background : Context :=
  {| ctx_deadline := None; ctx_trace := None |}.

(** [context.WithTimeout(ctx, d)]; the earlier of the two deadlines wins. *)
Definition WithTimeout (ctx : Context) (d : Z) : Context :=
  {| ctx_deadline :=
       match ctx_deadline ctx with
       | Some d0 => Some (Z.min d0 d)
       | None => Some d
       end;
     ctx_trace := ctx_trace ctx |}.

(** [httptrace.ContextClientTrace] and [httptrace.WithClientTrace]. The
    latter composes the new trace with one already in the context; the code
    only applies it to a context that has none. *)
Definition ContextClientTrace (ctx : Context) : option ClientTrace :=
  ctx_trace ctx.

Definition WithClientTrace (ctx : Context) (trace : ClientTrace) : Context :=
  {| ctx_deadline := ctx_deadline ctx; ctx_trace := Some trace |}.

(** The [cancel] function [prepareCtx] returns. *)
Inductive CancelFunc : Type :=
  | cancelTimeout
  | cancelNoop.

(** ** The resolver and its cache *)

(** [DNSResolver]: the interface of the underlying provider. *)
Record DNSResolver : Type := {
  LookupHost_ : Context -> string -> list string * option error;
  LookupAddr_ : Context -> string -> list string * option error
}.

Record cacheEntry : Type := {
  rrs : list string;
  used : bool
}.

(** [Resolver]; [r_Resolver = None] is the nil interface value, [r_once]
    records whether [once.Do(r.init)] has run. *)
Record Resolver : Type := {
  r_Timeout : Z;
  r_Resolver : option DNSResolver;
  r_once : bool;
  r_cache : gmap string cacheEntry
}.

Definition set_cache (c : gmap string cacheEntry) (r : Resolver) : Resolver :=
  {| r_Timeout := r_Timeout r; r_Resolver := r_Resolver r;
     r_once := r_once r; r_cache := c |}.

(** The zero value [&Resolver{}], with the configuration of the caller. *)
Definition newResolver (timeout : Z) (p : option DNSResolver) : Resolver :=
  {| r_Timeout := timeout; r_Resolver := p; r_once := false; r_cache := ∅ |}.

(** [r.once.Do(r.init)] *)
Definition init (r : Resolver) : Resolver :=
  {| r_Timeout := r_Timeout r; r_Resolver := r_Resolver r;
     r_once := r_once r; r_cache := ∅ |}.

Definition once_Do_init (r : Resolver) : Resolver :=
  if r_once r then r
  else let r' := init r in
       {| r_Timeout := r_Timeout r'; r_Resolver := r_Resolver r';
          r_once := true; r_cache := r_cache r' |}.

(** [load], in its two critical sections: the read under [RLock], and the
    write under [Lock] that marks the entry used. *)
Definition load_read (key : string) (r : Resolver) : option cacheEntry :=
  r_cache r !! key.

Definition load_mark (key : string) (entry : cacheEntry) (r : Resolver) : Resolver :=
  set_cache (<[key := {| rrs := rrs entry; used := true |}]> (r_cache r)) r.

Definition load (key : string) (r : Resolver) : list string * bool * Resolver :=
  match load_read key r with
  | None => ([], false, r)
  | Some entry =>
      if negb (used entry)
      then (rrs entry, true, load_mark key entry r)
      else (rrs entry, true, r)
  end.

Definition storeLocked (key : string) (rs : list string) (u : bool) (r : Resolver) : Resolver :=
  match r_cache r !! key with
  | Some entry =>
      (* update the existing entry in place *)
      set_cache (<[key := {| rrs := rs; used := u |}]> (r_cache r)) r
  | None =>
      set_cache (<[key := {| rrs := rs; used := u |}]> (r_cache r)) r
  end.

(** ** Key encoding *)

Definition hostKey (host : string) : string := "h" +:+ host.
Definition addrKey (addr : string) : string := "r" +:+ addr.

(** ** The work function *)

Inductive lookupKind : Type := kindHost | kindAddr.

(** The closure [lookupFunc] returns: it has captured the resolver chosen
    ([None] is the package's [defaultResolver]), the caller's context and the
    key, of which it uses [key[1:]]. *)
Record work : Type := {
  w_kind : lookupKind;
  w_resolver : option DNSResolver;
  w_ctx : Context;
  w_subject : string
}.

Definition prepareCtx (r : Resolver) (origContext : Context) : Context * CancelFunc :=
  let ctx := Background in
  let '(ctx, cancel) :=
    if (r_Timeout r >? 0)%Z
    then (WithTimeout ctx (r_Timeout r), cancelTimeout)
    else (ctx, cancelNoop) in
  match ContextClientTrace origContext with
  | Some trace =>
      let derivedTrace :=
        {| GetConn := None; GotConn := None; PutIdleConn := None;
           GotFirstResponseByte := None; Got100Continue := None;
           Got1xxResponse := None;
           DNSStart := DNSStart trace;
           DNSDone := DNSDone trace;
           ConnectStart := None; ConnectDone := None;
           TLSHandshakeStart := None; TLSHandshakeDone := None;
           WroteHeaderField := None; WroteHeaders := None;
           Wait100Continue := None; WroteRequest := None |} in
      (WithClientTrace ctx derivedTrace, cancel)
  | None => (ctx, cancel)
  end.

Inductive outcome (A : Type) : Type :=
  | Ok (a : A)
  | Panic (msg : string).
Arguments Ok {A} a.
Arguments Panic {A} msg.

Definition lookupFunc (r : Resolver) (ctx : Context) (key : string) : outcome work :=
  match key with
  | EmptyString => Panic "lookupFunc with empty key"
  | String c rest =>
      let resolver := r_Resolver r in
      if Ascii.eqb c "h"%char then
        Ok {| w_kind := kindHost; w_resolver := resolver; w_ctx := ctx; w_subject := rest |}
      else if Ascii.eqb c "r"%char then
        Ok {| w_kind := kindAddr; w_resolver := resolver; w_ctx := ctx; w_subject := rest |}
      else Panic ("lookupFunc invalid key type: " +:+ key)
  end.

(** The provider call a work function makes when it runs. *)
Record providerCall : Type := {
  pc_kind : lookupKind;
  pc_resolver : option DNSResolver;
  pc_ctx : Context;
  pc_subject : string
}.

Definition call_of (r : Resolver) (fn : work) : providerCall :=
  {| pc_kind := w_kind fn; pc_resolver := w_resolver fn;
     pc_ctx := fst (prepareCtx r (w_ctx fn)); pc_subject := w_subject fn |}.

Section Provider.
(** [net.DefaultResolver], behind the package's [defaultResolver]. *)
Variable IP : Type.
Variable IP_String : IP -> string.
Variable net_LookupIP : Context -> string -> string -> list IP * option error.
Variable net_LookupAddr : Context -> string -> list string * option error.

Definition defaultResolverWithTrace_LookupHost (ctx : Context) (host : string)
  : list string * option error :=
  let '(rawIPs, err) := net_LookupIP ctx "ip" host in
  match err with
  | Some e => ([], Some e)
  | None => (map IP_String rawIPs, None)
  end.

Definition defaultResolverWithTrace_LookupAddr (ctx : Context) (addr : string)
  : list string * option error :=
  net_LookupAddr ctx addr.

Definition defaultResolver : DNSResolver :=
  {| LookupHost_ := defaultResolverWithTrace_LookupHost;
     LookupAddr_ := defaultResolverWithTrace_LookupAddr |}.

(** Running a work function: the provider's method applied to the derived
    context and the subject. *)
Definition run_work (r : Resolver) (fn : work) : list string * option error :=
  let resolver := default defaultResolver (w_resolver fn) in
  let '(ctx, _) := prepareCtx r (w_ctx fn) in
  match w_kind fn with
  | kindHost => LookupHost_ resolver ctx (w_subject fn)
  | kindAddr => LookupAddr_ resolver ctx (w_subject fn)
  end.
End Provider.

(** ** The deduplication coordinator *)

(** [singleflight.Result]; [Val] always holds the [[]string] the work function
    returned, which the type assertion in [update] recovers. *)
Record Result : Type := {
  Val : list string;
  Err : option error;
  Shared : bool
}.

(** One call in flight: its key, its work function, the number of callers
    that joined it and the channels its result goes to. *)
Record call : Type := {
  c_key : string;
  c_fn : work;
  c_dups : nat;
  c_chans : list nat
}.

(** Modelled from the spec: the deduplication coordinator, package
    [golang.org/x/sync/singleflight], which [dnscache.go] imports and which is
    not among the sources. [g_m] registers, per key, the call in flight;
    [g_calls] holds every call whose work function has not returned yet, also
    those a [Forget] has unregistered; [g_chan] holds what has been sent on the
    channels [DoChan] made (named by the counter [g_nextch]); [g_spawned]
    lists the work functions handed to a goroutine, one per underlying
    invocation, and [g_forgotten] the keys [Forget] was called with. *)
Record Group : Type := {
  g_m : gmap string nat;
  g_calls : gmap nat call;
  g_next : nat;
  g_nextch : nat;
  g_chan : gmap nat Result;
  g_spawned : list (string * work);
  g_forgotten : list string
}.

(** The zero value of [singleflight.Group]. *)
Definition emptyGroup : Group :=
  {| g_m := ∅; g_calls := ∅; g_next := 0; g_nextch := 0; g_chan := ∅;
     g_spawned := []; g_forgotten := [] |}.

(** One more caller on a call. *)
Definition join (ch : nat) (c : call) : call :=
  {| c_key := c_key c; c_fn := c_fn c; c_dups := S (c_dups c);
     c_chans := (c_chans c ++ [ch])%list |}.

(** Modelled from the spec: [Group.DoChan], the coordinator's [run]. A caller
    joins the call in flight for the key, or starts one, whose work function
    is handed to a goroutine; the channel on which the result will come is
    returned. *)
Definition DoChan (key : string) (fn : work) (g : Group) : nat * Group :=
  let ch := g_nextch g in
  match g_m g !! key with
  | Some id =>
      (ch, {| g_m := g_m g; g_calls := alter (join ch) id (g_calls g);
              g_next := g_next g; g_nextch := S ch; g_chan := g_chan g;
              g_spawned := g_spawned g; g_forgotten := g_forgotten g |})
  | None =>
      let id := g_next g in
      let c := {| c_key := key; c_fn := fn; c_dups := 0; c_chans := [ch] |} in
      (ch, {| g_m := <[key := id]> (g_m g); g_calls := <[id := c]> (g_calls g);
              g_next := S id; g_nextch := S ch; g_chan := g_chan g;
              g_spawned := (g_spawned g ++ [(key, fn)])%list;
              g_forgotten := g_forgotten g |})
  end.

(** Modelled from the spec: [Group.Forget]. The registration of the key is
    dropped, so that the next [DoChan] starts a call; the call that was
    registered goes on. *)
Definition Forget (key : string) (g : Group) : Group :=
  {| g_m := delete key (g_m g); g_calls := g_calls g; g_next := g_next g;
     g_nextch := g_nextch g; g_chan := g_chan g; g_spawned := g_spawned g;
     g_forgotten := (g_forgotten g ++ [key])%list |}.

(** A result sent on each of the channels. *)
Definition deliver (res : Result) (chans : list nat) (m : gmap nat Result) : gmap nat Result :=
  foldr (fun ch acc => <[ch := res]> acc) m chans.

(** Modelled from the spec: the end of a call. Its work function has
    returned [out]; the call is unregistered if it still is the one
    registered for its key, and every waiter is sent the same value and error,
    flagged shared when any caller had joined. *)
Definition doCall (id : nat) (out : list string * option error) (g : Group) : Group :=
  match g_calls g !! id with
  | None => g
  | Some c =>
      let res := {| Val := fst out; Err := snd out; Shared := (0 <? c_dups c)%nat |} in
      {| g_m := if decide (g_m g !! c_key c = Some id)
                then delete (c_key c) (g_m g) else g_m g;
         g_calls := delete id (g_calls g);
         g_next := g_next g; g_nextch := g_nextch g;
         g_chan := deliver res (c_chans c) (g_chan g);
         g_spawned := g_spawned g; g_forgotten := g_forgotten g |}
  end.

(** ** The resolver's operations, over the package state *)

(** The package state: one resolver and the package-level [lookupGroup]. *)
Record World : Type := {
  w_r : Resolver;
  w_group : Group
}.

(** State and panic. *)
Definition M (A : Type) : Type := World -> outcome (A * World).

Definition ret {A} (a : A) : M A := fun w => Ok (a, w).

Definition bind {A B} (m : M A) (k : A -> M B) : M B :=
  fun w => match m w with
           | Ok (a, w') => k a w'
           | Panic msg => Panic msg
           end.

Definition panic {A} (msg : string) : M A := fun _ => Panic msg.

Definition onResolver {A} (f : Resolver -> A * Resolver) : M A :=
  fun w => let '(a, r) := f (w_r w) in Ok (a, {| w_r := r; w_group := w_group w |}).

Definition onGroup {A} (f : Group -> A * Group) : M A :=
  fun w => let '(a, g) := f (w_group w) in Ok (a, {| w_r := w_r w; w_group := g |}).

Definition getResolver : M Resolver := fun w => Ok (w_r w, w).

Declare Scope m_scope.
Delimit Scope m_scope with M.
Notation "'let*' p ':=' c 'in' k" := (bind c (fun p => k))
  (at level 10, p pattern, c at level 100, k at level 200) : m_scope.
Notation "c ;;; k" := (bind c (fun _ => k))
  (at level 100, right associativity) : m_scope.
Open Scope m_scope.

Definition loadM (key : string) : M (list string * bool) :=
  onResolver (fun r => let '(rs, found, r') := load key r in ((rs, found), r')).

Definition storeM (key : string) (rs : list string) (u : bool) : M unit :=
  onResolver (fun r => (tt, storeLocked key rs u r)).

Definition lookupFuncM (ctx : Context) (key : string) : M work :=
  let* r := getResolver in
  match lookupFunc r ctx key with
  | Ok fn => ret fn
  | Panic msg => panic msg
  end.

(** What the [select] statement of [update] yields: [<-ctx.Done()] with the
    value of [ctx.Err()], or a result received on the coordinator's channel. *)
Inductive selected : Type :=
  | CtxDone (err : error)
  | Received (res : Result).

Definition update (ctx : Context) (key : string) (u : bool) (sel : selected)
  : M (list string * option error) :=
  let* fn := lookupFuncM ctx key in
  let* c := onGroup (DoChan key fn) in
  match sel with
  | CtxDone err =>
      (if decide (err = DeadlineExceeded)
       then onGroup (fun g => (tt, Forget key g))
       else ret tt) ;;;
      ret ([], Some err)
  | Received res =>
      let* (rs, found) := (if Shared res then loadM key else ret ([], false)) in
      if (found : bool) then ret (rs, None)
      else
        match Err res with
        | Some e =>
            let* (rs, found) := loadM key in
            if (found : bool) then ret (rs, None) else ret ([], Some e)
        | None =>
            let rs := Val res in
            storeM key rs u ;;;
            ret (rs, None)
        end
  end.

Definition lookup (ctx : Context) (key : string) (sel : selected)
  : M (list string * option error) :=
  let* (rs, found) := loadM key in
  if (found : bool) then ret (rs, None) else update ctx key true sel.

Definition onceM : M unit := onResolver (fun r => (tt, once_Do_init r)).

Definition LookupAddr (ctx : Context) (addr : string) (sel : selected)
  : M (list string * option error) :=
  onceM ;;; lookup ctx ("r" +:+ addr) sel.

Definition LookupHost (ctx : Context) (host : string) (sel : selected)
  : M (list string * option error) :=
  onceM ;;; lookup ctx ("h" +:+ host) sel.

Definition Remove (host : string) : M unit :=
  onceM ;;;
  onResolver (fun r => (tt, set_cache (delete ("h" +:+ host) (r_cache r)) r)).

(** The loop of [refreshRecords] over the entries, in the order the map is
    ranged over. *)
Definition snapshot (entries : list (string * cacheEntry)) : list string * list string :=
  fold_left (fun '(upd, del) '(key, entry) =>
               if used entry then ((upd ++ [key])%list, del)
               else (upd, (del ++ [key])%list))
            entries ([], []).

Fixpoint deleteKeys (del : list string) (c : gmap string cacheEntry) : gmap string cacheEntry :=
  match del with
  | [] => c
  | key :: del' => deleteKeys del' (delete key c)
  end.

Fixpoint updateKeys (upd : list string) (res : string -> Result) : M unit :=
  match upd with
  | [] => ret tt
  | key :: upd' =>
      update Background key false (Received (res key)) ;;;
      updateKeys upd' res
  end.

(** [refreshRecords]. [range] is the order in which Go ranges over the map,
    which the language leaves open; [res] is what the coordinator's channel
    delivers for each key ([context.Background()] is never done, so the
    [select] of [update] can only receive). *)
Definition refreshRecords
    (range : gmap string cacheEntry -> list (string * cacheEntry))
    (res : string -> Result) : M unit :=
  onceM ;;;
  let* r := getResolver in
  let '(upd, del) := snapshot (range (r_cache r)) in
  (if (0 <? length del)%nat
   then onResolver (fun r => (tt, set_cache (deleteKeys del (r_cache r)) r))
   else ret tt) ;;;
  updateKeys upd res.

Definition Refresh := refreshRecords.

(** An order of iteration is any enumeration of the map's entries. *)
Definition range_ok (range : gmap string cacheEntry -> list (string * cacheEntry)) : Prop :=
  forall m, range m ≡ₚ map_to_list m.

(** A key [lookupFunc] accepts: not empty, and starting with the forward
    discriminant ['h'] or the reverse discriminant ['r']. *)
Definition valid_key (key : string) : bool :=
  match key with
  | EmptyString => false
  | String c _ => Ascii.eqb c "h"%char || Ascii.eqb c "r"%char
  end.

Definition is_panic {A} (o : outcome A) : Prop :=
  match o with Panic _ => True | Ok _ => False end.

Definition value_of {A} (o : outcome (A * World)) : option A :=
  match o with Ok (a, _) => Some a | Panic _ => None end.

(** The store is empty until [once.Do(r.init)] has run. *)
Definition initialised (r : Resolver) : Prop :=
  r_once r = false -> r_cache r = ∅.

(** [update], when the channel delivers: the result and the resolver after
    it as a function of the resolver before. *)
Definition received (key : string) (u : bool) (res : Result) (r : Resolver)
  : (list string * option error) * Resolver :=
  match r_cache r !! key with
  | Some entry =>
      if Shared res || bool_decide (is_Some (Err res))
      then ((rrs entry, None), (load key r).2)
      else ((Val res, None), storeLocked key (Val res) u r)
  | None =>
      match Err res with
      | Some e => (([], Some e), r)
      | None => ((Val res, None), storeLocked key (Val res) u r)
      end
  end.

(** Every key of the store is one [lookupFunc] accepts. *)
Definition keys_valid (c : gmap string cacheEntry) : Prop :=
  forall k, is_Some (c !! k) -> valid_key k = true.

(** The two lists [refreshRecords] collects, each on its own. *)
Fixpoint used_keys (entries : list (string * cacheEntry)) : list string :=
  match entries with
  | [] => []
  | (key, entry) :: rest =>
      if used entry then key :: used_keys rest else used_keys rest
  end.

Fixpoint unused_keys (entries : list (string * cacheEntry)) : list string :=
  match entries with
  | [] => []
  | (key, entry) :: rest =>
      if used entry then unused_keys rest else key :: unused_keys rest
  end.

(** The entry [update] leaves under its key when the channel delivers [res],
    from the entry it finds there. *)
Definition entry_after (u : bool) (res : Result) (o : option cacheEntry) : option cacheEntry :=
  match o with
  | Some entry =>
      if Shared res || bool_decide (is_Some (Err res))
      then Some {| rrs := rrs entry; used := true |}
      else Some {| rrs := Val res; used := u |}
  | None =>
      match Err res with
      | Some _ => None
      | None => Some {| rrs := Val res; used := u |}
      end
  end.

(** The entry a refresh leaves under a key: none for an entry that was not
    used, what the update path leaves for one that was. *)
Definition refreshed (res : string -> Result) (c : gmap string cacheEntry) (k : string)
  : option cacheEntry :=
  match c !! k with
  | Some entry => if used entry then entry_after false (res k) (Some entry) else None
  | None => None
  end.

Definition entry_of {A} (key : string) (o : outcome (A * World)) : option cacheEntry :=
  match o with
  | Ok (_, w) => r_cache (w_r w) !! key
  | Panic _ => None
  end.

(** ** The public interface *)

(** A call of one of the four exported methods, with what its [select]
    statements will yield. *)
Inductive publicCall : Type :=
  | CallLookupHost (ctx : Context) (host : string) (sel : selected)
  | CallLookupAddr (ctx : Context) (addr : string) (sel : selected)
  | CallRemove (host : string)
  | CallRefresh (res : string -> Result).

Definition run_call (range : gmap string cacheEntry -> list (string * cacheEntry))
    (c : publicCall) : M unit :=
  match c with
  | CallLookupHost ctx host sel => LookupHost ctx host sel ;;; ret tt
  | CallLookupAddr ctx addr sel => LookupAddr ctx addr sel ;;; ret tt
  | CallRemove host => Remove host
  | CallRefresh res => Refresh range res
  end.

Fixpoint run_calls (range : gmap string cacheEntry -> list (string * cacheEntry))
    (cs : list publicCall) : M unit :=
  match cs with
  | [] => ret tt
  | c :: cs' => run_call range c ;;; run_calls range cs'
  end.

(** What the public interface maintains. *)
Definition good (w : World) : Prop :=
  initialised (w_r w) /\ keys_valid (r_cache (w_r w)).

(** ** Concurrent callers *)

(** A goroutine running [lookup(ctx, key)], between two of its atomic
    sections: the critical sections of the store's lock, the call of
    [DoChan] (atomic under the coordinator's own lock) and the receive of
    the [select] statement. *)
Inductive caller : Type :=
  | CStart                        (* lookup: about to read in load *)
  | CUpdate                       (* update: about to call lookupFunc and DoChan *)
  | CWait (ch : nat)              (* update: blocked in select on the channel *)
  | CRecheck (res : Result)       (* shared result: about to read in load *)
  | CFallback (res : Result)      (* errored result: about to read in load *)
  | CStore (res : Result)         (* about to take the lock for storeLocked *)
  | CMark (entry : cacheEntry)    (* load: read an unused entry, about to mark it *)
  | CDone (rs : list string) (err : option error)
  | CPanic (msg : string).

(** The end of [load] once the read lock is released: a miss goes on with
    [miss]; a hit returns the results at once when the entry is used, and
    first goes through the write section when it is not. In all three places
    where [load] is called a hit makes the caller return its results. *)
Definition after_load (o : option cacheEntry) (miss : caller) : caller :=
  match o with
  | Some entry => if used entry then CDone (rrs entry) None else CMark entry
  | None => miss
  end.

(** [update] after the shared re-check, and after the receive. *)
Definition after_shared (res : Result) : caller :=
  match Err res with
  | Some _ => CFallback res
  | None => CStore res
  end.

Definition on_result (res : Result) : caller :=
  if Shared res then CRecheck res else after_shared res.

Definition receive (ch : nat) (g : Group) : Group :=
  {| g_m := g_m g; g_calls := g_calls g; g_next := g_next g;
     g_nextch := g_nextch g; g_chan := delete ch (g_chan g);
     g_spawned := g_spawned g; g_forgotten := g_forgotten g |}.

(** One atomic section of a caller; [None] when the caller is blocked or has
    returned. The write section of [load] ([CMark]) stores the entry as it
    was read, which is what the code does unless a store to the same entry
    came in between. *)
Definition caller_step (ctx : Context) (key : string) (c : caller) (w : World)
  : option (caller * World) :=
  match c with
  | CStart => Some (after_load (load_read key (w_r w)) CUpdate, w)
  | CUpdate =>
      match lookupFunc (w_r w) ctx key with
      | Panic msg => Some (CPanic msg, w)
      | Ok fn =>
          let '(ch, g) := DoChan key fn (w_group w) in
          Some (CWait ch, {| w_r := w_r w; w_group := g |})
      end
  | CWait ch =>
      match g_chan (w_group w) !! ch with
      | Some res =>
          Some (on_result res, {| w_r := w_r w; w_group := receive ch (w_group w) |})
      | None => None
      end
  | CRecheck res =>
      Some (after_load (load_read key (w_r w)) (after_shared res), w)
  | CFallback res =>
      Some (after_load (load_read key (w_r w)) (CDone [] (Err res)), w)
  | CStore res =>
      Some (CDone (Val res) None,
            {| w_r := storeLocked key (Val res) true (w_r w); w_group := w_group w |})
  | CMark entry =>
      Some (CDone (rrs entry) None,
            {| w_r := load_mark key entry (w_r w); w_group := w_group w |})
  | CDone _ _ => None
  | CPanic _ => None
  end.

(** The other branch of the [select]: the caller's context is done. *)
Definition caller_cancel (key : string) (err : error) (c : caller) (w : World)
  : option (caller * World) :=
  match c with
  | CWait ch =>
      Some (CDone [] (Some err),
            {| w_r := w_r w;
               w_group := if decide (err = DeadlineExceeded)
                          then Forget key (w_group w) else w_group w |})
  | _ => None
  end.

(** The package state and the callers running on it. *)
Record System : Type := {
  sys_world : World;
  sys_callers : list caller
}.

(** What the scheduler picks: a section of caller [i]; the cancellation of
    caller [i]; the end of the call [id], its work function returning [out]. *)
Inductive label : Type :=
  | LCaller (i : nat)
  | LCancel (i : nat) (err : error)
  | LFinish (id : nat) (out : list string * option error).

Definition sys_step (ctxs : nat -> Context) (key : string) (l : label) (s : System)
  : option System :=
  match l with
  | LCaller i =>
      match sys_callers s !! i with
      | Some c =>
          match caller_step (ctxs i) key c (sys_world s) with
          | Some (c', w') =>
              Some {| sys_world := w'; sys_callers := <[i := c']> (sys_callers s) |}
          | None => None
          end
      | None => None
      end
  | LCancel i err =>
      match sys_callers s !! i with
      | Some c =>
          match caller_cancel key err c (sys_world s) with
          | Some (c', w') =>
              Some {| sys_world := w'; sys_callers := <[i := c']> (sys_callers s) |}
          | None => None
          end
      | None => None
      end
  | LFinish id out =>
      match g_calls (w_group (sys_world s)) !! id with
      | Some _ =>
          Some {| sys_world := {| w_r := w_r (sys_world s);
                                  w_group := doCall id out (w_group (sys_world s)) |};
                  sys_callers := sys_callers s |}
      | None => None
      end
  end.

Fixpoint run (ctxs : nat -> Context) (key : string) (sched : list label) (s : System)
  : option System :=
  match sched with
  | [] => Some s
  | l :: sched' =>
      match sys_step ctxs key l s with
      | Some s' => run ctxs key sched' s'
      | None => None
      end
  end.

(** [n] callers about to look the key up. *)
Definition start (n : nat) (w : World) : System :=
  {| sys_world := w; sys_callers := replicate n CStart |}.

Definition is_caller (l : label) : Prop :=
  match l with LCaller _ => True | _ => False end.

Definition waiting (c : caller) : Prop :=
  match c with CWait _ => True | _ => False end.

Definition returned (c : caller) : Prop :=
  match c with CDone _ _ => True | _ => False end.

(** The caller has registered with the coordinator: it waits on its channel
    or has returned. *)
Definition past_registration (c : caller) : Prop :=
  match c with
  | CWait _ => True
  | CDone _ _ => True
  | _ => False
  end.

(** The caller has not reached the coordinator, or never will. *)
Definition unregistered (c : caller) : Prop :=
  match c with
  | CStart => True
  | CUpdate => True
  | CPanic _ => True
  | _ => False
  end.

(** The coordinator as the package can have left it: every registration
    names a call in flight for its key, and the identifiers of the calls in
    flight, their channels and the channels that hold an undelivered result
    are ones the coordinator has handed out. *)
Definition wf_group (g : Group) : Prop :=
  (forall k id, g_m g !! k = Some id ->
     exists c, g_calls g !! id = Some c /\ c_key c = k) /\
  (forall id c, g_calls g !! id = Some c ->
     (id < g_next g)%nat /\
     forall ch, ch ∈ c_chans c -> (ch < g_nextch g)%nat) /\
  (forall ch, is_Some (g_chan g !! ch) -> (ch < g_nextch g)%nat).

(** The call that callers of [key] arriving at [g] register on: the one in
    flight for the key, or else the next one to be started. *)
Definition target (key : string) (g : Group) : nat :=
  default (g_next g) (g_m g !! key).

(** The work functions handed to a goroutine between [g0] and [g] on behalf
    of callers of [key]: none when a call for the key was in flight at [g0],
    which they join, and one otherwise. *)
Definition spawned_since (key : string) (g0 g : Group) : Prop :=
  match g_m g0 !! key with
  | Some _ => g_spawned g = g_spawned g0
  | None => exists fn, g_spawned g = (g_spawned g0 ++ [(key, fn)])%list
  end.

(** What [update] returns for what the work function returned. *)
Definition outcome_of (out : list string * option error) : list string * option error :=
  match snd out with
  | Some e => ([], Some e)
  | None => (fst out, None)
  end.

(** The caller [i] is cancelled somewhere in the schedule. *)
Definition cancelled_in (sched : list label) (i : nat) : Prop :=
  exists err, LCancel i err ∈ sched.

(** What the scheduler may pick before the call [tid] ends: a section of a
    caller, the cancellation of a caller for a reason other than its
    deadline (which would make it forget the key), or the end of another
    call. *)
Definition before_end (tid : nat) (l : label) : Prop :=
  match l with
  | LCaller _ => True
  | LCancel _ err => err <> DeadlineExceeded
  | LFinish id _ => id <> tid
  end.

(** Every caller a label cancels is in [X]. *)
Definition cancels_within (X : nat -> Prop) (l : label) : Prop :=
  match l with
  | LCancel i _ => X i
  | _ => True
  end.

Definition is_cancelled (X : nat -> Prop) (i : nat) (c : caller) : Prop :=
  X i /\ exists e, c = CDone [] (Some e).

(** The channels made since [g0] hold nothing. *)
Definition nothing_sent (g0 g : Group) : Prop :=
  forall ch, (g_nextch g0 <= ch)%nat -> g_chan g !! ch = None.

(** The calls in flight other than [tid] send on channels made before
    [g0]. *)
Definition others_apart (tid : nat) (g0 g : Group) : Prop :=
  forall id c ch,
    id <> tid -> g_calls g !! id = Some c -> ch ∈ c_chans c ->
    (ch < g_nextch g0)%nat.

(** No two callers wait on one channel. *)
Definition own_channels (cs : list caller) : Prop :=
  forall i j ch,
    cs !! i = Some (CWait ch) -> cs !! j = Some (CWait ch) -> i = j.

(** While the callers arrive and the call is in flight: the resolver is
    untouched, nothing has been sent on the callers' channels, every caller
    is before its read, before its registration, waiting on a channel of its
    own made since the start, or cancelled, and either no call is registered
    for the key and none of the callers has registered, or the call
    registered is the one the callers have registered on. *)
Definition arriving (X : nat -> Prop) (key : string) (w0 : World) (s : System) : Prop :=
  let g0 := w_group w0 in
  let tid := target key g0 in
  let g := w_group (sys_world s) in
  w_r (sys_world s) = w_r w0 /\
  nothing_sent g0 g /\
  others_apart tid g0 g /\
  (forall i c, sys_callers s !! i = Some c ->
     c = CStart \/ c = CUpdate \/
     (exists ch, c = CWait ch /\ (g_nextch g0 <= ch < g_nextch g)%nat) \/
     is_cancelled X i c) /\
  own_channels (sys_callers s) /\
  (g_nextch g0 <= g_nextch g)%nat /\
  match g_m g !! key with
  | None =>
      g_m g0 !! key = None /\ g_calls g !! tid = None /\ g_next g = tid /\
      g_spawned g = g_spawned g0 /\
      forall i c, sys_callers s !! i = Some c -> c = CStart \/ c = CUpdate
  | Some id =>
      id = tid /\
      exists c,
        g_calls g !! tid = Some c /\ c_key c = key /\
        spawned_since key g0 g /\
        forall i ch, sys_callers s !! i = Some (CWait ch) -> ch ∈ c_chans c
  end.

(** Every caller has registered and the call is still in flight: each
    caller waits on a channel of the call, or has been cancelled. *)
Definition registered (X : nat -> Prop) (key : string) (w0 : World) (s : System) : Prop :=
  let g0 := w_group w0 in
  let tid := target key g0 in
  let g := w_group (sys_world s) in
  w_r (sys_world s) = w_r w0 /\
  nothing_sent g0 g /\
  others_apart tid g0 g /\
  (exists c,
     g_calls g !! tid = Some c /\ c_key c = key /\
     spawned_since key g0 g /\
     forall i ch, sys_callers s !! i = Some (CWait ch) -> ch ∈ c_chans c) /\
  (forall i c, sys_callers s !! i = Some c ->
     (exists ch, c = CWait ch /\ (g_nextch g0 <= ch)%nat) \/
     is_cancelled X i c) /\
  own_channels (sys_callers s).

(** A label that cancels no caller and, if it ends a call, ends it with the
    work function returning [out]. *)
Definition finishes_with (out : list string * option error) (l : label) : Prop :=
  match l with
  | LCaller _ => True
  | LCancel _ _ => False
  | LFinish _ out' => out' = out
  end.

(** Once the call has ended with [res]: where a caller that has not been
    cancelled can be. *)
Definition settled (res : Result) (g : Group) (c : caller) : Prop :=
  match c with
  | CWait ch => g_chan g !! ch = Some res
  | CRecheck r => r = res
  | CFallback r => r = res /\ is_Some (Err res)
  | CStore r => r = res /\ Err res = None
  | CDone rs err => (rs, err) = outcome_of (Val res, Err res)
  | _ => False
  end.

Definition delivered (X : nat -> Prop) (key : string) (w0 : World)
    (res : Result) (s : System) : Prop :=
  let g0 := w_group w0 in
  let tid := target key g0 in
  let g := w_group (sys_world s) in
  let c := r_cache (w_r (sys_world s)) in
  (c !! key = None \/
   (Err res = None /\ c !! key = Some {| rrs := Val res; used := true |})) /\
  (forall k, k <> key -> c !! k = r_cache (w_r w0) !! k) /\
  g_calls g !! tid = None /\
  others_apart tid g0 g /\
  spawned_since key g0 g /\
  (forall i c, sys_callers s !! i = Some c ->
     settled res g c \/ is_cancelled X i c) /\
  (forall i ch, sys_callers s !! i = Some (CWait ch) -> (g_nextch g0 <= ch)%nat) /\
  own_channels (sys_callers s).

(** How many sections a caller has before it, at most. *)
Definition rank (c : caller) : nat :=
  match c with
  | CStart => 6
  | CUpdate => 5
  | CWait _ => 4
  | CRecheck _ => 3
  | CFallback _ => 2
  | CStore _ => 2
  | CMark _ => 1
  | CDone _ _ => 0
  | CPanic _ => 0
  end.

(** A caller on its own: its sections one after the other, up to [fuel] of
    them. *)
Fixpoint steps (fuel : nat) (ctx : Context) (key : string) (c : caller) (w : World)
  : caller * World :=
  match fuel with
  | O => (c, w)
  | S fuel' =>
      match caller_step ctx key c w with
      | Some (c', w') => steps fuel' ctx key c' w'
      | None => (c, w)
      end
  end.

Definition post (ch : nat) (res : Result) (w : World) : World :=
  {| w_r := w_r w;
     w_group :=
       {| g_m := g_m (w_group w); g_calls := g_calls (w_group w);
          g_next := g_next (w_group w); g_nextch := g_nextch (w_group w);
          g_chan := <[ch := res]> (g_chan (w_group w));
          g_spawned := g_spawned (w_group w);
          g_forgotten := g_forgotten (w_group w) |} |}.

(** A caller run alone up to its [select], which yields [sel], and from
    there to its return. *)
Definition solo (ctx : Context) (key : string) (sel : selected) (w : World)
  : caller * World :=
  let '(c1, w1) := steps 2 ctx key CStart w in
  match c1, sel with
  | CWait ch, CtxDone e => default (c1, w1) (caller_cancel key e c1 w1)
  | CWait ch, Received res => steps 4 ctx key c1 (post ch res w1)
  | _, _ => (c1, w1)
  end.

(** ** Sample values *)

Definition okResult : Result :=
  {| Val := ["93.184.216.34"]; Err := None; Shared := false |}.

Definition failedResult : Result :=
  {| Val := []; Err := Some (errorString "no such host"); Shared := false |}.

Definition freshWorld : World :=
  {| w_r := newResolver 0 None; w_group := emptyGroup |}.

(** A resolver that has looked up [example.com] once. *)
Definition warmWorld : World :=
  {| w_r := {| r_Timeout := 0; r_Resolver := None; r_once := true;
               r_cache := {[ "hexample.com" := {| rrs := ["10.0.0.1"]; used := true |} ]} |};
     w_group := emptyGroup |}.

(** A context with a deadline. *)
Definition timedCtx : Context :=
  {| ctx_deadline := Some 1000000%Z; ctx_trace := None |}.

Definition tracedCtx : Context :=
  {| ctx_deadline := Some 5%Z;
     ctx_trace := Some
       {| GetConn := Some 1%positive; GotConn := None; PutIdleConn := None;
          GotFirstResponseByte := None; Got100Continue := None;
          Got1xxResponse := None;
          DNSStart := Some 2%positive; DNSDone := Some 3%positive;
          ConnectStart := None; ConnectDone := None;
          TLSHandshakeStart := None; TLSHandshakeDone := None;
          WroteHeaderField := None; WroteHeaders := None;
          Wait100Continue := None; WroteRequest := None |} |}.

(** ** A lookup nobody joins *)

(** The result of a call that no other caller joined: what its work function
    returned, not shared. *)
Definition unshared (out : list string * option error) : Result :=
  {| Val := fst out; Err := snd out; Shared := false |}.

Section Alone.
Variable IP : Type.
Variable IP_String : IP -> string.
Variable net_LookupIP : Context -> string -> string -> list IP * option error.
Variable net_LookupAddr : Context -> string -> list string * option error.

(** [LookupHost] and [LookupAddr] by a caller that is alone on its key and
    whose context is not done before the provider answers: the [select] of
    [update], if it is reached, receives what the caller's own work function
    returns. *)
Definition LookupHostAlone (ctx : Context) (host : string)
  : M (list string * option error) :=
  let* r := getResolver in
  match lookupFunc r ctx ("h" +:+ host) with
  | Ok fn =>
      LookupHost ctx host
        (Received (unshared (run_work IP IP_String net_LookupIP net_LookupAddr r fn)))
  | Panic msg => panic msg
  end.

Definition LookupAddrAlone (ctx : Context) (addr : string)
  : M (list string * option error) :=
  let* r := getResolver in
  match lookupFunc r ctx ("r" +:+ addr) with
  | Ok fn =>
      LookupAddr ctx addr
        (Received (unshared (run_work IP IP_String net_LookupIP net_LookupAddr r fn)))
  | Panic msg => panic msg
  end.
End Alone.

(** A public call that cannot take the entry of [key] away: a lookup, or the
    removal of another host. *)
Definition keeps (key : string) (c : publicCall) : Prop :=
  match c with
  | CallLookupHost _ _ _ => True
  | CallLookupAddr _ _ _ => True
  | CallRemove host => "h" +:+ host <> key
  | CallRefresh _ => False
  end.

(** A public call that looks [key] up. *)
Definition looks_up (key : string) (c : publicCall) : Prop :=
  match c with
  | CallLookupHost _ host _ => key = "h" +:+ host
  | CallLookupAddr _ addr _ => key = "r" +:+ addr
  | _ => False
  end.

(** A network that knows one host and one address. *)
Definition sampleLookupIP (ctx : Context) (network host : string)
  : list string * option error :=
  if String.eqb host "example.com"
  then (["93.184.216.34"; "2606:2800:220:1::1"], None)
  else (["0.0.0.0"], Some (errorString "no such host")).

Definition sampleLookupAddr (ctx : Context) (addr : string)
  : list string * option error :=
  if String.eqb addr "93.184.216.34"
  then (["example.com."], None)
  else ([], Some (errorString "no such host")).

(** A resolver holding one entry that has not been used since the last
    refresh. *)
Definition coldWorld : World :=
  {| w_r := {| r_Timeout := 0; r_Resolver := None; r_once := true;
               r_cache := {[ "hexample.com" := {| rrs := ["10.0.0.1"]; used := false |} ]} |};
     w_group := emptyGroup |}.

(** A result flagged as shared with other callers. *)
Definition sharedResult : Result :=
  {| Val := ["93.184.216.34"]; Err := None; Shared := true |}.

(** A package state in which a call for another key is in flight. *)
Definition busyWorld : World :=
  {| w_r := newResolver 0 None;
     w_group :=
       (DoChan "hexample.org"
          {| w_kind := kindHost; w_resolver := None; w_ctx := Background;
             w_subject := "example.org" |}
          emptyGroup).2 |}.

(** A resolver holding two entries, both used since the last refresh. *)
Definition pairWorld : World :=
  {| w_r := {| r_Timeout := 0; r_Resolver := None; r_once := true;
               r_cache :=
                 <[ "r10.0.0.1" := {| rrs := ["example.com."]; used := true |} ]>
                   {[ "hexample.com" := {| rrs := ["10.0.0.1"]; used := true |} ]} |};
     w_group := emptyGroup |}.

(** What the coordinator delivers in a refresh that succeeds for the host
    and fails for every other key. *)
Definition mixedResults (key : string) : Result :=
  if String.eqb key "hexample.com" then okResult else failedResult.

(** * Properties *)

(** ** The cache store *)

Ltac unfold_m :=
  unfold update, lookup, LookupHost, LookupAddr, Remove, onceM, loadM, storeM,
    lookupFuncM, onResolver, onGroup, getResolver, bind, ret, panic in *.

Lemma load_miss key r :
  r_cache r !! key = None -> load key r = ([], false, r).
Proof. unfold load, load_read. by intros ->. Qed.

Lemma load_hit key r entry :
  r_cache r !! key = Some entry ->
  load key r =
    (rrs entry, true,
     if used entry then r
     else set_cache (<[key := {| rrs := rrs entry; used := true |}]> (r_cache r)) r).
Proof. unfold load, load_read, load_mark. intros ->. by destruct (used entry). Qed.

Lemma load_cache_lookup key r k :
  r_cache (load key r).2 !! k =
    if decide (k = key)
    then (fun e => {| rrs := rrs e; used := true |}) <$> r_cache r !! key
    else r_cache r !! k.
Proof.
  unfold load, load_read, load_mark.
  destruct (r_cache r !! key) as [e|] eqn:E; simpl.
  - destruct (used e) eqn:U; simpl.
    + case_decide; subst; rewrite ?E; simpl; [|done].
      destruct e; simpl in *; by subst.
    + rewrite lookup_insert. repeat case_decide; subst; try done.
  - case_decide; subst; by rewrite ?E.
Qed.

Lemma load_config key r :
  r_Timeout (load key r).2 = r_Timeout r /\
  r_Resolver (load key r).2 = r_Resolver r /\
  r_once (load key r).2 = r_once r.
Proof.
  unfold load, load_read, load_mark.
  destruct (r_cache r !! key) as [e|]; [destruct (used e)|]; done.
Qed.

Lemma storeLocked_cache key rs u r :
  r_cache (storeLocked key rs u r) = <[key := {| rrs := rs; used := u |}]> (r_cache r).
Proof. unfold storeLocked. by destruct (r_cache r !! key). Qed.

Lemma lookupFunc_valid r ctx key :
  valid_key key = true <-> exists fn, lookupFunc r ctx key = Ok fn.
Proof.
  unfold valid_key, lookupFunc. destruct key as [|c rest].
  - split; [done | by intros [? ?]].
  - destruct (Ascii.eqb c "h"); simpl; [split; eauto|].
    destruct (Ascii.eqb c "r"); simpl; [split; eauto|].
    split; [done | by intros [? ?]].
Qed.

Lemma update_received ctx key u res w :
  valid_key key = true ->
  exists g,
    update ctx key u (Received res) w =
      Ok ((received key u res (w_r w)).1,
          {| w_r := (received key u res (w_r w)).2; w_group := g |}).
Proof.
  intros Hk. apply (lookupFunc_valid (w_r w) ctx) in Hk as [fn Hfn].
  unfold_m. rewrite Hfn. destruct (DoChan key fn (w_group w)) as [c g] eqn:Hg.
  exists g. unfold received. simpl.
  destruct (r_cache (w_r w) !! key) as [entry|] eqn:E.
  - destruct (Shared res) eqn:S; simpl.
    + rewrite (load_hit _ _ _ E). simpl. done.
    + destruct (Err res) as [e|] eqn:Ee; simpl.
      * rewrite (load_hit _ _ _ E). simpl. done.
      * done.
  - destruct (Shared res) eqn:S; simpl.
    + rewrite (load_miss _ _ E). simpl.
      destruct (Err res) as [e|] eqn:Ee; simpl; [|done].
      rewrite (load_miss _ _ E). done.
    + destruct (Err res) as [e|] eqn:Ee; simpl; [|done].
      rewrite (load_miss _ _ E). done.
Qed.

Lemma once_Do_init_cache r :
  initialised r -> r_cache (once_Do_init r) = r_cache r.
Proof.
  unfold initialised, once_Do_init. destruct (r_once r); [done|].
  intros ->; done.
Qed.

Lemma once_Do_init_once r : r_once (once_Do_init r) = true.
Proof. unfold once_Do_init. by destruct (r_once r) eqn:E. Qed.

Lemma update_done ctx key u err w :
  valid_key key = true ->
  exists fn g,
    lookupFunc (w_r w) ctx key = Ok fn /\
    g = (if decide (err = DeadlineExceeded)
         then Forget key (DoChan key fn (w_group w)).2
         else (DoChan key fn (w_group w)).2) /\
    update ctx key u (CtxDone err) w =
      Ok (([], Some err), {| w_r := w_r w; w_group := g |}).
Proof.
  intros Hk. apply (lookupFunc_valid (w_r w) ctx) in Hk as [fn Hfn].
  exists fn. eexists. split; [done|]. split; [done|].
  unfold_m. rewrite Hfn. destruct (DoChan key fn (w_group w)) as [c g].
  simpl. by case_decide.
Qed.

Lemma received_frame key u res r k :
  k <> key -> r_cache (received key u res r).2 !! k = r_cache r !! k.
Proof.
  intros Hne. unfold received.
  destruct (r_cache r !! key) as [e|] eqn:E.
  - destruct (Shared res || bool_decide (is_Some (Err res))); simpl.
    + rewrite load_cache_lookup. by case_decide.
    + rewrite storeLocked_cache. by rewrite lookup_insert_ne.
  - destruct (Err res); simpl; [done|].
    rewrite storeLocked_cache. by rewrite lookup_insert_ne.
Qed.

Lemma received_config key u res r :
  r_Timeout (received key u res r).2 = r_Timeout r /\
  r_Resolver (received key u res r).2 = r_Resolver r /\
  r_once (received key u res r).2 = r_once r.
Proof.
  unfold received.
  destruct (r_cache r !! key) as [e|] eqn:E.
  - destruct (Shared res || bool_decide (is_Some (Err res))); simpl.
    + apply load_config.
    + unfold storeLocked. by rewrite E.
  - destruct (Err res); simpl; [done|]. unfold storeLocked. by rewrite E.
Qed.

(** [update] touches no entry but the one of its key. *)
Lemma update_frame ctx key u sel w a w' k :
  update ctx key u sel w = Ok (a, w') ->
  k <> key ->
  r_cache (w_r w') !! k = r_cache (w_r w) !! k.
Proof.
  intros Hrun Hne.
  destruct (valid_key key) eqn:Hk.
  - destruct sel as [err|res].
    + destruct (update_done ctx key u err w Hk) as (fn & g & _ & _ & Heq).
      rewrite Heq in Hrun. by simplify_eq.
    + destruct (update_received ctx key u res w Hk) as (g & Heq).
      rewrite Heq in Hrun. simplify_eq. simpl. by apply received_frame.
  - exfalso. unfold_m.
    destruct (lookupFunc (w_r w) ctx key) as [fn|msg] eqn:Hfn; [|done].
    assert (valid_key key = true) by (apply (lookupFunc_valid (w_r w) ctx); eauto).
    congruence.
Qed.

Lemma lookup_run ctx key sel w :
  lookup ctx key sel w =
    match r_cache (w_r w) !! key with
    | Some entry =>
        Ok ((rrs entry, None),
            {| w_r := (load key (w_r w)).2; w_group := w_group w |})
    | None => update ctx key true sel w
    end.
Proof.
  unfold lookup, loadM, onResolver, bind, ret.
  destruct (r_cache (w_r w) !! key) as [e|] eqn:E.
  - by rewrite (load_hit _ _ _ E).
  - rewrite (load_miss _ _ E). by destruct w.
Qed.

Lemma lookup_frame ctx key sel w a w' k :
  lookup ctx key sel w = Ok (a, w') ->
  k <> key ->
  r_cache (w_r w') !! k = r_cache (w_r w) !! k.
Proof.
  rewrite lookup_run. intros Hrun Hne.
  destruct (r_cache (w_r w) !! key) as [e|] eqn:E.
  - simplify_eq. simpl. rewrite load_cache_lookup. by case_decide.
  - by eapply update_frame.
Qed.

(** A lookup that returns without error leaves an entry, marked used, that
    holds the results returned. *)
Lemma lookup_success_entry ctx key sel w rs w' :
  lookup ctx key sel w = Ok ((rs, None), w') ->
  exists entry,
    r_cache (w_r w') !! key = Some entry /\ used entry = true /\ rrs entry = rs.
Proof.
  rewrite lookup_run.
  destruct (r_cache (w_r w) !! key) as [e|] eqn:E.
  - intros ?; simplify_eq. simpl. rewrite load_cache_lookup.
    rewrite decide_True by done. rewrite E. simpl. eauto.
  - intros Hrun. destruct (valid_key key) eqn:Hk.
    + destruct sel as [err|res].
      * destruct (update_done ctx key true err w Hk) as (fn & g & _ & _ & Heq).
        rewrite Heq in Hrun. by simplify_eq.
      * destruct (update_received ctx key true res w Hk) as (g & Heq).
        rewrite Heq in Hrun. unfold received in Hrun. rewrite E in Hrun.
        destruct (Err res); simplify_eq. simpl.
        rewrite storeLocked_cache, lookup_insert_eq. eauto.
    + exfalso. unfold_m.
      destruct (lookupFunc (w_r w) ctx key) as [fn|msg] eqn:Hfn; [|done].
      assert (valid_key key = true) by (apply (lookupFunc_valid (w_r w) ctx); eauto).
      congruence.
Qed.

Lemma LookupHost_run ctx host sel w :
  LookupHost ctx host sel w =
    lookup ctx (hostKey host) sel
      {| w_r := once_Do_init (w_r w); w_group := w_group w |}.
Proof. reflexivity. Qed.

Lemma LookupAddr_run ctx addr sel w :
  LookupAddr ctx addr sel w =
    lookup ctx (addrKey addr) sel
      {| w_r := once_Do_init (w_r w); w_group := w_group w |}.
Proof. reflexivity. Qed.

Lemma hostKey_addrKey s t : hostKey s <> addrKey t.
Proof. unfold hostKey, addrKey. intros H. by cbn in H. Qed.

(** ** Provider errors and the stale entry *)

(** C1: when the resolution the update path waits for returns an error, the
    cached results of the key are returned with no error if the store holds
    an entry for the key at that moment; otherwise no results are returned
    and the provider's error is. The same holds of the whole lookup. *)
Theorem C1_provider_error ctx key u res e w :
  valid_key key = true ->
  Err res = Some e ->
  match r_cache (w_r w) !! key with
  | Some entry =>
      value_of (update ctx key u (Received res) w) = Some (rrs entry, None) /\
      value_of (lookup ctx key (Received res) w) = Some (rrs entry, None)
  | None =>
      value_of (update ctx key u (Received res) w) = Some ([], Some e) /\
      value_of (lookup ctx key (Received res) w) = Some ([], Some e)
  end.
Proof.
  intros Hk He.
  destruct (update_received ctx key u res w Hk) as (g & Hu).
  destruct (update_received ctx key true res w Hk) as (g' & Hl).
  rewrite lookup_run, Hu. unfold received in *.
  destruct (r_cache (w_r w) !! key) as [entry|] eqn:E.
  - rewrite He, orb_true_r. done.
  - rewrite Hl, He. done.
Qed.

Lemma C1_provider_error_witness :
  value_of (update Background "hexample.com" false (Received failedResult) warmWorld)
    = Some (["10.0.0.1"], None) /\
  value_of (lookup Background "hexample.org" (Received failedResult) warmWorld)
    = Some ([], Some (errorString "no such host")).
Proof.
  split.
  - apply (C1_provider_error Background "hexample.com" false failedResult
             (errorString "no such host") warmWorld); reflexivity.
  - apply (C1_provider_error Background "hexample.org" false failedResult
             (errorString "no such host") warmWorld); reflexivity.
Defined.

(** ** Lookups mark the entry used *)

(** C3: after a lookup that returns without error, through a cache hit or a
    fresh resolution, the store holds under the key an entry whose used flag
    is true and whose results are the value returned, for [lookup] and for
    both public entry points. A cache hit ([load] finding the entry) returns
    the entry's results, sets its used flag and changes nothing else: the
    other keys, the results and the configuration stay; it changes nothing at
    all when the flag was already set, so a second read is a no-op. A read
    that finds nothing changes nothing. *)
Theorem C3_lookup_marks_used :
  (forall ctx key sel w rs w',
     lookup ctx key sel w = Ok ((rs, None), w') ->
     exists entry,
       r_cache (w_r w') !! key = Some entry /\ used entry = true /\ rrs entry = rs) /\
  (forall ctx host sel w rs w',
     LookupHost ctx host sel w = Ok ((rs, None), w') ->
     exists entry,
       r_cache (w_r w') !! hostKey host = Some entry /\
       used entry = true /\ rrs entry = rs) /\
  (forall ctx addr sel w rs w',
     LookupAddr ctx addr sel w = Ok ((rs, None), w') ->
     exists entry,
       r_cache (w_r w') !! addrKey addr = Some entry /\
       used entry = true /\ rrs entry = rs) /\
  (forall key r entry,
     r_cache r !! key = Some entry ->
     exists r',
       load key r = (rrs entry, true, r') /\
       r_cache r' = <[key := {| rrs := rrs entry; used := true |}]> (r_cache r) /\
       (forall k, k <> key -> r_cache r' !! k = r_cache r !! k) /\
       r_Timeout r' = r_Timeout r /\ r_Resolver r' = r_Resolver r /\
       r_once r' = r_once r /\
       (used entry = true -> r' = r) /\
       load key r' = (rrs entry, true, r')) /\
  (forall key r,
     r_cache r !! key = None -> load key r = ([], false, r)).
Proof.
  split; [|split; [|split; [|split]]].
  - apply lookup_success_entry.
  - intros ctx host sel w rs w'. rewrite LookupHost_run.
    apply lookup_success_entry.
  - intros ctx addr sel w rs w'. rewrite LookupAddr_run.
    apply lookup_success_entry.
  - intros key r entry E. rewrite (load_hit _ _ _ E).
    eexists. split; [done|].
    assert (Hc : r_cache (if used entry then r
                    else set_cache (<[key:={| rrs := rrs entry; used := true |}]> (r_cache r)) r)
                 = <[key:={| rrs := rrs entry; used := true |}]> (r_cache r)).
    { destruct (used entry) eqn:U; [|done].
      symmetry. apply insert_id. rewrite E. destruct entry; simpl in *; by subst. }
    split; [done|]. split.
    { intros k Hne. rewrite Hc. by rewrite lookup_insert_ne. }
    repeat split; try by destruct (used entry).
    erewrite load_hit; [|rewrite Hc; apply lookup_insert_eq]. simpl. done.
  - intros key r E. by apply load_miss.
Qed.

Lemma C3_lookup_marks_used_witness :
  exists entry,
    r_cache (w_r (match LookupHost Background "example.com" (Received okResult) freshWorld with
                  | Ok (_, w') => w'
                  | Panic _ => freshWorld
                  end)) !! hostKey "example.com" = Some entry /\
    used entry = true /\ rrs entry = ["93.184.216.34"].
Proof.
  destruct C3_lookup_marks_used as (_ & H & _).
  apply (H Background "example.com" (Received okResult) freshWorld
           ["93.184.216.34"]).
  vm_compute. reflexivity.
Defined.

(** ** Cancellation *)

(** C4: when the update path stops waiting because the caller's context is
    done, it returns no results and the context's error, and leaves the
    resolver as it was. It has registered with the coordinator; it calls
    [Forget] for the key exactly when the error is [DeadlineExceeded], after
    which the key has no call registered; for every other error the
    coordinator is as the registration left it, the call still in flight. *)
Theorem C4_cancellation ctx key u err w :
  valid_key key = true ->
  exists fn w',
    lookupFunc (w_r w) ctx key = Ok fn /\
    update ctx key u (CtxDone err) w = Ok (([], Some err), w') /\
    w_r w' = w_r w /\
    let g := (DoChan key fn (w_group w)).2 in
    (g_forgotten (w_group w') = (g_forgotten g ++ [key])%list
       <-> err = DeadlineExceeded) /\
    (err = DeadlineExceeded ->
       w_group w' = Forget key g /\ g_m (w_group w') !! key = None) /\
    (err <> DeadlineExceeded ->
       w_group w' = g /\ is_Some (g_m (w_group w') !! key) /\
       g_forgotten (w_group w') = g_forgotten (w_group w)).
Proof.
  intros Hk.
  destruct (update_done ctx key u err w Hk) as (fn & g & Hfn & Hg & Heq).
  exists fn. eexists. split; [done|]. split; [exact Heq|]. split; [done|].
  simpl. subst g.
  assert (Hreg : is_Some (g_m (DoChan key fn (w_group w)).2 !! key)).
  { unfold DoChan. destruct (g_m (w_group w) !! key) as [id|] eqn:E; simpl.
    - rewrite E. eauto.
    - rewrite lookup_insert_eq. eauto. }
  assert (Hlog : g_forgotten (DoChan key fn (w_group w)).2 = g_forgotten (w_group w)).
  { unfold DoChan. by destruct (g_m (w_group w) !! key). }
  case_decide as Hd.
  - split; [done|]. split; [|done]. intros _. split; [done|].
    simpl. apply lookup_delete_eq.
  - split; [|split; [done|]].
    + split; [|done]. intros Hl. exfalso.
      apply (f_equal length) in Hl. rewrite length_app in Hl. simpl in Hl. lia.
    + intros _. done.
Qed.

Lemma C4_cancellation_witness :
  exists fn w',
    lookupFunc (w_r freshWorld) Background "hexample.com" = Ok fn /\
    update Background "hexample.com" true (CtxDone Canceled) freshWorld
      = Ok (([], Some Canceled), w') /\
    is_Some (g_m (w_group w') !! "hexample.com").
Proof.
  destruct (C4_cancellation Background "hexample.com" true Canceled freshWorld)
    as (fn & w' & Hfn & Hrun & _ & _ & _ & Hother); [reflexivity|].
  exists fn, w'. split; [exact Hfn|]. split; [exact Hrun|].
  apply Hother. discriminate.
Defined.

(** ** Key kinds *)

(** C5: a forward key and a reverse key are never equal, whatever the
    subjects; in particular those of ["1.2.3.4"] differ. A forward lookup
    leaves the entry under every reverse key as it is, and a reverse lookup
    the entry under every forward key; after a forward and a reverse lookup
    of one subject the store holds both results, each under its own key. *)
Theorem C5_key_kinds_disjoint :
  (forall s t, hostKey s <> addrKey t) /\
  hostKey "1.2.3.4" <> addrKey "1.2.3.4" /\
  (forall ctx s t sel w a w',
     initialised (w_r w) ->
     LookupHost ctx s sel w = Ok (a, w') ->
     r_cache (w_r w') !! addrKey t = r_cache (w_r w) !! addrKey t) /\
  (forall ctx s t sel w a w',
     initialised (w_r w) ->
     LookupAddr ctx t sel w = Ok (a, w') ->
     r_cache (w_r w') !! hostKey s = r_cache (w_r w) !! hostKey s) /\
  (forall ctx1 ctx2 s sel1 sel2 w rs1 rs2 w1 w2,
     LookupHost ctx1 s sel1 w = Ok ((rs1, None), w1) ->
     LookupAddr ctx2 s sel2 w1 = Ok ((rs2, None), w2) ->
     exists e1 e2,
       r_cache (w_r w2) !! hostKey s = Some e1 /\ rrs e1 = rs1 /\
       r_cache (w_r w2) !! addrKey s = Some e2 /\ rrs e2 = rs2).
Proof.
  split; [apply hostKey_addrKey|]. split; [apply hostKey_addrKey|].
  split; [|split].
  - intros ctx s t sel w a w' Hi. rewrite LookupHost_run. intros Hrun.
    rewrite (lookup_frame _ _ _ _ _ _ (addrKey t) Hrun).
    + simpl. by rewrite once_Do_init_cache.
    + intros Heq. by apply (hostKey_addrKey s t).
  - intros ctx s t sel w a w' Hi. rewrite LookupAddr_run. intros Hrun.
    rewrite (lookup_frame _ _ _ _ _ _ (hostKey s) Hrun).
    + simpl. by rewrite once_Do_init_cache.
    + apply hostKey_addrKey.
  - intros ctx1 ctx2 s sel1 sel2 w rs1 rs2 w1 w2.
    rewrite LookupHost_run, LookupAddr_run. intros H1 H2.
    destruct (lookup_success_entry _ _ _ _ _ _ H1) as (e1 & He1 & _ & Hr1).
    destruct (lookup_success_entry _ _ _ _ _ _ H2) as (e2 & He2 & _ & Hr2).
    exists e1, e2. split; [|done].
    rewrite (lookup_frame _ _ _ _ _ _ (hostKey s) H2) by apply hostKey_addrKey.
    simpl. rewrite once_Do_init_cache; [done|].
    intros Ho. exfalso.
    assert (r_once (w_r w1) = true); [|congruence].
    clear H2 He2 Hr2 Ho.
    assert (Ho : forall ctx key sel w a w',
               lookup ctx key sel w = Ok (a, w') -> r_once (w_r w') = r_once (w_r w)).
    { clear. intros ctx key sel w a w'. rewrite lookup_run.
      destruct (r_cache (w_r w) !! key) as [e|] eqn:E.
      - intros ?; simplify_eq. simpl. apply load_config.
      - intros Hrun. destruct (valid_key key) eqn:Hk.
        + destruct sel as [err|res].
          * destruct (update_done ctx key true err w Hk) as (fn & g & _ & _ & Heq).
            rewrite Heq in Hrun. by simplify_eq.
          * destruct (update_received ctx key true res w Hk) as (g & Heq).
            rewrite Heq in Hrun. simplify_eq. simpl. apply received_config.
        + exfalso. unfold_m.
          destruct (lookupFunc (w_r w) ctx key) as [fn|msg] eqn:Hfn; [|done].
          assert (valid_key key = true)
            by (apply (lookupFunc_valid (w_r w) ctx); eauto).
          congruence. }
    rewrite (Ho _ _ _ _ _ _ H1). simpl. apply once_Do_init_once.
Qed.

Lemma C5_key_kinds_disjoint_witness :
  r_cache (w_r (match LookupAddr Background "example.com" (Received okResult) warmWorld with
                | Ok (_, w') => w'
                | Panic _ => warmWorld
                end)) !! hostKey "example.com"
  = r_cache (w_r warmWorld) !! hostKey "example.com".
Proof.
  destruct C5_key_kinds_disjoint as (_ & _ & _ & H & _).
  apply (H Background "example.com" "example.com" (Received okResult) warmWorld
           (["93.184.216.34"], None)).
  - intros Ho. discriminate Ho.
  - vm_compute. reflexivity.
Defined.

(** ** The context of the provider call *)

(** C7: the context [prepareCtx] builds, which is the one the work function
    hands to the provider, starts from [Background]: it has a deadline
    exactly when [Timeout] is positive, the deadline being that timeout
    whatever deadline the caller's context has; when the caller's context
    carries a client trace, the context built carries a trace whose
    [DNSStart] and [DNSDone] are the caller's own references, and no other
    hook; when it carries none, neither does the context built. *)
Theorem C7_prepareCtx r orig :
  let ctx := (prepareCtx r orig).1 in
  (is_Some (ctx_deadline ctx) <-> (0 < r_Timeout r)%Z) /\
  ctx_deadline ctx = (if (r_Timeout r >? 0)%Z then Some (r_Timeout r) else None) /\
  (forall trace,
     ContextClientTrace orig = Some trace ->
     exists derived,
       ContextClientTrace ctx = Some derived /\
       DNSStart derived = DNSStart trace /\
       DNSDone derived = DNSDone trace /\
       GetConn derived = None /\ GotConn derived = None /\
       ConnectStart derived = None /\ ConnectDone derived = None) /\
  (ContextClientTrace orig = None -> ContextClientTrace ctx = None) /\
  (forall key fn,
     lookupFunc r orig key = Ok fn ->
     pc_ctx (call_of r fn) = ctx /\
     forall IP IP_String net_LookupIP net_LookupAddr,
       run_work IP IP_String net_LookupIP net_LookupAddr r fn =
         let resolver :=
           default (defaultResolver IP IP_String net_LookupIP net_LookupAddr)
                   (r_Resolver r) in
         match w_kind fn with
         | kindHost => LookupHost_ resolver ctx (w_subject fn)
         | kindAddr => LookupAddr_ resolver ctx (w_subject fn)
         end).
Proof.
  unfold prepareCtx, ContextClientTrace.
  destruct (Z.gtb_spec (r_Timeout r) 0) as [Ht|Ht];
    destruct (ctx_trace orig) as [t|] eqn:Et; simpl.
  all: split; [split; [intros H; try lia; by destruct H | intros; try lia; eauto]|].
  all: split; [done|].
  all: split; [intros trace Htr; simplify_eq; eauto 10|].
  all: split; [done|].
  all: intros key fn Hfn.
  all: assert (Hc : w_ctx fn = orig /\ w_resolver fn = r_Resolver r)
      by (unfold lookupFunc in Hfn; destruct key as [|c rest]; [done|];
          destruct (Ascii.eqb c "h"); [by simplify_eq|];
          destruct (Ascii.eqb c "r"); by simplify_eq).
  all: destruct Hc as [Hc1 Hc2].
  all: unfold call_of, run_work, prepareCtx, ContextClientTrace.
  all: rewrite Hc1, Hc2, Et.
  all: destruct (Z.gtb_spec (r_Timeout r) 0); try lia; done.
Qed.

Lemma C7_prepareCtx_witness :
  exists derived,
    ContextClientTrace (prepareCtx (newResolver 1000 None) tracedCtx).1 = Some derived /\
    DNSStart derived = Some 2%positive /\ DNSDone derived = Some 3%positive.
Proof.
  destruct (C7_prepareCtx (newResolver 1000 None) tracedCtx) as (_ & _ & H & _).
  destruct (H _ eq_refl) as (derived & Hd & Hs & Hn & _).
  exists derived. split; [exact Hd|]. split; [exact Hs | exact Hn].
Defined.

(** ** Explicit removal *)

(** C9: [Remove] never fails. It deletes the entry under the forward key of
    the host and no other: every other entry, the reverse-lookup entry of the
    same subject among them, is as before; when no entry is stored under the
    forward key the store is unchanged; the coordinator is not touched. *)
Theorem C9_remove host w :
  initialised (w_r w) ->
  exists w',
    Remove host w = Ok (tt, w') /\
    r_cache (w_r w') = delete (hostKey host) (r_cache (w_r w)) /\
    r_cache (w_r w') !! hostKey host = None /\
    (forall k, k <> hostKey host ->
       r_cache (w_r w') !! k = r_cache (w_r w) !! k) /\
    r_cache (w_r w') !! addrKey host = r_cache (w_r w) !! addrKey host /\
    (r_cache (w_r w) !! hostKey host = None ->
       r_cache (w_r w') = r_cache (w_r w)) /\
    w_group w' = w_group w.
Proof.
  intros Hi. eexists. split; [reflexivity|]. simpl.
  rewrite (once_Do_init_cache _ Hi).
  split; [done|]. split; [apply lookup_delete_eq|].
  split; [intros k Hne; by apply lookup_delete_ne|].
  split; [apply lookup_delete_ne, hostKey_addrKey|].
  split; [|done]. intros Hnone. by apply delete_id.
Qed.

Lemma C9_remove_witness :
  exists w',
    Remove "example.com" warmWorld = Ok (tt, w') /\
    r_cache (w_r w') !! hostKey "example.com" = None.
Proof.
  destruct (C9_remove "example.com" warmWorld) as (w' & Hrun & _ & Hgone & _).
  - intros Ho. discriminate Ho.
  - exists w'. split; [exact Hrun | exact Hgone].
Defined.

(** ** The refresh sweep *)

Lemma snapshot_acc entries upd del :
  fold_left (fun '(upd, del) '(key, entry) =>
               if used entry then ((upd ++ [key])%list, del)
               else (upd, (del ++ [key])%list))
            entries (upd, del)
  = ((upd ++ used_keys entries)%list, (del ++ unused_keys entries)%list).
Proof.
  revert upd del. induction entries as [|[key entry] rest IH]; intros upd del; simpl.
  - by rewrite !app_nil_r.
  - destruct (used entry); rewrite IH; by rewrite <- app_assoc.
Qed.

Lemma snapshot_keys entries :
  snapshot entries = (used_keys entries, unused_keys entries).
Proof. unfold snapshot. by rewrite snapshot_acc. Qed.

Lemma elem_of_used_keys entries k :
  k ∈ used_keys entries <-> exists e, (k, e) ∈ entries /\ used e = true.
Proof.
  induction entries as [|[key entry] rest IH]; simpl.
  - split; [by intros ?%elem_of_nil | by intros (e & ?%elem_of_nil & _)].
  - destruct (used entry) eqn:U.
    + rewrite elem_of_cons, IH. split.
      * intros [->|(e & He & Hu)]; [exists entry | exists e];
          rewrite elem_of_cons; eauto.
      * intros (e & [Heq|He]%elem_of_cons & Hu); [left; congruence | eauto].
    + rewrite IH. split.
      * intros (e & He & Hu). exists e. rewrite elem_of_cons; eauto.
      * intros (e & [Heq|He]%elem_of_cons & Hu); [|eauto]. simplify_eq. congruence.
Qed.

Lemma elem_of_unused_keys entries k :
  k ∈ unused_keys entries <-> exists e, (k, e) ∈ entries /\ used e = false.
Proof.
  induction entries as [|[key entry] rest IH]; simpl.
  - split; [by intros ?%elem_of_nil | by intros (e & ?%elem_of_nil & _)].
  - destruct (used entry) eqn:U.
    + rewrite IH. split.
      * intros (e & He & Hu). exists e. rewrite elem_of_cons; eauto.
      * intros (e & [Heq|He]%elem_of_cons & Hu); [|eauto]. simplify_eq. congruence.
    + rewrite elem_of_cons, IH. split.
      * intros [->|(e & He & Hu)]; [exists entry | exists e];
          rewrite elem_of_cons; eauto.
      * intros (e & [Heq|He]%elem_of_cons & Hu); [left; congruence | eauto].
Qed.

Lemma NoDup_used_keys entries :
  NoDup (entries.*1) -> NoDup (used_keys entries).
Proof.
  induction entries as [|[key entry] rest IH]; simpl; [constructor|].
  intros [Hnin Hnd]%NoDup_cons. destruct (used entry); [|by apply IH].
  apply NoDup_cons. split; [|by apply IH].
  intros (e & He & _)%elem_of_used_keys. apply Hnin.
  apply list_elem_of_fmap. by exists (key, e).
Qed.

Lemma range_ok_elem range (c : gmap string cacheEntry) k e :
  range_ok range -> (k, e) ∈ range c <-> c !! k = Some e.
Proof. intros Hr. rewrite (Hr c). apply elem_of_map_to_list. Qed.

Lemma range_ok_NoDup range (c : gmap string cacheEntry) :
  range_ok range -> NoDup ((range c).*1).
Proof. intros Hr. rewrite (Hr c). apply NoDup_fst_map_to_list. Qed.

Lemma deleteKeys_lookup del (c : gmap string cacheEntry) k :
  deleteKeys del c !! k = if decide (k ∈ del) then None else c !! k.
Proof.
  revert c. induction del as [|key del IH]; intros c.
  - destruct (decide (k ∈ [])) as [Hin|_]; [by apply elem_of_nil in Hin | done].
  - cbn [deleteKeys]. rewrite IH.
    destruct (decide (k ∈ del)) as [Hin|Hnin];
      destruct (decide (k ∈ key :: del)) as [Hin'|Hnin']; try done.
    + exfalso. apply Hnin'. by right.
    + apply elem_of_cons in Hin' as [->|?]; [|done]. apply lookup_delete_eq.
    + apply lookup_delete_ne. intros ->. apply Hnin'. by left.
Qed.

Lemma received_entry key u res r :
  r_cache (received key u res r).2 !! key = entry_after u res (r_cache r !! key).
Proof.
  unfold received, entry_after.
  destruct (r_cache r !! key) as [e|] eqn:E.
  - destruct (Shared res || bool_decide (is_Some (Err res))); simpl.
    + rewrite load_cache_lookup, decide_True by done. by rewrite E.
    + by rewrite storeLocked_cache, lookup_insert_eq.
  - destruct (Err res); simpl; [done|].
    by rewrite storeLocked_cache, lookup_insert_eq.
Qed.

(** The loop over the used keys: each key's entry becomes what the update
    path leaves for it, every other entry stays. *)
Lemma updateKeys_run upd res w :
  NoDup upd ->
  (forall k, k ∈ upd -> valid_key k = true) ->
  exists w',
    updateKeys upd res w = Ok (tt, w') /\
    r_Timeout (w_r w') = r_Timeout (w_r w) /\
    r_Resolver (w_r w') = r_Resolver (w_r w) /\
    r_once (w_r w') = r_once (w_r w) /\
    forall k,
      r_cache (w_r w') !! k =
        if decide (k ∈ upd)
        then entry_after false (res k) (r_cache (w_r w) !! k)
        else r_cache (w_r w) !! k.
Proof.
  revert w. induction upd as [|key upd IH]; intros w Hnd Hv.
  - exists w. split; [done|]. do 3 (split; [done|]). intros k.
    destruct (decide (k ∈ [])) as [Hin|_]; [by apply elem_of_nil in Hin | done].
  - cbn [updateKeys]. apply NoDup_cons in Hnd as [Hnin Hnd].
    destruct (update_received Background key false (res key) w) as (g & Hu).
    { apply Hv. by left. }
    unfold bind at 1. rewrite Hu.
    set (w1 := {| w_r := (received key false (res key) (w_r w)).2; w_group := g |}).
    destruct (IH w1 Hnd) as (w' & Hrun & Ht & Hr & Ho & Hc).
    { intros k Hk. apply Hv. by right. }
    exists w'. split; [done|].
    destruct (received_config key false (res key) (w_r w)) as (Ht1 & Hr1 & Ho1).
    split; [by rewrite Ht|]. split; [by rewrite Hr|]. split; [by rewrite Ho|].
    intros k. rewrite Hc. subst w1. simpl.
    destruct (decide (k ∈ upd)) as [Hin|Hnin2];
      destruct (decide (k ∈ key :: upd)) as [Hin'|Hnin']; try done.
    + rewrite received_frame; [done | by intros ->].
    + exfalso. apply Hnin'. by right.
    + apply elem_of_cons in Hin' as [->|?]; [|done]. apply received_entry.
    + apply received_frame. intros ->. apply Hnin'. by left.
Qed.

Lemma refreshRecords_unfold range res w :
  let r0 := once_Do_init (w_r w) in
  let entries := range (r_cache r0) in
  refreshRecords range res w =
    updateKeys (used_keys entries) res
      {| w_r := set_cache (deleteKeys (unused_keys entries) (r_cache r0)) r0;
         w_group := w_group w |}.
Proof.
  unfold refreshRecords, onceM, getResolver, onResolver, bind, ret. simpl.
  rewrite snapshot_keys.
  destruct (0 <? length (unused_keys (range (r_cache (once_Do_init (w_r w))))))%nat
    eqn:Hl; simpl; [done|].
  destruct (unused_keys (range (r_cache (once_Do_init (w_r w))))); [|done].
  simpl. by destruct (once_Do_init (w_r w)).
Qed.

Lemma refreshRecords_run range res w :
  range_ok range ->
  initialised (w_r w) ->
  keys_valid (r_cache (w_r w)) ->
  exists w',
    refreshRecords range res w = Ok (tt, w') /\
    r_once (w_r w') = true /\
    forall k, r_cache (w_r w') !! k = refreshed res (r_cache (w_r w)) k.
Proof.
  intros Hr Hi Hv.
  rewrite refreshRecords_unfold. cbv zeta.
  rewrite (once_Do_init_cache _ Hi).
  set (c := r_cache (w_r w)).
  set (del := unused_keys (range c)).
  set (upd := used_keys (range c)).
  match goal with |- context [updateKeys upd res ?w1] => set (w0 := w1) end.
  destruct (updateKeys_run upd res w0) as (w' & Hrun & _ & _ & Ho & Hc).
  { apply NoDup_used_keys, range_ok_NoDup, Hr. }
  { intros k (e & He & _)%elem_of_used_keys. apply Hv.
    apply (range_ok_elem range c k e Hr) in He. by exists e. }
  exists w'. split; [done|]. split.
  { rewrite Ho. subst w0. simpl. apply once_Do_init_once. }
  intros k. rewrite Hc. subst w0. simpl. rewrite deleteKeys_lookup.
  unfold refreshed. fold c.
  destruct (c !! k) as [e|] eqn:E.
  - destruct (used e) eqn:U.
    + rewrite decide_True.
      2:{ apply elem_of_used_keys. exists e. split; [|done].
          by apply (range_ok_elem range c k e Hr). }
      rewrite decide_False; [done|].
      intros (e' & He' & Hu')%elem_of_unused_keys.
      apply (range_ok_elem range c k e' Hr) in He'. congruence.
    + rewrite decide_False.
      2:{ intros (e' & He' & Hu')%elem_of_used_keys.
          apply (range_ok_elem range c k e' Hr) in He'. congruence. }
      rewrite decide_True; [done|].
      apply elem_of_unused_keys. exists e. split; [|done].
      by apply (range_ok_elem range c k e Hr).
  - rewrite decide_False.
    2:{ intros (e' & He' & Hu')%elem_of_used_keys.
        apply (range_ok_elem range c k e' Hr) in He'. congruence. }
    by case_decide.
Qed.

Lemma refreshed_is_Some res c k :
  is_Some (refreshed res c k) -> is_Some (c !! k).
Proof. unfold refreshed. destruct (c !! k); [eauto | by intros [? ?]]. Qed.

Lemma keys_valid_refreshed res c (c' : gmap string cacheEntry) :
  keys_valid c -> (forall k, c' !! k = refreshed res c k) -> keys_valid c'.
Proof.
  intros Hv Hc k Hk. apply Hv. rewrite Hc in Hk. by eapply refreshed_is_Some.
Qed.

Lemma keys_valid_warm : keys_valid (r_cache (w_r warmWorld)).
Proof.
  intros k [e He]. unfold warmWorld in He. simpl in He.
  apply lookup_singleton_Some in He as [<- _]. reflexivity.
Qed.

Lemma range_ok_map_to_list : range_ok map_to_list.
Proof. intros m. reflexivity. Qed.

(** C2, amended: whatever the store holds and in whatever order the map is
    ranged over, [Refresh] deletes every entry whose used flag is false, and
    leaves under the key of every entry whose used flag is true what the
    update path, run for that key with [used = false], leaves there. When
    that re-resolution succeeds (the result comes without error and is the
    call's own, not one shared with a concurrent caller) the entry holds the
    new results with its used flag false after the refresh, and a second
    refresh that follows directly deletes it: two refreshes in a row leave no
    entry for the key. *)
Theorem C2_refresh range1 range2 res1 res2 w :
  range_ok range1 -> range_ok range2 ->
  initialised (w_r w) ->
  keys_valid (r_cache (w_r w)) ->
  exists w1 w2,
    Refresh range1 res1 w = Ok (tt, w1) /\
    Refresh range2 res2 w1 = Ok (tt, w2) /\
    forall key,
      match r_cache (w_r w) !! key with
      | Some entry =>
          if used entry then
            r_cache (w_r w1) !! key =
              entry_of key (update Background key false (Received (res1 key)) w) /\
            (Err (res1 key) = None -> Shared (res1 key) = false ->
               r_cache (w_r w1) !! key =
                 Some {| rrs := Val (res1 key); used := false |} /\
               r_cache (w_r w2) !! key = None)
          else
            r_cache (w_r w1) !! key = None /\ r_cache (w_r w2) !! key = None
      | None =>
          r_cache (w_r w1) !! key = None /\ r_cache (w_r w2) !! key = None
      end.
Proof.
  intros Hr1 Hr2 Hi Hv. unfold Refresh.
  destruct (refreshRecords_run range1 res1 w Hr1 Hi Hv) as (w1 & Hrun1 & Ho1 & Hc1).
  destruct (refreshRecords_run range2 res2 w1 Hr2) as (w2 & Hrun2 & Ho2 & Hc2).
  { intros Ho. congruence. }
  { by eapply keys_valid_refreshed. }
  exists w1, w2. split; [done|]. split; [done|].
  intros key. pose proof (Hc1 key) as H1. pose proof (Hc2 key) as H2.
  unfold refreshed in H2. rewrite H1 in H2. unfold refreshed in H1, H2.
  destruct (r_cache (w_r w) !! key) as [entry|] eqn:E; [|done].
  destruct (used entry) eqn:U; [|done].
  split.
  - destruct (update_received Background key false (res1 key) w) as (g & Hu).
    { apply Hv. eauto. }
    rewrite Hu. simpl. by rewrite received_entry, E.
  - intros He Hs. unfold entry_after in H1, H2. rewrite He, Hs in H1, H2.
    simpl in H1, H2. done.
Qed.

Lemma C2_refresh_witness :
  exists w1 w2,
    Refresh map_to_list (fun _ => okResult) warmWorld = Ok (tt, w1) /\
    Refresh map_to_list (fun _ => okResult) w1 = Ok (tt, w2) /\
    r_cache (w_r w1) !! "hexample.com"
      = Some {| rrs := ["93.184.216.34"]; used := false |} /\
    r_cache (w_r w2) !! "hexample.com" = None.
Proof.
  destruct (C2_refresh map_to_list map_to_list (fun _ => okResult)
              (fun _ => okResult) warmWorld)
    as (w1 & w2 & H1 & H2 & Hk).
  - exact range_ok_map_to_list.
  - exact range_ok_map_to_list.
  - intros Ho. discriminate Ho.
  - exact keys_valid_warm.
  - exists w1, w2. split; [exact H1|]. split; [exact H2|].
    specialize (Hk "hexample.com").
    change (r_cache (w_r warmWorld) !! "hexample.com")
      with (Some {| rrs := ["10.0.0.1"]; used := true |}) in Hk.
    simpl in Hk. destruct Hk as [_ Hk]. apply Hk; reflexivity.
Defined.

(** The claim as stated fails when the re-resolution fails: the entry keeps
    its used flag, and is still there after a second refresh. *)
Lemma C2_counterexample :
  exists w1 w2 e1 e2,
    r_cache (w_r warmWorld) !! "hexample.com"
      = Some {| rrs := ["10.0.0.1"]; used := true |} /\
    Refresh map_to_list (fun _ => failedResult) warmWorld = Ok (tt, w1) /\
    r_cache (w_r w1) !! "hexample.com" = Some e1 /\ used e1 <> false /\
    Refresh map_to_list (fun _ => okResult) w1 = Ok (tt, w2) /\
    r_cache (w_r w2) !! "hexample.com" = Some e2 /\
    r_cache (w_r w2) !! "hexample.com" <> None.
Proof.
  eexists _, _, _, _. split; [reflexivity|].
  split; [vm_compute; reflexivity|]. split; [vm_compute; reflexivity|].
  split; [discriminate|]. split; [vm_compute; reflexivity|].
  split; [vm_compute; reflexivity|]. vm_compute. discriminate.
Qed.

(** C10: when the re-resolution a refresh starts for a key fails while the
    store holds an entry for the key, the entry is kept, with its results,
    and its used flag is true: the cache read of the error fallback marks the
    entry used, whatever its flag was, and the [used = false] of the refresh
    is not applied. The key therefore outlives the next refresh too, with no
    lookup in between. *)
Theorem C10_failed_refresh range1 range2 res1 res2 w key entry e :
  range_ok range1 -> range_ok range2 ->
  initialised (w_r w) ->
  keys_valid (r_cache (w_r w)) ->
  r_cache (w_r w) !! key = Some entry ->
  used entry = true ->
  Err (res1 key) = Some e ->
  exists w1 w2,
    Refresh range1 res1 w = Ok (tt, w1) /\
    r_cache (w_r w1) !! key = Some {| rrs := rrs entry; used := true |} /\
    Refresh range2 res2 w1 = Ok (tt, w2) /\
    is_Some (r_cache (w_r w2) !! key) /\
    forall ctx w0 entry0,
      r_cache (w_r w0) !! key = Some entry0 ->
      exists w0',
        update ctx key false (Received (res1 key)) w0 = Ok ((rrs entry0, None), w0') /\
        r_cache (w_r w0') !! key = Some {| rrs := rrs entry0; used := true |}.
Proof.
  intros Hr1 Hr2 Hi Hv E U He. unfold Refresh.
  destruct (refreshRecords_run range1 res1 w Hr1 Hi Hv) as (w1 & Hrun1 & Ho1 & Hc1).
  destruct (refreshRecords_run range2 res2 w1 Hr2) as (w2 & Hrun2 & Ho2 & Hc2).
  { intros Ho. congruence. }
  { by eapply keys_valid_refreshed. }
  exists w1, w2. split; [done|].
  assert (H1 : r_cache (w_r w1) !! key = Some {| rrs := rrs entry; used := true |}).
  { rewrite Hc1. unfold refreshed, entry_after. rewrite E, U, He.
    by rewrite orb_true_r. }
  split; [done|]. split; [done|]. split.
  - rewrite Hc2. unfold refreshed, entry_after. rewrite H1. simpl.
    destruct (Shared (res2 key) || bool_decide (is_Some (Err (res2 key)))); eauto.
  - intros ctx w0 entry0 E0.
    destruct (update_received ctx key false (res1 key) w0) as (g & Hu).
    { apply Hv. eauto. }
    eexists. rewrite Hu. unfold received at 1. rewrite E0, He, orb_true_r.
    split; [done|]. simpl. rewrite received_entry, E0.
    unfold entry_after. rewrite He, orb_true_r. done.
Qed.

Lemma C10_failed_refresh_witness :
  exists w1 w2,
    Refresh map_to_list (fun _ => failedResult) warmWorld = Ok (tt, w1) /\
    r_cache (w_r w1) !! "hexample.com" = Some {| rrs := ["10.0.0.1"]; used := true |} /\
    Refresh map_to_list (fun _ => failedResult) w1 = Ok (tt, w2) /\
    is_Some (r_cache (w_r w2) !! "hexample.com").
Proof.
  destruct (C10_failed_refresh map_to_list map_to_list (fun _ => failedResult)
              (fun _ => failedResult) warmWorld "hexample.com"
              {| rrs := ["10.0.0.1"]; used := true |}
              (errorString "no such host"))
    as (w1 & w2 & H1 & Hk1 & H2 & Hk2 & _).
  - exact range_ok_map_to_list.
  - exact range_ok_map_to_list.
  - intros Ho. discriminate Ho.
  - exact keys_valid_warm.
  - reflexivity.
  - reflexivity.
  - reflexivity.
  - exists w1, w2. split; [exact H1|]. split; [exact Hk1|].
    split; [exact H2 | exact Hk2].
Defined.

(** ** Panics *)

Lemma lookup_ok ctx key sel w :
  valid_key key = true ->
  exists a w',
    lookup ctx key sel w = Ok (a, w') /\
    r_once (w_r w') = r_once (w_r w) /\
    forall k, k <> key -> r_cache (w_r w') !! k = r_cache (w_r w) !! k.
Proof.
  intros Hk.
  assert (Hex : exists a w', lookup ctx key sel w = Ok (a, w') /\
                             r_once (w_r w') = r_once (w_r w)).
  { rewrite lookup_run.
    destruct (r_cache (w_r w) !! key) as [e|] eqn:E.
    - eexists _, _. split; [done|]. simpl. apply load_config.
    - destruct sel as [err|res].
      + destruct (update_done ctx key true err w Hk) as (fn & g & _ & _ & Heq).
        rewrite Heq. eauto.
      + destruct (update_received ctx key true res w Hk) as (g & Heq).
        rewrite Heq. eexists _, _. split; [done|]. simpl. apply received_config. }
  destruct Hex as (a & w' & Hrun & Ho). exists a, w'.
  split; [done|]. split; [done|].
  intros k Hne. by eapply lookup_frame.
Qed.

Lemma valid_hostKey host : valid_key (hostKey host) = true.
Proof. reflexivity. Qed.

Lemma valid_addrKey addr : valid_key (addrKey addr) = true.
Proof. reflexivity. Qed.

Lemma lookup_good ctx key sel w :
  valid_key key = true ->
  r_once (w_r w) = true ->
  keys_valid (r_cache (w_r w)) ->
  exists a w', lookup ctx key sel w = Ok (a, w') /\ good w'.
Proof.
  intros Hk Ho Hv.
  destruct (lookup_ok ctx key sel w Hk) as (a & w' & Hrun & Ho' & Hf).
  exists a, w'. split; [done|]. split.
  - intros Hn. congruence.
  - intros k Hs. destruct (decide (k = key)) as [->|Hne]; [done|].
    apply Hv. by rewrite <- Hf.
Qed.

Lemma once_Do_init_valid r :
  initialised r -> keys_valid (r_cache r) -> keys_valid (r_cache (once_Do_init r)).
Proof. intros Hi Hv. by rewrite once_Do_init_cache. Qed.

Lemma run_call_good range c w :
  range_ok range -> good w ->
  exists w', run_call range c w = Ok (tt, w') /\ good w'.
Proof.
  intros Hr [Hi Hv]. destruct c as [ctx host sel|ctx addr sel|host|res]; simpl.
  - unfold bind at 1. rewrite LookupHost_run.
    destruct (lookup_good ctx (hostKey host) sel
                {| w_r := once_Do_init (w_r w); w_group := w_group w |})
      as (a & w' & Hrun & Hg).
    + apply valid_hostKey.
    + apply once_Do_init_once.
    + by apply once_Do_init_valid.
    + rewrite Hrun. eauto.
  - unfold bind at 1. rewrite LookupAddr_run.
    destruct (lookup_good ctx (addrKey addr) sel
                {| w_r := once_Do_init (w_r w); w_group := w_group w |})
      as (a & w' & Hrun & Hg).
    + apply valid_addrKey.
    + apply once_Do_init_once.
    + by apply once_Do_init_valid.
    + rewrite Hrun. eauto.
  - eexists. split; [reflexivity|]. split; simpl.
    + intros Ho. simpl in Ho. by rewrite once_Do_init_once in Ho.
    + rewrite (once_Do_init_cache _ Hi). intros k [e He].
      apply lookup_delete_Some in He as [_ He]. apply Hv. eauto.
  - destruct (refreshRecords_run range res w Hr Hi Hv) as (w' & Hrun & Ho & Hc).
    exists w'. split; [done|]. split.
    + intros Hn. congruence.
    + by eapply keys_valid_refreshed.
Qed.

Lemma run_calls_good range cs w :
  range_ok range -> good w ->
  exists w', run_calls range cs w = Ok (tt, w') /\ good w'.
Proof.
  intros Hr. revert w. induction cs as [|c cs IH]; intros w Hg; simpl.
  - by exists w.
  - destruct (run_call_good range c w Hr Hg) as (w1 & Hrun1 & Hg1).
    unfold bind. rewrite Hrun1. by apply IH.
Qed.

Lemma good_new timeout provider g :
  good {| w_r := newResolver timeout provider; w_group := g |}.
Proof.
  split; [done|]. intros k [e He]. simpl in He. by rewrite lookup_empty in He.
Qed.

(** C8: building the work function panics exactly when the key is empty or
    its first character is neither ['h'] nor ['r']. Every key a public entry
    point builds starts with one of the two, also for an empty subject, so
    neither [LookupHost] nor [LookupAddr] nor [Remove] ever panics, and no
    sequence of public calls on a new resolver does, [Refresh] included,
    whatever the state of the coordinator and whatever the calls receive. *)
Theorem C8_panics :
  (forall r ctx key,
     is_panic (lookupFunc r ctx key) <->
     key = "" \/
     exists c rest, key = String c rest /\ c <> "h"%char /\ c <> "r"%char) /\
  hostKey "" = "h" /\ addrKey "" = "r" /\
  (forall r ctx subject,
     ~ is_panic (lookupFunc r ctx (hostKey subject)) /\
     ~ is_panic (lookupFunc r ctx (addrKey subject))) /\
  (forall ctx subject sel w,
     ~ is_panic (LookupHost ctx subject sel w) /\
     ~ is_panic (LookupAddr ctx subject sel w) /\
     ~ is_panic (Remove subject w)) /\
  (forall range timeout provider g cs,
     range_ok range ->
     ~ is_panic (run_calls range cs
                   {| w_r := newResolver timeout provider; w_group := g |})).
Proof.
  split; [|split; [done|split; [done|split; [|split]]]].
  - intros r ctx key. unfold lookupFunc. destruct key as [|c rest]; simpl.
    + split; [by left | done].
    + destruct (Ascii.eqb_spec c "h") as [->|Hh]; simpl.
      { split; [done|]. intros [?|(c & rest' & ? & ? & ?)]; [done|].
        by simplify_eq. }
      destruct (Ascii.eqb_spec c "r") as [->|Hr]; simpl.
      { split; [done|]. intros [?|(c & rest' & ? & ? & ?)]; [done|].
        by simplify_eq. }
      split; [|done]. intros _. right. by exists c, rest.
  - intros r ctx subject. split; cbn; auto.
  - intros ctx subject sel w. split; [|split].
    + rewrite LookupHost_run.
      destruct (lookup_ok ctx (hostKey subject) sel
                  {| w_r := once_Do_init (w_r w); w_group := w_group w |}
                  (valid_hostKey subject)) as (a & w' & -> & _). simpl; auto.
    + rewrite LookupAddr_run.
      destruct (lookup_ok ctx (addrKey subject) sel
                  {| w_r := once_Do_init (w_r w); w_group := w_group w |}
                  (valid_addrKey subject)) as (a & w' & -> & _). simpl; auto.
    + cbn; auto.
  - intros range timeout provider g cs Hr.
    destruct (run_calls_good range cs
                {| w_r := newResolver timeout provider; w_group := g |} Hr
                (good_new timeout provider g)) as (w' & -> & _).
    simpl; auto.
Qed.

Lemma C8_panics_witness :
  ~ is_panic (run_calls map_to_list
                [CallLookupHost Background "" (Received okResult);
                 CallRefresh (fun _ => failedResult);
                 CallLookupAddr Background "" (CtxDone DeadlineExceeded);
                 CallRemove "";
                 CallRefresh (fun _ => okResult)]
                freshWorld).
Proof.
  destruct C8_panics as (_ & _ & _ & _ & _ & H).
  apply (H map_to_list 0%Z None emptyGroup). exact range_ok_map_to_list.
Defined.

(** ** Concurrent lookups of one key *)

Lemma run_app ctxs key sched1 sched2 s :
  run ctxs key (sched1 ++ sched2) s =
    match run ctxs key sched1 s with
    | Some s' => run ctxs key sched2 s'
    | None => None
    end.
Proof.
  revert s. induction sched1 as [|l sched1 IH]; intros s; simpl; [done|].
  destruct (sys_step ctxs key l s); [apply IH | done].
Qed.

Lemma deliver_lookup res chans (m : gmap nat Result) ch :
  ch ∈ chans -> deliver res chans m !! ch = Some res.
Proof.
  induction chans as [|ch' chans IH]; simpl; [by intros ?%elem_of_nil|].
  intros [->|Hin]%elem_of_cons.
  - apply lookup_insert_eq.
  - destruct (decide (ch' = ch)) as [->|Hne].
    + apply lookup_insert_eq.
    + rewrite lookup_insert_ne by done. by apply IH.
Qed.

Lemma deliver_lookup_ne res chans (m : gmap nat Result) ch :
  ch ∉ chans -> deliver res chans m !! ch = m !! ch.
Proof.
  induction chans as [|ch' chans IH]; simpl; [done|].
  intros [Hne Hnin]%not_elem_of_cons.
  rewrite lookup_insert_ne by done. by apply IH.
Qed.

(** The coordinator's operations keep it well formed, so that every state
    the package can reach from the zero value is. *)
Lemma wf_group_empty : wf_group emptyGroup.
Proof.
  split; [|split]; simpl.
  - intros k id H. by rewrite lookup_empty in H.
  - intros id c H. by rewrite lookup_empty in H.
  - intros ch [r H]. by rewrite lookup_empty in H.
Qed.

Lemma wf_group_DoChan key fn g : wf_group g -> wf_group (DoChan key fn g).2.
Proof.
  intros (Hm & Hc & Hch). unfold DoChan.
  destruct (g_m g !! key) as [id|] eqn:Em; simpl.
  - split; [|split]; simpl.
    + intros k id' Hk. destruct (Hm k id' Hk) as (c & Hc' & Hkey).
      destruct (decide (id = id')) as [->|Hne].
      * exists (join (g_nextch g) c). by rewrite lookup_alter_eq, Hc'.
      * exists c. by rewrite lookup_alter_ne.
    + intros id' c [(-> & c0 & Hc0 & ->)|(Hne & Hc0)]%lookup_alter_Some.
      * destruct (Hc _ _ Hc0) as [Hlt Hchs]. split; [done|]. simpl.
        intros ch [Hin| ->%list_elem_of_singleton]%elem_of_app; [|lia].
        specialize (Hchs ch Hin). lia.
      * destruct (Hc _ _ Hc0) as [Hlt Hchs]. split; [done|].
        intros ch Hin. specialize (Hchs ch Hin). lia.
    + intros ch Hs. specialize (Hch ch Hs). lia.
  - split; [|split]; simpl.
    + intros k id' [[<- <-]|[Hne Hk]]%lookup_insert_Some.
      * eexists. by rewrite lookup_insert_eq.
      * destruct (Hm k id' Hk) as (c & Hc' & Hkey). exists c. split; [|done].
        rewrite lookup_insert_ne; [done|]. destruct (Hc _ _ Hc'). lia.
    + intros id' c [[<- <-]|[Hne Hc0]]%lookup_insert_Some.
      * split; [lia|]. simpl. intros ch ->%list_elem_of_singleton. lia.
      * destruct (Hc _ _ Hc0) as [Hlt Hchs]. split; [lia|].
        intros ch Hin. specialize (Hchs ch Hin). lia.
    + intros ch Hs. specialize (Hch ch Hs). lia.
Qed.

Lemma wf_group_Forget key g : wf_group g -> wf_group (Forget key g).
Proof.
  intros (Hm & Hc & Hch). split; [|split]; simpl; [|done|done].
  intros k id [_ Hk]%lookup_delete_Some. by apply Hm.
Qed.

Lemma wf_group_doCall id out g : wf_group g -> wf_group (doCall id out g).
Proof.
  intros (Hm & Hc & Hch). unfold doCall.
  destruct (g_calls g !! id) as [c|] eqn:Ec; [|done].
  destruct (Hc _ _ Ec) as [_ Hchs].
  split; [|split]; simpl.
  - intros k id' Hk.
    assert (Hk' : g_m g !! k = Some id' /\ id' <> id).
    { case_decide as Hd.
      - apply lookup_delete_Some in Hk as [Hne Hk]. split; [done|].
        intros ->. destruct (Hm _ _ Hk) as (c' & Hc' & Hkey). congruence.
      - split; [done|]. intros ->.
        destruct (Hm _ _ Hk) as (c' & Hc' & Hkey). congruence. }
    destruct Hk' as [Hk' Hne]. destruct (Hm _ _ Hk') as (c' & Hc' & Hkey).
    exists c'. by rewrite lookup_delete_ne.
  - intros id' c' [_ Hc']%lookup_delete_Some. by apply Hc.
  - intros ch Hs. destruct (decide (ch ∈ c_chans c)) as [Hin|Hnin]; [by apply Hchs|].
    rewrite deliver_lookup_ne in Hs by done. by apply Hch.
Qed.

Lemma wf_group_receive ch g : wf_group g -> wf_group (receive ch g).
Proof.
  intros (Hm & Hc & Hch). split; [|split]; simpl; [done|done|].
  intros ch' [r [_ Hr]%lookup_delete_Some]. apply Hch. eauto.
Qed.

Lemma sys_step_wf ctxs key l s s' :
  wf_group (w_group (sys_world s)) ->
  sys_step ctxs key l s = Some s' ->
  wf_group (w_group (sys_world s')).
Proof.
  intros Hwf Hstep. destruct l as [i|i err|id out]; simpl in Hstep.
  - destruct (sys_callers s !! i) as [c|]; [|done].
    destruct (caller_step (ctxs i) key c (sys_world s)) as [[c' w']|] eqn:Ec; [|done].
    injection Hstep as <-. cbn [sys_world].
    destruct c; simpl in Ec; try (by injection Ec as <- <-); try done.
    + destruct (lookupFunc (w_r (sys_world s)) (ctxs i) key) as [fn|msg];
        [|by injection Ec as <- <-].
      pose proof (wf_group_DoChan key fn _ Hwf) as Hwf'.
      destruct (DoChan key fn (w_group (sys_world s))) as [ch g].
      by injection Ec as <- <-.
    + destruct (g_chan (w_group (sys_world s)) !! ch); [|done].
      injection Ec as <- <-. by apply wf_group_receive.
  - destruct (sys_callers s !! i) as [c|]; [|done].
    destruct (caller_cancel key err c (sys_world s)) as [[c' w']|] eqn:Ec; [|done].
    injection Hstep as <-. cbn [sys_world].
    destruct c; try done. simpl in Ec. injection Ec as <- <-. cbn [w_group].
    case_decide; [by apply wf_group_Forget | done].
  - destruct (g_calls (w_group (sys_world s)) !! id); [|done].
    injection Hstep as <-. by apply wf_group_doCall.
Qed.

Lemma run_wf ctxs key sched s s' :
  wf_group (w_group (sys_world s)) ->
  run ctxs key sched s = Some s' ->
  wf_group (w_group (sys_world s')).
Proof.
  revert s. induction sched as [|l sched IH]; intros s Hwf Hrun; simpl in Hrun.
  - by simplify_eq.
  - destruct (sys_step ctxs key l s) as [s1|] eqn:Hstep; [|done].
    eapply IH; [|done]. by eapply sys_step_wf.
Qed.

(** The end of another call leaves the registration of the key alone. *)
Lemma doCall_m id out g key :
  g_m g !! key <> Some id ->
  g_m (doCall id out g) !! key = g_m g !! key.
Proof.
  intros Hne. unfold doCall. destruct (g_calls g !! id) as [c|]; [|done].
  simpl. case_decide as Hd; [|done].
  apply lookup_delete_ne. intros Heq. apply Hne. by rewrite <- Heq.
Qed.

Lemma others_apart_fresh tid g0 g id c ch :
  others_apart tid g0 g ->
  id <> tid -> g_calls g !! id = Some c ->
  (g_nextch g0 <= ch)%nat -> ch ∉ c_chans c.
Proof. intros Ho Hne Hc Hle Hin. specialize (Ho id c ch Hne Hc Hin). lia. Qed.

Lemma own_channels_insert cs i c :
  own_channels cs ->
  (forall ch, c = CWait ch -> forall j, cs !! j <> Some (CWait ch)) ->
  own_channels (<[i := c]> cs).
Proof.
  intros Hown Hnew j1 j2 ch
    [(-> & Heq1 & _)|(Hne1 & Hj1)]%list_lookup_insert_Some
    [(-> & Heq2 & _)|(Hne2 & Hj2)]%list_lookup_insert_Some; [done| | |eauto].
  - exfalso. by apply (Hnew ch Heq1 j2).
  - exfalso. by apply (Hnew ch Heq2 j1).
Qed.

Lemma arriving_start X key n w0 :
  wf_group (w_group w0) ->
  arriving X key w0 (start n w0).
Proof.
  intros (Hm & Hc & Hch). unfold arriving, start. simpl.
  split; [done|]. split.
  { intros ch Hle. destruct (g_chan (w_group w0) !! ch) eqn:E; [|done].
    assert (ch < g_nextch (w_group w0))%nat by (apply Hch; eauto). lia. }
  split.
  { intros id c ch _ Hid Hin. by apply (Hc id c Hid). }
  split.
  { intros i c [-> _]%lookup_replicate. by left. }
  split.
  { intros i j ch [? _]%lookup_replicate. done. }
  split; [done|].
  unfold target, spawned_since.
  destruct (g_m (w_group w0) !! key) as [id|] eqn:Em; simpl.
  - split; [done|]. destruct (Hm _ _ Em) as (c & Hc' & Hkey).
    exists c. do 3 (split; [done|]).
    intros i ch [? _]%lookup_replicate. done.
  - split; [done|]. split.
    { destruct (g_calls (w_group w0) !! g_next (w_group w0)) as [c|] eqn:E; [|done].
      destruct (Hc _ _ E). lia. }
    do 2 (split; [done|]).
    intros i c [-> _]%lookup_replicate. by left.
Qed.

Lemma arriving_caller_step X ctxs key w0 i s s' :
  valid_key key = true ->
  r_cache (w_r w0) !! key = None ->
  arriving X key w0 s ->
  sys_step ctxs key (LCaller i) s = Some s' ->
  arriving X key w0 s'.
Proof.
  intros Hk Hmiss (Hr & Hsent & Hoth & Hcs & Hown & Hle & Hg) Hstep.
  unfold sys_step in Hstep.
  destruct (sys_callers s !! i) as [c|] eqn:Ei; [|done].
  destruct (caller_step (ctxs i) key c (sys_world s)) as [[c' w']|] eqn:Ec; [|done].
  injection Hstep as <-.
  set (tid := target key (w_group w0)) in *.
  destruct (Hcs i c Ei) as [->|[->|[(ch & -> & Hlt)|(_ & e & ->)]]].
  - (* the read of [lookup] misses *)
    simpl in Ec. unfold load_read in Ec. rewrite Hr, Hmiss in Ec.
    simpl in Ec. injection Ec as <- <-.
    unfold arriving. cbn [sys_world sys_callers]. fold tid.
    do 3 (split; [done|]). split; [|split; [|split; [done|]]].
    + intros j c [(-> & <- & _)|(Hne & Hj)]%list_lookup_insert_Some; eauto.
    + apply own_channels_insert; [done|]. intros ch Heq. done.
    + destruct (g_m (w_group (sys_world s)) !! key) as [id|].
      * destruct Hg as (-> & c & Hcalls & Hck & Hsp & Hin). split; [done|].
        exists c. do 3 (split; [done|]).
        intros j ch [(_ & ? & _)|(Hne & Hj)]%list_lookup_insert_Some; [done|]. eauto.
      * destruct Hg as (Hm0 & Hcalls & Hnext & Hsp & Hno). do 4 (split; [done|]).
        intros j c [(_ & <- & _)|(Hne & Hj)]%list_lookup_insert_Some; eauto.
  - (* the registration *)
    simpl in Ec.
    destruct (proj1 (lookupFunc_valid (w_r (sys_world s)) (ctxs i) key) Hk) as [fn Hfn].
    rewrite Hfn in Ec.
    set (g := w_group (sys_world s)) in *.
    assert (Hcs' : forall j c2,
              <[i:=CWait (g_nextch g)]> (sys_callers s) !! j = Some c2 ->
              c2 = CStart \/ c2 = CUpdate \/
              (exists ch, c2 = CWait ch /\
                 (g_nextch (w_group w0) <= ch < S (g_nextch g))%nat) \/
              is_cancelled X j c2).
    { intros j c2 [(-> & <- & _)|(Hne & Hj)]%list_lookup_insert_Some.
      { right; right; left. eexists. split; [done|]. lia. }
      destruct (Hcs j c2 Hj) as [->|[->|[(ch & -> & Hlt)|Hx]]]; eauto.
      right; right; left. eexists. split; [done|]. lia. }
    assert (Hown' : own_channels (<[i:=CWait (g_nextch g)]> (sys_callers s))).
    { apply own_channels_insert; [done|]. intros ch [= <-] j Hj.
      destruct (Hcs j _ Hj) as [?|[?|[(ch & ? & Hlt)|(_ & e & ?)]]]; simplify_eq. lia. }
    unfold DoChan in Ec. fold g in Ec.
    destruct (g_m g !! key) as [id|] eqn:Em; injection Ec as <- <-.
    + destruct Hg as (-> & c & Hcalls & Hck & Hsp & Hin).
      unfold arriving. cbn [sys_world sys_callers w_r w_group g_m g_calls g_chan
                             g_nextch g_next g_spawned]. fold tid.
      split; [done|]. split; [done|]. split.
      { intros id c' ch Hne Hc'. cbn [g_calls] in Hc'.
        rewrite lookup_alter_ne in Hc' by done.
        by apply (Hoth id c' ch). }
      split; [exact Hcs'|]. split; [exact Hown'|]. split; [lia|].
      rewrite Em. split; [done|]. exists (join (g_nextch g) c).
      split; [by rewrite lookup_alter_eq, Hcalls|]. split; [done|].
      split; [done|]. simpl.
      intros j ch [(-> & Heq & _)|(Hne & Hj)]%list_lookup_insert_Some.
      { injection Heq as <-. apply elem_of_app. right. by left. }
      apply elem_of_app. left. eauto.
    + destruct Hg as (Hm0 & Hcalls & Hnext & Hsp & Hno).
      unfold arriving. cbn [sys_world sys_callers w_r w_group g_m g_calls g_chan
                             g_nextch g_next g_spawned]. fold tid.
      split; [done|]. split; [done|]. split.
      { intros id c' ch Hne Hc'. cbn [g_calls] in Hc'.
        rewrite lookup_insert_ne in Hc' by congruence.
        by apply (Hoth id c' ch). }
      split; [exact Hcs'|]. split; [exact Hown'|]. split; [lia|].
      rewrite lookup_insert_eq. split; [done|]. eexists.
      split; [by rewrite Hnext, lookup_insert_eq|]. split; [done|]. split.
      { unfold spawned_since. rewrite Hm0. cbn [g_spawned]. rewrite Hsp. eauto. }
      cbn [c_chans].
      intros j ch [(-> & Heq & _)|(Hne & Hj)]%list_lookup_insert_Some.
      { injection Heq as <-. by left. }
      destruct (Hno j _ Hj); done.
  - (* nothing has been sent: a waiting caller is blocked *)
    simpl in Ec. rewrite Hsent in Ec by lia. done.
  - done.
Qed.

Lemma arriving_cancel_step X ctxs key w0 i err s s' :
  err <> DeadlineExceeded ->
  X i ->
  arriving X key w0 s ->
  sys_step ctxs key (LCancel i err) s = Some s' ->
  arriving X key w0 s'.
Proof.
  intros Herr HX (Hr & Hsent & Hoth & Hcs & Hown & Hle & Hg) Hstep.
  unfold sys_step in Hstep.
  destruct (sys_callers s !! i) as [c|] eqn:Ei; [|done].
  destruct (caller_cancel key err c (sys_world s)) as [[c' w']|] eqn:Ec; [|done].
  injection Hstep as <-. destruct c; try done. simpl in Ec.
  rewrite decide_False in Ec by done. injection Ec as <- <-.
  unfold arriving. cbn [sys_world sys_callers w_r w_group].
  do 3 (split; [done|]). split; [|split; [|split; [done|]]].
  - intros j c [(-> & <- & _)|(Hne & Hj)]%list_lookup_insert_Some; [|eauto].
    right; right; right. split; [done|]. eauto.
  - apply own_channels_insert; [done|]. intros ch' Heq. done.
  - destruct (g_m (w_group (sys_world s)) !! key) as [id|].
    + destruct Hg as (-> & c & Hcalls & Hck & Hsp & Hin). split; [done|]. exists c.
      do 3 (split; [done|]).
      intros j ch' [(_ & ? & _)|(Hne & Hj)]%list_lookup_insert_Some; [done|]. eauto.
    + destruct Hg as (_ & _ & _ & _ & Hno). destruct (Hno i _ Ei); done.
Qed.

(** The end of another call changes nothing for the callers. *)
Lemma arriving_finish_step X ctxs key w0 id out s s' :
  id <> target key (w_group w0) ->
  arriving X key w0 s ->
  sys_step ctxs key (LFinish id out) s = Some s' ->
  arriving X key w0 s'.
Proof.
  intros Hid (Hr & Hsent & Hoth & Hcs & Hown & Hle & Hg) Hstep.
  unfold sys_step in Hstep.
  destruct (g_calls (w_group (sys_world s)) !! id) as [c0|] eqn:Ec; [|done].
  injection Hstep as <-.
  set (tid := target key (w_group w0)) in *.
  set (g := w_group (sys_world s)) in *.
  assert (Hm : g_m (doCall id out g) !! key = g_m g !! key).
  { apply doCall_m. destruct (g_m g !! key) as [id'|]; [|done].
    destruct Hg as (-> & _). congruence. }
  unfold arriving. cbn [sys_world sys_callers w_r w_group]. fold tid.
  rewrite Hm. unfold doCall. rewrite Ec.
  cbn [g_m g_calls g_chan g_nextch g_next g_spawned].
  split; [done|]. split.
  { intros ch Hch. cbn [g_chan]. rewrite deliver_lookup_ne; [by apply Hsent|].
    by eapply others_apart_fresh. }
  split.
  { intros id' c' ch Hne Hc'. cbn [g_calls] in Hc'.
    apply lookup_delete_Some in Hc' as [_ Hc']. by apply (Hoth id' c' ch). }
  do 3 (split; [done|]).
  destruct (g_m g !! key) as [id'|].
  - destruct Hg as (-> & c & Hcalls & Hck & Hsp & Hin). split; [done|]. exists c.
    split; [by rewrite lookup_delete_ne|]. done.
  - destruct Hg as (Hm0 & Hcalls & Hnext & Hsp & Hno). split; [done|].
    split; [by rewrite lookup_delete_ne|]. done.
Qed.

Lemma arriving_run X ctxs key w0 sched s s' :
  valid_key key = true ->
  r_cache (w_r w0) !! key = None ->
  Forall (before_end (target key (w_group w0))) sched ->
  Forall (cancels_within X) sched ->
  arriving X key w0 s ->
  run ctxs key sched s = Some s' ->
  arriving X key w0 s'.
Proof.
  intros Hk Hmiss Hsched. revert s.
  induction Hsched as [|l sched Hl _ IH]; intros s HX Hinv Hrun; simpl in Hrun.
  - by simplify_eq.
  - destruct (sys_step ctxs key l s) as [s1|] eqn:Hstep; [|done].
    apply Forall_cons in HX as [HXl HX].
    destruct l as [i|i err|id out].
    + eapply IH; [done| |done]. by eapply arriving_caller_step.
    + eapply IH; [done| |done]. by eapply arriving_cancel_step.
    + eapply IH; [done| |done]. by eapply arriving_finish_step.
Qed.

Lemma arriving_registered X key w0 s :
  arriving X key w0 s ->
  Forall past_registration (sys_callers s) ->
  (0 < length (sys_callers s))%nat ->
  registered X key w0 s.
Proof.
  intros (Hr & Hsent & Hoth & Hcs & Hown & Hle & Hg) Hw Hlen.
  destruct (lookup_lt_is_Some_2 (sys_callers s) 0 Hlen) as [c0 H0].
  pose proof (Forall_lookup_1 _ _ _ _ Hw H0) as Hw0.
  unfold registered. do 3 (split; [done|]). split; [|split; [|done]].
  - destruct (g_m (w_group (sys_world s)) !! key) as [id|].
    + by destruct Hg as (_ & Hg).
    + destruct Hg as (_ & _ & _ & _ & Hno). destruct (Hno 0 c0 H0); by subst.
  - intros i c Hi. pose proof (Forall_lookup_1 _ _ _ _ Hw Hi) as Hwi.
    destruct (Hcs i c Hi) as [->|[->|[(ch & -> & Hlt)|Hx]]]; try done.
    + left. exists ch. split; [done|]. lia.
    + by right.
Qed.

Lemma registered_cancel_step X ctxs key w0 i err s s' :
  X i ->
  registered X key w0 s ->
  sys_step ctxs key (LCancel i err) s = Some s' ->
  registered X key w0 s'.
Proof.
  intros HX (Hr & Hsent & Hoth & Hcall & Hcs & Hown) Hstep.
  unfold sys_step in Hstep.
  destruct (sys_callers s !! i) as [c|] eqn:Ei; [|done].
  destruct (caller_cancel key err c (sys_world s)) as [[c' w']|] eqn:Ec; [|done].
  injection Hstep as <-. destruct c; try done. simpl in Ec.
  injection Ec as <- <-.
  destruct Hcall as (c0 & Hcalls & Hck & Hsp & Hin).
  assert (Hcs' : forall j c,
            <[i:=CDone [] (Some err)]> (sys_callers s) !! j = Some c ->
            (exists ch, c = CWait ch /\ (g_nextch (w_group w0) <= ch)%nat) \/
            is_cancelled X j c).
  { intros j c [(-> & <- & _)|(Hne & Hj)]%list_lookup_insert_Some; [|eauto].
    right. split; [done|]. eauto. }
  assert (Hown' : own_channels (<[i:=CDone [] (Some err)]> (sys_callers s))).
  { apply own_channels_insert; [done|]. intros ch' Heq. done. }
  assert (Hin' : forall j ch',
            <[i:=CDone [] (Some err)]> (sys_callers s) !! j = Some (CWait ch') ->
            ch' ∈ c_chans c0).
  { intros j ch' [(_ & ? & _)|(Hne & Hj)]%list_lookup_insert_Some; [done|]. eauto. }
  unfold registered. cbn [sys_world sys_callers w_r w_group].
  case_decide; (split; [done|]); (split; [done|]); (split; [done|]);
    (split; [|split; [done|done]]); exists c0; done.
Qed.

(** Until the call ends no caller can move: those that wait are blocked,
    those that were cancelled have returned. *)
Lemma registered_blocked X ctxs key w0 i s :
  registered X key w0 s ->
  sys_step ctxs key (LCaller i) s = None.
Proof.
  intros (Hr & Hsent & _ & _ & Hcs & _). unfold sys_step.
  destruct (sys_callers s !! i) as [c|] eqn:Ei; [|done].
  destruct (Hcs i c Ei) as [(ch & -> & Hle)|(_ & e & ->)]; [|done].
  simpl. by rewrite Hsent.
Qed.

(** The end of another call changes nothing for the callers. *)
Lemma registered_finish_other X ctxs key w0 id out s s' :
  id <> target key (w_group w0) ->
  registered X key w0 s ->
  sys_step ctxs key (LFinish id out) s = Some s' ->
  registered X key w0 s'.
Proof.
  intros Hid (Hr & Hsent & Hoth & Hcall & Hcs & Hown) Hstep.
  unfold sys_step in Hstep.
  destruct (g_calls (w_group (sys_world s)) !! id) as [c0|] eqn:Ec; [|done].
  injection Hstep as <-.
  set (tid := target key (w_group w0)) in *.
  set (g := w_group (sys_world s)) in *.
  unfold registered. cbn [sys_world sys_callers w_r w_group]. fold tid.
  unfold doCall. rewrite Ec.
  split; [done|]. split.
  { intros ch Hch. cbn [g_chan]. rewrite deliver_lookup_ne; [by apply Hsent|].
    by eapply others_apart_fresh. }
  split.
  { intros id' c' ch Hne Hc'. cbn [g_calls] in Hc'.
    apply lookup_delete_Some in Hc' as [_ Hc']. by apply (Hoth id' c' ch). }
  split; [|done].
  destruct Hcall as (c & Hcalls & Hck & Hsp & Hin). exists c.
  cbn [g_calls]. split; [by rewrite lookup_delete_ne|]. done.
Qed.

(** The end of the call, every caller registered on it: each caller that
    waits is sent the result. *)
Lemma registered_finish X ctxs key w0 out s s' :
  r_cache (w_r w0) !! key = None ->
  registered X key w0 s ->
  sys_step ctxs key (LFinish (target key (w_group w0)) out) s = Some s' ->
  exists sh,
    delivered X key w0 {| Val := fst out; Err := snd out; Shared := sh |} s'.
Proof.
  intros Hmiss (Hr & Hsent & Hoth & Hcall & Hcs & Hown) Hstep.
  set (tid := target key (w_group w0)) in *.
  unfold sys_step in Hstep.
  destruct Hcall as (c & Hcalls & Hck & Hsp & Hin).
  rewrite Hcalls in Hstep. injection Hstep as <-.
  exists (0 <? c_dups c)%nat.
  unfold delivered. cbn [sys_world sys_callers w_r w_group]. fold tid.
  unfold doCall. rewrite Hcalls. cbn [g_calls g_chan].
  rewrite Hr. split; [by left|]. split; [done|].
  split; [apply lookup_delete_eq|]. split.
  { intros id' c' ch Hne Hc'. cbn [g_calls] in Hc'.
    apply lookup_delete_Some in Hc' as [_ Hc']. by apply (Hoth id' c' ch). }
  split; [done|]. split; [|split; [|done]].
  - intros i c' Hi.
    destruct (Hcs i c' Hi) as [(ch & -> & Hle)|Hx]; [|by right].
    left. simpl. apply deliver_lookup. eauto.
  - intros i ch Hi. destruct (Hcs i _ Hi) as [(ch' & [= <-] & Hle)|(_ & e & ?)]; done.
Qed.

Lemma delivered_step X ctxs key w0 res l s s' :
  delivered X key w0 res s ->
  cancels_within X l ->
  sys_step ctxs key l s = Some s' ->
  delivered X key w0 res s'.
Proof.
  intros (Hc & Hframe & Hcalls & Hoth & Hsp & Hcs & Hfresh & Hown) Hl Hstep.
  set (tid := target key (w_group w0)) in *.
  destruct l as [i|i err|id out].
  3:{ (* the end of another call *)
    unfold sys_step in Hstep.
    destruct (g_calls (w_group (sys_world s)) !! id) as [c0|] eqn:Ec; [|done].
    injection Hstep as <-.
    assert (Hid : id <> tid) by (intros ->; congruence).
    unfold delivered. cbn [sys_world sys_callers w_r w_group]. fold tid.
    unfold doCall. rewrite Ec. cbn [g_calls g_chan].
    do 2 (split; [done|]). split; [by rewrite lookup_delete_ne|]. split.
    { intros id' c' ch Hne Hc'. cbn [g_calls] in Hc'.
      apply lookup_delete_Some in Hc' as [_ Hc']. by apply (Hoth id' c' ch). }
    split; [done|]. split; [|done].
    intros j c Hj. destruct (Hcs j c Hj) as [Hs|Hx]; [|by right]. left.
    destruct c; simpl in *; try done.
    rewrite deliver_lookup_ne; [done|].
    eapply others_apart_fresh; [done|done|done|]. by eapply Hfresh. }
  2:{ (* a cancellation *)
    unfold sys_step in Hstep.
    destruct (sys_callers s !! i) as [c|] eqn:Ei; [|done].
    destruct (caller_cancel key err c (sys_world s)) as [[c' w']|] eqn:Ec; [|done].
    injection Hstep as <-. destruct c; try done. simpl in Ec.
    injection Ec as <- <-.
    assert (Hcs' : forall j c,
              <[i:=CDone [] (Some err)]> (sys_callers s) !! j = Some c ->
              settled res (w_group (sys_world s)) c \/ is_cancelled X j c).
    { intros j c [(-> & <- & _)|(Hne & Hj)]%list_lookup_insert_Some; [|eauto].
      right. split; [done|]. eauto. }
    assert (Hfresh' : forall j ch',
              <[i:=CDone [] (Some err)]> (sys_callers s) !! j = Some (CWait ch') ->
              (g_nextch (w_group w0) <= ch')%nat).
    { intros j ch' [(_ & ? & _)|(Hne & Hj)]%list_lookup_insert_Some; [done|]. eauto. }
    assert (Hown' : own_channels (<[i:=CDone [] (Some err)]> (sys_callers s))).
    { apply own_channels_insert; [done|]. intros ch' Heq. done. }
    unfold delivered. cbn [sys_world sys_callers w_r w_group]. fold tid.
    case_decide; do 5 (split; [done|]); (split; [|done]);
      intros j c Hj; (destruct (Hcs' j c Hj) as [Hs|Hx]; [|by right]); left;
      by destruct c. }
  unfold sys_step in Hstep.
  destruct (sys_callers s !! i) as [c|] eqn:Ei; [|done].
  destruct (caller_step (ctxs i) key c (sys_world s)) as [[c' w']|] eqn:Ec; [|done].
  injection Hstep as <-.
  destruct (Hcs i c Ei) as [Hok|(_ & e & ->)]; [|done].
  assert (Hload : forall miss,
            settled res (w_group (sys_world s)) miss ->
            settled res (w_group (sys_world s))
              (after_load (load_read key (w_r (sys_world s))) miss)).
  { intros miss Hmiss. unfold load_read.
    destruct Hc as [->|[He ->]]; simpl; [done|]. by rewrite He. }
  assert (Hkeep : forall c1 w1,
            w_group w1 = w_group (sys_world s) ->
            (r_cache (w_r w1) = r_cache (w_r (sys_world s)) \/
             (Err res = None /\
              r_cache (w_r w1) =
                <[key := {| rrs := Val res; used := true |}]>
                  (r_cache (w_r (sys_world s))))) ->
            settled res (w_group (sys_world s)) c1 ->
            ~ waiting c1 ->
            delivered X key w0 res
              {| sys_world := w1; sys_callers := <[i := c1]> (sys_callers s) |}).
  { intros c1 w1 Hg1 Hc1 Hok1 Hnw. unfold delivered.
    cbn [sys_world sys_callers]. fold tid. rewrite Hg1.
    split; [|split; [|split; [done|split; [done|split; [done|split; [|split]]]]]].
    - destruct Hc1 as [->|[He ->]]; [done|]. right. by rewrite lookup_insert_eq.
    - intros k Hne. destruct Hc1 as [->|[He ->]]; [by apply Hframe|].
      rewrite lookup_insert_ne by done. by apply Hframe.
    - intros j c2 [(-> & <- & _)|(Hne & Hj)]%list_lookup_insert_Some; eauto.
    - intros j ch [(-> & Heq & _)|(Hne & Hj)]%list_lookup_insert_Some; [|eauto].
      exfalso. apply Hnw. rewrite Heq. exact I.
    - apply own_channels_insert; [done|]. intros ch Heq. exfalso.
      apply Hnw. rewrite Heq. exact I. }
  assert (Hnw : forall miss, ~ waiting miss ->
            ~ waiting (after_load (load_read key (w_r (sys_world s))) miss)).
  { intros miss Hm. unfold after_load.
    destruct (load_read key (w_r (sys_world s))) as [e|]; [|done].
    destruct (used e); simpl; auto. }
  destruct c as [| |ch|r|r|r|e|rs err|msg]; simpl in Hok; try done.
  - (* the receive *)
    simpl in Ec. rewrite Hok in Ec. injection Ec as <- <-.
    assert (Hnw' : ~ waiting (on_result res)).
    { unfold on_result, after_shared.
      destruct (Shared res); [simpl; auto|]. destruct (Err res); simpl; auto. }
    unfold delivered. cbn [sys_world sys_callers w_r w_group]. fold tid.
    do 5 (split; [done|]). split; [|split].
    + intros j c2 [(-> & <- & _)|(Hne & Hj)]%list_lookup_insert_Some.
      * left. unfold on_result, after_shared.
        destruct (Shared res); [done|]. destruct (Err res) eqn:He; simpl; eauto.
      * destruct (Hcs j c2 Hj) as [Hok2|Hx]; [|by right]. left.
        destruct c2; simpl in *; try done.
        rewrite lookup_delete_ne; [done|].
        intros ->. apply Hne. by eapply Hown.
    + intros j ch' [(-> & Heq & _)|(Hne & Hj)]%list_lookup_insert_Some; [|eauto].
      exfalso. apply Hnw'. rewrite Heq. exact I.
    + apply own_channels_insert; [done|]. intros ch' Heq. exfalso.
      apply Hnw'. rewrite Heq. exact I.
  - (* the re-check of a shared result *)
    subst r. simpl in Ec. injection Ec as <- <-. apply Hkeep; [done | by left | |].
    + apply Hload. unfold after_shared. destruct (Err res) eqn:He; simpl; eauto.
    + apply Hnw. unfold after_shared. destruct (Err res); simpl; auto.
  - (* the fallback of an errored result *)
    simpl in Ec. destruct Hok as [-> He]. injection Ec as <- <-.
    apply Hkeep; [done | by left | |].
    + apply Hload. simpl. unfold outcome_of. simpl. by destruct He as [e ->].
    + apply Hnw. simpl. auto.
  - (* the store *)
    simpl in Ec. destruct Hok as [-> He]. injection Ec as <- <-.
    apply Hkeep; [done | | |].
    + right. split; [done|]. simpl. apply storeLocked_cache.
    + simpl. unfold outcome_of. simpl. by rewrite He.
    + simpl. auto.
Qed.

Lemma delivered_run X ctxs key w0 res sched s s' :
  Forall (cancels_within X) sched ->
  delivered X key w0 res s ->
  run ctxs key sched s = Some s' ->
  delivered X key w0 res s'.
Proof.
  intros Hsched. revert s.
  induction Hsched as [|l sched Hl _ IH]; intros s Hinv Hrun; simpl in Hrun.
  - by simplify_eq.
  - destruct (sys_step ctxs key l s) as [s1|] eqn:Hstep; [|done].
    eapply IH; [|done]. by eapply delivered_step.
Qed.

(** A call ends once. *)
Lemma delivered_no_finish X ctxs key w0 res sched s s' out :
  Forall (cancels_within X) sched ->
  delivered X key w0 res s ->
  run ctxs key sched s = Some s' ->
  LFinish (target key (w_group w0)) out ∉ sched.
Proof.
  intros Hsched. revert s.
  induction Hsched as [|l sched Hl _ IH]; intros s Hinv Hrun.
  - apply not_elem_of_nil.
  - cbn [run] in Hrun.
    destruct (sys_step ctxs key l s) as [s1|] eqn:Hstep; [|done].
    apply not_elem_of_cons. split.
    + intros <-. destruct Hinv as (_ & _ & Hcalls & _).
      simpl in Hstep. by rewrite Hcalls in Hstep.
    + eapply IH; [|done]. by eapply delivered_step.
Qed.

(** From the moment every caller has registered: either the call is still in
    flight, or it has ended, once, and its result is delivered. *)
Lemma registered_run X ctxs key w0 sched s s' :
  r_cache (w_r w0) !! key = None ->
  Forall (cancels_within X) sched ->
  registered X key w0 s ->
  run ctxs key sched s = Some s' ->
  (registered X key w0 s' /\
   forall out, LFinish (target key (w_group w0)) out ∉ sched) \/
  (exists out sh,
     LFinish (target key (w_group w0)) out ∈ sched /\
     (forall out', LFinish (target key (w_group w0)) out' ∈ sched -> out' = out) /\
     delivered X key w0 {| Val := fst out; Err := snd out; Shared := sh |} s').
Proof.
  intros Hmiss Hsched. revert s.
  induction Hsched as [|l sched Hl Hsched IH]; intros s Hinv Hrun.
  - simpl in Hrun. simplify_eq. left. split; [done|]. intros out. apply not_elem_of_nil.
  - cbn [run] in Hrun.
    destruct (sys_step ctxs key l s) as [s1|] eqn:Hstep; [|done].
    assert (Hother : registered X key w0 s1 ->
              (forall out, LFinish (target key (w_group w0)) out <> l) ->
              (registered X key w0 s' /\
               forall out, LFinish (target key (w_group w0)) out ∉ l :: sched) \/
              (exists out sh,
                 LFinish (target key (w_group w0)) out ∈ l :: sched /\
                 (forall out', LFinish (target key (w_group w0)) out' ∈ l :: sched ->
                               out' = out) /\
                 delivered X key w0
                   {| Val := fst out; Err := snd out; Shared := sh |} s')).
    { intros Hinv1 Hne.
      destruct (IH s1 Hinv1 Hrun) as [[Hreg Hnf]|(out & sh & Hin & Huniq & Hd)].
      - left. split; [done|]. intros out. apply not_elem_of_cons. split; [apply Hne | apply Hnf].
      - right. exists out, sh. split; [by right|]. split; [|done].
        intros out' [Heq|?]%elem_of_cons; [by destruct (Hne out') | eauto]. }
    destruct l as [i|i err|id out].
    + by rewrite (registered_blocked X ctxs key w0 i s Hinv) in Hstep.
    + apply Hother; [by eapply registered_cancel_step | done].
    + destruct (decide (id = target key (w_group w0))) as [->|Hne].
      * destruct (registered_finish X ctxs key w0 out s s1 Hmiss Hinv Hstep)
          as (sh & Hd).
        right. exists out, sh. split; [by left|]. split.
        -- intros out' [Heq|Hin]%elem_of_cons; [by simplify_eq|].
           exfalso. by eapply (delivered_no_finish X ctxs key w0 _ sched s1 s' out').
        -- by eapply delivered_run.
      * apply Hother; [by eapply registered_finish_other|].
        intros out' Heq. by simplify_eq.
Qed.

Lemma sys_step_length ctxs key l s s' :
  sys_step ctxs key l s = Some s' ->
  length (sys_callers s') = length (sys_callers s).
Proof.
  destruct l as [i|i err|id out]; simpl.
  - destruct (sys_callers s !! i) as [c|]; [|done].
    destruct (caller_step (ctxs i) key c (sys_world s)) as [[c' w']|]; [|done].
    intros ?; simplify_eq. simpl. apply length_insert.
  - destruct (sys_callers s !! i) as [c|]; [|done].
    destruct (caller_cancel key err c (sys_world s)) as [[c' w']|]; [|done].
    intros ?; simplify_eq. simpl. apply length_insert.
  - destruct (g_calls (w_group (sys_world s)) !! id); [|done].
    by intros ?; simplify_eq.
Qed.

Lemma run_length ctxs key sched s s' :
  run ctxs key sched s = Some s' ->
  length (sys_callers s') = length (sys_callers s).
Proof.
  revert s. induction sched as [|l sched IH]; intros s Hrun; simpl in Hrun.
  - by simplify_eq.
  - destruct (sys_step ctxs key l s) as [s1|] eqn:Hstep; [|done].
    rewrite (IH _ Hrun). by eapply sys_step_length.
Qed.

(** Once the result is delivered no caller is blocked: one that has not
    returned can take a step, which brings it closer to its return and
    leaves the other callers where they are. *)
Lemma delivered_progress X ctxs key w0 res s i c :
  delivered X key w0 res s ->
  sys_callers s !! i = Some c ->
  ~ returned c ->
  exists s' c',
    sys_step ctxs key (LCaller i) s = Some s' /\
    sys_callers s' !! i = Some c' /\
    (rank c' < rank c)%nat /\
    forall j, j <> i -> sys_callers s' !! j = sys_callers s !! j.
Proof.
  intros (Hc & Hframe & Hcalls & Hoth & Hsp & Hcs & Hfresh & Hown) Hi Hnr.
  destruct (Hcs i c Hi) as [Hok|(_ & e & ->)]; [|by exfalso; apply Hnr].
  assert (Hlt : (i < length (sys_callers s))%nat) by (by eapply lookup_lt_Some).
  assert (Hgo : forall c' w',
            caller_step (ctxs i) key c (sys_world s) = Some (c', w') ->
            (rank c' < rank c)%nat ->
            exists s' c'',
              sys_step ctxs key (LCaller i) s = Some s' /\
              sys_callers s' !! i = Some c'' /\
              (rank c'' < rank c)%nat /\
              forall j, j <> i -> sys_callers s' !! j = sys_callers s !! j).
  { intros c' w' Hstep Hrank. eexists _, c'. unfold sys_step.
    rewrite Hi, Hstep. split; [done|]. simpl.
    split; [by apply list_lookup_insert_eq|]. split; [done|].
    intros j Hne. by apply list_lookup_insert_ne. }
  assert (Hrl : forall miss, (rank miss < 3)%nat ->
            (rank (after_load (load_read key (w_r (sys_world s))) miss) < 3)%nat).
  { intros miss Hm. unfold after_load.
    destruct (load_read key (w_r (sys_world s))) as [e|]; [|done].
    destruct (used e); simpl; lia. }
  destruct c as [| |ch|r|r|r|e|rs err|msg]; simpl in Hok; try done.
  - eapply Hgo; [simpl; by rewrite Hok|].
    unfold on_result, after_shared.
    destruct (Shared res); [simpl; lia|]. destruct (Err res); simpl; lia.
  - eapply Hgo; [done|]. simpl. apply Hrl.
    unfold after_shared. destruct (Err r); simpl; lia.
  - eapply Hgo; [done|]. unfold after_load, load_read.
    destruct Hok as [-> He].
    destruct Hc as [->|[He' _]]; [simpl; lia|].
    rewrite He' in He. by destruct He.
  - eapply Hgo; [done|]. simpl. lia.
Qed.

Lemma delivered_caller_completes X ctxs key w0 res i n :
  forall s c,
    delivered X key w0 res s ->
    sys_callers s !! i = Some c ->
    (rank c <= n)%nat ->
    exists sched s',
      Forall is_caller sched /\
      run ctxs key sched s = Some s' /\
      delivered X key w0 res s' /\
      returned (default CStart (sys_callers s' !! i)) /\
      forall j, j <> i -> sys_callers s' !! j = sys_callers s !! j.
Proof.
  induction n as [|n IH]; intros s c Hinv Hi Hrank.
  - exists [], s. split; [constructor|]. split; [done|]. split; [done|].
    split; [|done]. rewrite Hi. simpl.
    destruct c; simpl in Hrank; try lia; [exact I|].
    destruct Hinv as (_ & _ & _ & _ & _ & Hcs & _).
    destruct (Hcs _ _ Hi) as [[]|(_ & e & ?)]; done.
  - assert (Hdec : returned c \/ ~ returned c)
      by (destruct c; simpl; auto).
    destruct Hdec as [Hr|Hnr].
    { exists [], s. split; [constructor|]. split; [done|]. split; [done|].
      split; [by rewrite Hi | done]. }
    destruct (delivered_progress X ctxs key w0 res s i c Hinv Hi Hnr)
      as (s1 & c1 & Hstep & Hi1 & Hlt & Hsame).
    assert (Hinv1 : delivered X key w0 res s1).
    { apply (delivered_step X ctxs key w0 res (LCaller i) s s1 Hinv I Hstep). }
    destruct (IH s1 c1 Hinv1 Hi1) as (sched & s' & Hsched & Hrun & Hinv' & Hret & Hsame');
      [lia|].
    exists (LCaller i :: sched), s'.
    split; [by constructor|]. split; [cbn [run]; by rewrite Hstep|].
    split; [done|]. split; [done|].
    intros j Hne. rewrite Hsame' by done. by apply Hsame.
Qed.

Lemma delivered_all_complete X ctxs key w0 res s k :
  delivered X key w0 res s ->
  (k <= length (sys_callers s))%nat ->
  exists sched s',
    Forall is_caller sched /\
    run ctxs key sched s = Some s' /\
    delivered X key w0 res s' /\
    forall j, (j < k)%nat -> returned (default CStart (sys_callers s' !! j)).
Proof.
  intros Hinv. induction k as [|k IH]; intros Hk.
  - exists [], s. split; [constructor|]. split; [done|]. split; [done|]. lia.
  - destruct IH as (sched1 & s1 & Hs1 & Hrun1 & Hinv1 & Hdone1); [lia|].
    assert (Hlen : length (sys_callers s1) = length (sys_callers s))
      by (by eapply run_length).
    destruct (lookup_lt_is_Some_2 (sys_callers s1) k) as [c Hc]; [lia|].
    destruct (delivered_caller_completes X ctxs key w0 res k (rank c) s1 c Hinv1 Hc)
      as (sched2 & s2 & Hs2 & Hrun2 & Hinv2 & Hret & Hsame); [lia|].
    exists (sched1 ++ sched2)%list, s2.
    split; [by apply Forall_app|]. split; [by rewrite run_app, Hrun1|].
    split; [done|].
    intros j Hj. destruct (decide (j = k)) as [->|Hne]; [done|].
    rewrite Hsame by done. apply Hdone1. lia.
Qed.

(** A run of callers' sections alone makes no call. *)
Lemma delivered_spawned X ctxs key w0 res sched s s' :
  Forall is_caller sched ->
  delivered X key w0 res s ->
  run ctxs key sched s = Some s' ->
  g_spawned (w_group (sys_world s')) = g_spawned (w_group (sys_world s)).
Proof.
  intros Hsched. revert s.
  induction Hsched as [|l sched Hl _ IH]; intros s Hinv Hrun.
  - simpl in Hrun. by simplify_eq.
  - cbn [run] in Hrun.
    destruct (sys_step ctxs key l s) as [s1|] eqn:Hstep; [|done].
    destruct l as [i| |]; try done.
    rewrite (IH s1); [|by eapply (delivered_step X ctxs key w0 res (LCaller i))|done].
    destruct Hinv as (_ & _ & _ & _ & _ & Hcs & _).
    unfold sys_step in Hstep.
    destruct (sys_callers s !! i) as [c|] eqn:Ei; [|done].
    destruct (caller_step (ctxs i) key c (sys_world s)) as [[c' w']|] eqn:Ec; [|done].
    injection Hstep as <-. cbn [sys_world].
    destruct (Hcs i c Ei) as [Hok|(_ & e & ->)]; [|done].
    destruct c; simpl in Hok; try done; simpl in Ec.
    + destruct (g_chan (w_group (sys_world s)) !! ch); [|done]. by injection Ec as <- <-.
    + by injection Ec as <- <-.
    + by injection Ec as <- <-.
    + by injection Ec as <- <-.
Qed.

(** The caller of the concurrent model, run alone, is [lookup]: same value,
    same error, same resolver afterwards, and a panic for a panic. *)
Lemma solo_lookup ctx key sel w :
  match lookup ctx key sel w with
  | Ok ((rs, err), w') =>
      (solo ctx key sel w).1 = CDone rs err /\
      w_r (solo ctx key sel w).2 = w_r w'
  | Panic msg => (solo ctx key sel w).1 = CPanic msg
  end.
Proof.
  rewrite lookup_run. unfold solo.
  destruct (r_cache (w_r w) !! key) as [e|] eqn:E.
  - assert (Hs : steps 2 ctx key CStart w =
                 (CDone (rrs e) None, {| w_r := (load key (w_r w)).2; w_group := w_group w |})).
    { cbn [steps caller_step]. unfold load, load_read. rewrite E. cbn [after_load].
      destruct (used e); cbn; [by destruct w|done]. }
    rewrite Hs. done.
  - assert (Hs : steps 2 ctx key CStart w =
                 match lookupFunc (w_r w) ctx key with
                 | Ok fn => (CWait (g_nextch (w_group w)),
                             {| w_r := w_r w; w_group := (DoChan key fn (w_group w)).2 |})
                 | Panic msg => (CPanic msg, w)
                 end).
    { cbn [steps caller_step]. unfold load_read. rewrite E. cbn [after_load caller_step].
      destruct (lookupFunc (w_r w) ctx key) as [fn|msg]; [|done].
      unfold DoChan. by destruct (g_m (w_group w) !! key). }
    rewrite Hs. clear Hs.
    unfold update, lookupFuncM, onGroup, getResolver, bind, ret, panic.
    destruct (lookupFunc (w_r w) ctx key) as [fn|msg] eqn:Hfn; [|done].
    assert (Hch : g_chan (DoChan key fn (w_group w)).2 = g_chan (w_group w)).
    { unfold DoChan. by destruct (g_m (w_group w) !! key). }
    destruct (DoChan key fn (w_group w)) as [ch g] eqn:Hg. simpl in Hch. cbn [snd].
    destruct sel as [err|res].
    + cbn. by case_decide.
    + set (w1 := post (g_nextch (w_group w)) res {| w_r := w_r w; w_group := g |}).
      assert (Hr1 : r_cache (w_r w1) !! key = None) by done.
      assert (Hrecv : caller_step ctx key (CWait (g_nextch (w_group w))) w1
                      = Some (on_result res, {| w_r := w_r w; w_group := receive (g_nextch (w_group w)) (w_group w1) |})).
      { cbn. by rewrite lookup_insert_eq. }
      cbn [steps]. rewrite Hrecv. clear Hrecv.
      destruct (Shared res) eqn:Hs; destruct (Err res) as [e|] eqn:He;
        unfold on_result, loadM, storeM, onResolver, ret, load;
        rewrite ?Hs;
        repeat (cbn [steps caller_step w_r after_load fst snd];
                unfold after_shared, load_read; rewrite ?E, ?He);
        done.
Qed.

(** With a key [lookupFunc] rejects no caller ever registers. *)
Lemma invalid_key_step ctxs key w0 l s s' :
  valid_key key = false ->
  r_cache (w_r w0) !! key = None ->
  w_r (sys_world s) = w_r w0 /\ Forall unregistered (sys_callers s) ->
  sys_step ctxs key l s = Some s' ->
  w_r (sys_world s') = w_r w0 /\ Forall unregistered (sys_callers s').
Proof.
  intros Hk Hmiss [Hr Hcs] Hstep. destruct l as [i|i err|id out]; simpl in Hstep.
  - destruct (sys_callers s !! i) as [c|] eqn:Ei; [|done].
    destruct (caller_step (ctxs i) key c (sys_world s)) as [[c' w']|] eqn:Ec; [|done].
    injection Hstep as <-. cbn [sys_world sys_callers].
    pose proof (Forall_lookup_1 _ _ _ _ Hcs Ei) as Hc.
    destruct c; try done; simpl in Ec.
    + unfold load_read in Ec. rewrite Hr, Hmiss in Ec. injection Ec as <- <-.
      split; [done|]. by apply Forall_insert.
    + destruct (lookupFunc (w_r (sys_world s)) (ctxs i) key) as [fn|msg] eqn:Hfn.
      * assert (valid_key key = true); [|congruence].
        apply (lookupFunc_valid (w_r (sys_world s)) (ctxs i)). eauto.
      * injection Ec as <- <-. split; [done|]. by apply Forall_insert.
  - destruct (sys_callers s !! i) as [c|] eqn:Ei; [|done].
    pose proof (Forall_lookup_1 _ _ _ _ Hcs Ei) as Hc.
    by destruct c.
  - destruct (g_calls (w_group (sys_world s)) !! id); [|done].
    by injection Hstep as <-.
Qed.

Lemma invalid_key_run ctxs key w0 sched s s' :
  valid_key key = false ->
  r_cache (w_r w0) !! key = None ->
  w_r (sys_world s) = w_r w0 /\ Forall unregistered (sys_callers s) ->
  run ctxs key sched s = Some s' ->
  Forall unregistered (sys_callers s').
Proof.
  intros Hk Hmiss. revert s.
  induction sched as [|l sched IH]; intros s Hinv Hrun; simpl in Hrun.
  - simplify_eq. apply Hinv.
  - destruct (sys_step ctxs key l s) as [s1|] eqn:Hstep; [|done].
    eapply IH; [|done]. by eapply invalid_key_step.
Qed.

Lemma delivered_returned X key w0 out sh s i rs err :
  delivered X key w0 {| Val := fst out; Err := snd out; Shared := sh |} s ->
  sys_callers s !! i = Some (CDone rs err) ->
  ~ X i ->
  (rs, err) = outcome_of out.
Proof.
  intros (_ & _ & _ & _ & _ & Hcs & _) Hi HX.
  destruct (Hcs _ _ Hi) as [Hs|[? _]]; [|done]. simpl in Hs.
  rewrite Hs. by destruct out.
Qed.

Lemma cancels_within_cancelled_in sched1 sched2 :
  Forall (cancels_within (cancelled_in (sched1 ++ sched2))) sched1 /\
  Forall (cancels_within (cancelled_in (sched1 ++ sched2))) sched2.
Proof.
  apply Forall_app, Forall_forall. intros l Hl.
  destruct l as [|i err|]; try exact I. by exists err.
Qed.

Lemma is_caller_finishes_with out sched :
  Forall is_caller sched -> Forall (finishes_with out) sched.
Proof. intros H. eapply Forall_impl; [exact H|]. by intros [| |]. Qed.

(** C6, amended: [n] callers look up one key for which the store holds no
    entry, and every one of them has registered with the coordinator before
    the call they register on ends and before the deadline of any of them
    expires (their in-flight windows overlap); until then the scheduler may
    interleave the callers' atomic sections, cancellations for another
    reason and the ends of other calls in any way, and after that in any way
    at all, whatever else the coordinator has in flight (its state is only
    required to be well formed, as every state it reaches from its zero
    value is: [wf_group_empty], [wf_group_DoChan], [wf_group_Forget],
    [wf_group_doCall], [run_wf]). Then exactly one
    call serves the callers: no work function is handed to a goroutine when
    a call for the key was in flight, which they join, and exactly one
    otherwise, so the provider is invoked once; that call ends at most once,
    and every caller that has returned without having been cancelled has
    returned the value and error of that one end, so any two of them have
    returned the same; whatever the provider returns, if it has not returned
    yet, every caller returns under some continuation of the schedule that
    cancels none. A caller that receives a shared result goes on to re-check
    the store; one about to re-check that finds an entry there returns the
    stored results in that step, the package state being exactly what it
    was. In any state whatever, [update] given a shared result and an entry
    in the store returns the entry's results and does not store the result
    received: the resolver is left as [load] leaves it, which is unchanged
    when the entry's used flag is set and has that flag set, and nothing
    else changed, when it is not; so does the caller of the interleaved
    model. A caller that is cancelled returns its context's error
    instead. *)
Theorem C6_coalescing ctxs key n w0 sched1 s1 sched2 s3 :
  r_cache (w_r w0) !! key = None ->
  wf_group (w_group w0) ->
  (0 < n)%nat ->
  Forall (before_end (target key (w_group w0))) sched1 ->
  run ctxs key sched1 (start n w0) = Some s1 ->
  Forall past_registration (sys_callers s1) ->
  run ctxs key sched2 s1 = Some s3 ->
  spawned_since key (w_group w0) (w_group (sys_world s3)) /\
  (forall i rs err,
     sys_callers s3 !! i = Some (CDone rs err) ->
     ~ cancelled_in (sched1 ++ sched2) i ->
     exists out,
       LFinish (target key (w_group w0)) out ∈ sched2 /\
       (forall out', LFinish (target key (w_group w0)) out' ∈ sched2 -> out' = out) /\
       (rs, err) = outcome_of out) /\
  (forall i j rs err rs' err',
     sys_callers s3 !! i = Some (CDone rs err) ->
     sys_callers s3 !! j = Some (CDone rs' err') ->
     ~ cancelled_in (sched1 ++ sched2) i ->
     ~ cancelled_in (sched1 ++ sched2) j ->
     (rs, err) = (rs', err')) /\
  (forall out0,
     exists sched3 s4,
       Forall (finishes_with out0) sched3 /\
       run ctxs key sched3 s3 = Some s4 /\
       length (sys_callers s4) = n /\
       (forall i, (i < n)%nat ->
          exists rs err, sys_callers s4 !! i = Some (CDone rs err)) /\
       g_spawned (w_group (sys_world s4)) = g_spawned (w_group (sys_world s3))) /\
  (forall i ch res,
     sys_callers s3 !! i = Some (CWait ch) ->
     g_chan (w_group (sys_world s3)) !! ch = Some res ->
     Shared res = true ->
     sys_step ctxs key (LCaller i) s3 =
       Some {| sys_world := {| w_r := w_r (sys_world s3);
                               w_group := receive ch (w_group (sys_world s3)) |};
               sys_callers := <[i := CRecheck res]> (sys_callers s3) |}) /\
  (forall i res entry,
     sys_callers s3 !! i = Some (CRecheck res) ->
     r_cache (w_r (sys_world s3)) !! key = Some entry ->
     sys_step ctxs key (LCaller i) s3 =
       Some {| sys_world := sys_world s3;
               sys_callers := <[i := CDone (rrs entry) None]> (sys_callers s3) |}) /\
  (forall ctx u res w entry,
     Shared res = true ->
     r_cache (w_r w) !! key = Some entry ->
     exists g,
       update ctx key u (Received res) w =
         Ok ((rrs entry, None), {| w_r := (load key (w_r w)).2; w_group := g |}) /\
       r_cache (load key (w_r w)).2 =
         <[key := {| rrs := rrs entry; used := true |}]> (r_cache (w_r w)) /\
       (used entry = true -> (load key (w_r w)).2 = w_r w)) /\
  (forall ctx res w entry,
     r_cache (w_r w) !! key = Some entry ->
     steps 2 ctx key (CRecheck res) w =
       (CDone (rrs entry) None,
        {| w_r := (load key (w_r w)).2; w_group := w_group w |})).
Proof.
  intros Hmiss Hwf Hn Hsched1 Hrun1 Hwait Hrun2.
  assert (Hk : valid_key key = true).
  { destruct (valid_key key) eqn:Hk; [done|]. exfalso.
    assert (Hun : Forall unregistered (sys_callers s1)).
    { apply (invalid_key_run ctxs key w0 sched1 (start n w0) s1 Hk Hmiss); [|done].
      split; [done|]. apply Forall_forall. intros c Hc.
      apply elem_of_replicate in Hc as [-> _]. exact I. }
    assert (Hlen : (0 < length (sys_callers s1))%nat).
    { rewrite (run_length _ _ _ _ _ Hrun1). simpl. by rewrite length_replicate. }
    destruct (lookup_lt_is_Some_2 (sys_callers s1) 0 Hlen) as [c0 H0].
    pose proof (Forall_lookup_1 _ _ _ _ Hwait H0) as Hp.
    pose proof (Forall_lookup_1 _ _ _ _ Hun H0) as Hu.
    by destruct c0. }
  set (tid := target key (w_group w0)) in *.
  assert (Hrecv : forall i ch res,
            sys_callers s3 !! i = Some (CWait ch) ->
            g_chan (w_group (sys_world s3)) !! ch = Some res ->
            Shared res = true ->
            sys_step ctxs key (LCaller i) s3 =
              Some {| sys_world := {| w_r := w_r (sys_world s3);
                                      w_group := receive ch (w_group (sys_world s3)) |};
                      sys_callers := <[i := CRecheck res]> (sys_callers s3) |}).
  { intros i ch res Hi Hch Hsh. unfold sys_step. rewrite Hi. simpl.
    rewrite Hch. unfold on_result. by rewrite Hsh. }
  assert (Hseq : forall ctx u res w entry,
            Shared res = true ->
            r_cache (w_r w) !! key = Some entry ->
            exists g,
              update ctx key u (Received res) w =
                Ok ((rrs entry, None),
                    {| w_r := (load key (w_r w)).2; w_group := g |}) /\
              r_cache (load key (w_r w)).2 =
                <[key := {| rrs := rrs entry; used := true |}]> (r_cache (w_r w)) /\
              (used entry = true -> (load key (w_r w)).2 = w_r w)).
  { intros ctx u res w entry Hsh He.
    destruct (update_received ctx key u res w Hk) as (g & Hupd).
    exists g. rewrite Hupd. unfold received. rewrite He, Hsh. simpl.
    split; [done|]. rewrite (load_hit _ _ _ He). simpl.
    destruct (used entry) eqn:Hu; [|done]. split; [|done].
    symmetry. apply insert_id. rewrite He. destruct entry; simpl in *; by subst. }
  assert (Hsolo : forall ctx res w entry,
            r_cache (w_r w) !! key = Some entry ->
            steps 2 ctx key (CRecheck res) w =
              (CDone (rrs entry) None,
               {| w_r := (load key (w_r w)).2; w_group := w_group w |})).
  { intros ctx res w entry He. rewrite (load_hit _ _ _ He).
    cbn [steps caller_step]. unfold load_read. rewrite He. cbn [after_load snd].
    destruct (used entry); cbn [steps caller_step]; [by destruct w | done]. }
  set (X := cancelled_in (sched1 ++ sched2)).
  destruct (cancels_within_cancelled_in sched1 sched2) as [HX1 HX2].
  fold X in HX1, HX2.
  assert (Hlen1 : length (sys_callers s1) = n).
  { rewrite (run_length _ _ _ _ _ Hrun1). apply length_replicate. }
  assert (Hlen3 : length (sys_callers s3) = n).
  { by rewrite (run_length _ _ _ _ _ Hrun2). }
  assert (Hinv1 : registered X key w0 s1).
  { apply arriving_registered; [|done|lia].
    apply (arriving_run X ctxs key w0 sched1 (start n w0) s1 Hk Hmiss
             Hsched1 HX1 (arriving_start X key n w0 Hwf) Hrun1). }
  assert (Hall : forall out0 X' res s,
            delivered X' key w0 res s ->
            length (sys_callers s) = n ->
            exists sched3 s4,
              Forall (finishes_with out0) sched3 /\
              run ctxs key sched3 s = Some s4 /\
              length (sys_callers s4) = n /\
              (forall i, (i < n)%nat ->
                 exists rs err, sys_callers s4 !! i = Some (CDone rs err)) /\
              g_spawned (w_group (sys_world s4)) = g_spawned (w_group (sys_world s))).
  { intros out0 X' res s Hd Hlen.
    destruct (delivered_all_complete X' ctxs key w0 res s (length (sys_callers s)) Hd)
      as (sched3 & s4 & Hs3 & Hrun3 & Hd4 & Hdone); [lia|].
    assert (Hlen4 : length (sys_callers s4) = n)
      by (by rewrite (run_length _ _ _ _ _ Hrun3)).
    exists sched3, s4. split; [by apply is_caller_finishes_with|].
    split; [done|]. split; [done|]. split.
    - intros i Hi.
      destruct (lookup_lt_is_Some_2 (sys_callers s4) i) as [c Hc]; [lia|].
      specialize (Hdone i). rewrite Hc in Hdone. simpl in Hdone.
      destruct c as [| | | | | | |rs err|]; try (exfalso; apply Hdone; lia).
      eauto.
    - by eapply delivered_spawned. }
  destruct (registered_run X ctxs key w0 sched2 s1 s3 Hmiss HX2 Hinv1 Hrun2)
    as [[Hreg Hnf]|(out & sh & Hin & Huniq & Hd)].
  - (* the call is still in flight *)
    pose proof Hreg as (Hr & Hsent & Hoth & (c & Hcalls & Hck & Hsp & Hchs) & Hcs & Hown).
    split; [done|].
    split; [|split; [|split; [|split; [done|split; [|split; [done|done]]]]]].
    + intros i rs err Hi HXi. destruct (Hcs _ _ Hi) as [(ch & ? & _)|[? _]]; done.
    + intros i j rs err rs' err' Hi Hj HXi HXj.
      destruct (Hcs _ _ Hi) as [(ch & ? & _)|[? _]]; done.
    + intros out0.
      assert (Hfin : exists s3', sys_step ctxs key (LFinish tid out0) s3 = Some s3').
      { unfold sys_step. fold tid in Hcalls. rewrite Hcalls. eauto. }
      destruct Hfin as (s3' & Hfin).
      destruct (registered_finish X ctxs key w0 out0 s3 s3' Hmiss Hreg Hfin)
        as (sh & Hd).
      destruct (Hall out0 X _ s3' Hd)
        as (sched3 & s4 & Hs3 & Hrun3 & Hlen4 & Hdone & Hsp4).
      { by rewrite (sys_step_length _ _ _ _ _ Hfin). }
      exists (LFinish tid out0 :: sched3), s4.
      split; [by constructor|]. split; [cbn [run]; by rewrite Hfin|].
      split; [done|]. split; [done|].
      rewrite Hsp4. clear -Hfin Hcalls. unfold sys_step in Hfin.
      fold tid in Hcalls. rewrite Hcalls in Hfin. injection Hfin as <-. simpl.
      unfold doCall. by rewrite Hcalls.
    + intros i r entry Hi. destruct (Hcs _ _ Hi) as [(ch & ? & _)|(_ & e & ?)]; done.
  - (* the call has ended *)
    split; [apply Hd|].
    split; [|split; [|split; [|split; [done|split; [|split; [done|done]]]]]].
    + intros i rs err Hi HXi. exists out. split; [done|]. split; [done|].
      by apply (delivered_returned X key w0 out sh s3 i).
    + intros i j rs err rs' err' Hi Hj HXi HXj.
      rewrite (delivered_returned X key w0 out sh s3 i rs err Hd Hi HXi).
      by rewrite (delivered_returned X key w0 out sh s3 j rs' err' Hd Hj HXj).
    + intros out0. by eapply Hall.
    + intros i r entry Hi He.
      destruct Hd as (Hc & _).
      destruct Hc as [Hnone|[Herr Hsome]]; [congruence|].
      unfold sys_step. rewrite Hi. simpl. unfold load_read. rewrite He.
      rewrite Hsome in He. by simplify_eq.
Qed.

Lemma C6_coalescing_witness :
  exists s3,
    run (fun _ => Background) "hexample.com"
      ([LCaller 0; LCaller 0; LCaller 1;
        LFinish 0 (["192.0.2.7"], None);
        LCaller 1; LCaller 2; LCaller 2; LCancel 2 Canceled] ++
       [LFinish 1 (["93.184.216.34"], None);
        LCaller 0; LCaller 0; LCaller 0; LCaller 1; LCaller 1])
      (start 3 busyWorld) = Some s3 /\
    sys_callers s3
      = [CDone ["93.184.216.34"] None; CDone ["93.184.216.34"] None;
         CDone [] (Some Canceled)] /\
    (exists fn,
       g_spawned (w_group (sys_world s3))
       = (g_spawned (w_group busyWorld) ++ [("hexample.com", fn)])%list).
Proof.
  eexists. split; [vm_compute; reflexivity|]. split; [reflexivity|].
  epose proof (C6_coalescing (fun _ => Background) "hexample.com" 3 busyWorld
                 [LCaller 0; LCaller 0; LCaller 1;
                  LFinish 0 (["192.0.2.7"], None);
                  LCaller 1; LCaller 2; LCaller 2; LCancel 2 Canceled] _
                 [LFinish 1 (["93.184.216.34"], None);
                  LCaller 0; LCaller 0; LCaller 0; LCaller 1; LCaller 1] _) as H.
  destruct H as (Hone & _).
  - reflexivity.
  - apply wf_group_DoChan, wf_group_empty.
  - lia.
  - repeat constructor; simpl; discriminate.
  - vm_compute. reflexivity.
  - repeat constructor.
  - vm_compute. reflexivity.
  - exact Hone.
Defined.

(** The claim as stated fails in four ways. A caller whose context is done
    while it waits returns its context's error, not the result of the call
    the other caller gets. A caller that registers after the call has ended,
    while the other caller has not returned yet, starts a second call, and
    the two calls may return different results. So does a caller that
    registers after the deadline of the other has expired, which makes the
    coordinator forget the key. And a caller that receives a shared result
    and finds an entry whose used flag is not set writes to the store: it
    marks the entry used. *)
Lemma C6_counterexample :
  (exists s,
     run (fun i => if decide (i = 0) then timedCtx else Background) "hexample.com"
       [LCaller 0; LCaller 0; LCaller 1; LCaller 1;
        LCancel 0 DeadlineExceeded;
        LFinish 0 (["93.184.216.34"], None);
        LCaller 1; LCaller 1; LCaller 1]
       (start 2 freshWorld) = Some s /\
     sys_callers s
       = [CDone [] (Some DeadlineExceeded); CDone ["93.184.216.34"] None] /\
     length (g_spawned (w_group (sys_world s))) = 1 /\
     ~ (forall i j rs err rs' err',
          sys_callers s !! i = Some (CDone rs err) ->
          sys_callers s !! j = Some (CDone rs' err') ->
          (rs, err) = (rs', err'))) /\
  (exists s1 s,
     run (fun _ => Background) "hexample.com"
       [LCaller 0; LCaller 1; LCaller 0;
        LFinish 0 (["93.184.216.34"], None)]
       (start 2 freshWorld) = Some s1 /\
     sys_callers s1 = [CWait 0; CUpdate] /\
     run (fun _ => Background) "hexample.com"
       [LCaller 1;
        LFinish 1 (["93.184.216.35"], None);
        LCaller 0; LCaller 0; LCaller 1; LCaller 1]
       s1 = Some s /\
     sys_callers s
       = [CDone ["93.184.216.34"] None; CDone ["93.184.216.35"] None] /\
     length (g_spawned (w_group (sys_world s))) = 2) /\
  (exists s,
     run (fun i => if decide (i = 0) then timedCtx else Background) "hexample.com"
       [LCaller 0; LCaller 1; LCaller 0; LCancel 0 DeadlineExceeded; LCaller 1]
       (start 2 freshWorld) = Some s /\
     sys_callers s = [CDone [] (Some DeadlineExceeded); CWait 1] /\
     length (g_spawned (w_group (sys_world s))) = 2) /\
  (exists w',
     update Background "hexample.com" true (Received sharedResult) coldWorld
       = Ok ((["10.0.0.1"], None), w') /\
     r_cache (w_r coldWorld) !! "hexample.com"
       = Some {| rrs := ["10.0.0.1"]; used := false |} /\
     r_cache (w_r w') !! "hexample.com"
       = Some {| rrs := ["10.0.0.1"]; used := true |}).
Proof.
  split; [|split; [|split]].
  - eexists. split; [vm_compute; reflexivity|]. split; [reflexivity|].
    split; [reflexivity|].
    intros H. specialize (H 0 1 _ _ _ _ eq_refl eq_refl). discriminate H.
  - eexists _, _. split; [vm_compute; reflexivity|]. split; [reflexivity|].
    split; [vm_compute; reflexivity|]. split; reflexivity.
  - eexists. split; [vm_compute; reflexivity | split; reflexivity].
  - eexists. split; [vm_compute; reflexivity|]. split; reflexivity.
Qed.

(** When a caller arrives after the call has ended and before its result is
    stored, the windows do not overlap: a second call is started. *)
Example late_caller_starts_a_second_call :
  exists s,
    run (fun _ => Background) "hexample.com"
      [LCaller 0; LCaller 0; LCaller 1;
       LFinish 0 (["93.184.216.34"], None); LCaller 1]
      (start 2 freshWorld) = Some s /\
    length (g_spawned (w_group (sys_world s))) = 2.
Proof. eexists. split; [vm_compute; reflexivity | reflexivity]. Qed.

(** So is one when a caller's deadline expires, which forgets the key, before
    another caller registers. *)
Example forgotten_key_starts_a_second_call :
  exists s,
    run (fun i => if decide (i = 0) then timedCtx else Background) "hexample.com"
      [LCaller 0; LCaller 1; LCaller 0; LCancel 0 DeadlineExceeded; LCaller 1]
      (start 2 freshWorld) = Some s /\
    sys_callers s = [CDone [] (Some DeadlineExceeded); CWait 1] /\
    length (g_spawned (w_group (sys_world s))) = 2.
Proof. eexists. split; [vm_compute; reflexivity | split; reflexivity]. Qed.

(** * Further properties *)

(** ** Storing and reading back *)

(** X1: [storeLocked] leaves under the key an entry with exactly the results
    and the flag given, whether or not an entry was there, touches no other
    entry and none of the configuration, and the last of two stores to a key
    wins. A [load] that follows returns the results stored, reports a hit and
    leaves the entry marked used; it changes nothing when the entry was
    stored as used. *)
Theorem storeLocked_then_load key rs u r :
  r_cache (storeLocked key rs u r) !! key = Some {| rrs := rs; used := u |} /\
  (forall k, k <> key -> r_cache (storeLocked key rs u r) !! k = r_cache r !! k) /\
  r_Timeout (storeLocked key rs u r) = r_Timeout r /\
  r_Resolver (storeLocked key rs u r) = r_Resolver r /\
  r_once (storeLocked key rs u r) = r_once r /\
  (forall rs' u',
     storeLocked key rs' u' (storeLocked key rs u r) = storeLocked key rs' u' r) /\
  exists r',
    load key (storeLocked key rs u r) = (rs, true, r') /\
    r_cache r' = <[key := {| rrs := rs; used := true |}]> (r_cache r) /\
    (u = true -> r' = storeLocked key rs u r).
Proof.
  assert (Hs : forall rs u r,
             storeLocked key rs u r
             = set_cache (<[key := {| rrs := rs; used := u |}]> (r_cache r)) r).
  { intros rs0 u0 r0. unfold storeLocked. by destruct (r_cache r0 !! key). }
  rewrite !Hs. simpl.
  split; [apply lookup_insert_eq|].
  split; [intros k Hne; by apply lookup_insert_ne|].
  do 3 (split; [done|]).
  split.
  { intros rs' u'. rewrite !Hs. unfold set_cache. simpl.
    by rewrite insert_insert_eq. }
  erewrite load_hit by (simpl; apply lookup_insert_eq). simpl.
  eexists. split; [done|]. split.
  - destruct u; simpl; [done|]. by rewrite insert_insert_eq.
  - by intros ->.
Qed.

Lemma storeLocked_then_load_witness :
  exists r',
    load "hexample.com" (storeLocked "hexample.com" ["10.0.0.2"] false (w_r warmWorld))
      = (["10.0.0.2"], true, r') /\
    r_cache r' !! "hexample.com" = Some {| rrs := ["10.0.0.2"]; used := true |}.
Proof.
  destruct (storeLocked_then_load "hexample.com" ["10.0.0.2"] false (w_r warmWorld))
    as (_ & _ & _ & _ & _ & _ & r' & Hload & Hc & _).
  exists r'. split; [exact Hload|]. rewrite Hc. reflexivity.
Defined.

(** ** Keys and work functions *)

(** X2: the key encoding round trip. Distinct hosts have distinct forward
    keys and distinct addresses distinct reverse keys; the work function
    built for the forward key of a host is a forward lookup of that very
    host (the empty host included), the one built for the reverse key of an
    address a reverse lookup of that address; and every key [lookupFunc]
    accepts is the forward or the reverse key of the subject of the work
    function it returns. *)
Theorem key_round_trip :
  (forall s t, hostKey s = hostKey t -> s = t) /\
  (forall s t, addrKey s = addrKey t -> s = t) /\
  (forall r ctx host,
     lookupFunc r ctx (hostKey host) =
       Ok {| w_kind := kindHost; w_resolver := r_Resolver r;
             w_ctx := ctx; w_subject := host |}) /\
  (forall r ctx addr,
     lookupFunc r ctx (addrKey addr) =
       Ok {| w_kind := kindAddr; w_resolver := r_Resolver r;
             w_ctx := ctx; w_subject := addr |}) /\
  (forall r ctx key fn,
     lookupFunc r ctx key = Ok fn ->
     key = match w_kind fn with
           | kindHost => hostKey (w_subject fn)
           | kindAddr => addrKey (w_subject fn)
           end).
Proof.
  split; [intros s t H; by injection H|].
  split; [intros s t H; by injection H|].
  split; [done|]. split; [done|].
  intros r ctx [|c rest] fn; [done|]. unfold lookupFunc.
  destruct (Ascii.eqb c "h") eqn:Eh.
  { apply Ascii.eqb_eq in Eh as ->. intros [= <-]. done. }
  destruct (Ascii.eqb c "r") eqn:Er; [|done].
  apply Ascii.eqb_eq in Er as ->. intros [= <-]. done.
Qed.

Lemma key_round_trip_witness :
  "rexample.com" = addrKey "example.com".
Proof.
  destruct key_round_trip as (_ & _ & _ & _ & H).
  apply (H (w_r freshWorld) Background "rexample.com"
           {| w_kind := kindAddr; w_resolver := None; w_ctx := Background;
              w_subject := "example.com" |}).
  reflexivity.
Defined.

(** X3: what a work function does when it runs. The provider is the one the
    resolver was configured with when the work function was built (the
    package's default resolver when none was), whatever provider is
    configured when it runs; the context is derived when it runs, from the
    timeout configured then and the context given at build time; the subject
    is the key without its first character, looked up forward or in reverse
    according to that character. *)
Theorem work_function_call
    (IP : Type) (IP_String : IP -> string)
    (net_LookupIP : Context -> string -> string -> list IP * option error)
    (net_LookupAddr : Context -> string -> list string * option error)
    (r r' : Resolver) (ctx : Context) (c : ascii) (subject : string) :
  let d := defaultResolver IP IP_String net_LookupIP net_LookupAddr in
  let provider := default d (r_Resolver r) in
  let ctx' := (prepareCtx r' ctx).1 in
  match lookupFunc r ctx (String c subject) with
  | Ok fn =>
      run_work IP IP_String net_LookupIP net_LookupAddr r' fn =
        if Ascii.eqb c "h"%char then LookupHost_ provider ctx' subject
        else LookupAddr_ provider ctx' subject
  | Panic _ => Ascii.eqb c "h"%char = false /\ Ascii.eqb c "r"%char = false
  end.
Proof.
  intros d provider ctx'. unfold lookupFunc.
  destruct (Ascii.eqb c "h") eqn:Eh.
  { unfold run_work. simpl. subst ctx'. by destruct (prepareCtx r' ctx). }
  destruct (Ascii.eqb c "r") eqn:Er; [|done].
  unfold run_work. simpl. subst ctx'. by destruct (prepareCtx r' ctx).
Qed.

(** ** Cache hits and failed lookups *)

(** X4: a lookup that finds an entry is answered from the store alone. It
    returns the entry's results with no error whatever the caller's context
    and whatever the [select] would have yielded, a done context included;
    the coordinator is not touched, so no work function is built and no
    provider consulted; the entry is left marked used. This holds of [lookup]
    for every key and of both public entry points. *)
Theorem cache_hit_is_local :
  (forall ctx key sel w entry,
     r_cache (w_r w) !! key = Some entry ->
     exists w',
       lookup ctx key sel w = Ok ((rrs entry, None), w') /\
       w_group w' = w_group w /\
       r_cache (w_r w') = <[key := {| rrs := rrs entry; used := true |}]> (r_cache (w_r w))) /\
  (forall ctx host sel w entry,
     initialised (w_r w) ->
     r_cache (w_r w) !! hostKey host = Some entry ->
     exists w',
       LookupHost ctx host sel w = Ok ((rrs entry, None), w') /\
       w_group w' = w_group w) /\
  (forall ctx addr sel w entry,
     initialised (w_r w) ->
     r_cache (w_r w) !! addrKey addr = Some entry ->
     exists w',
       LookupAddr ctx addr sel w = Ok ((rrs entry, None), w') /\
       w_group w' = w_group w).
Proof.
  assert (Hl : forall ctx key sel w entry,
     r_cache (w_r w) !! key = Some entry ->
     exists w',
       lookup ctx key sel w = Ok ((rrs entry, None), w') /\
       w_group w' = w_group w /\
       r_cache (w_r w') = <[key := {| rrs := rrs entry; used := true |}]> (r_cache (w_r w))).
  { intros ctx key sel w entry E. rewrite lookup_run, E.
    eexists. split; [done|]. split; [done|]. simpl.
    rewrite (load_hit _ _ _ E). simpl. destruct (used entry) eqn:U; [|done].
    symmetry. apply insert_id. rewrite E. destruct entry; simpl in *; by subst. }
  split; [exact Hl|]. split.
  - intros ctx host sel w entry Hi E. rewrite LookupHost_run.
    destruct (Hl ctx (hostKey host) sel
                {| w_r := once_Do_init (w_r w); w_group := w_group w |} entry)
      as (w' & Hrun & Hg & _).
    { simpl. by rewrite once_Do_init_cache. }
    eauto.
  - intros ctx addr sel w entry Hi E. rewrite LookupAddr_run.
    destruct (Hl ctx (addrKey addr) sel
                {| w_r := once_Do_init (w_r w); w_group := w_group w |} entry)
      as (w' & Hrun & Hg & _).
    { simpl. by rewrite once_Do_init_cache. }
    eauto.
Qed.

Lemma cache_hit_is_local_witness :
  exists w',
    LookupHost timedCtx "example.com" (CtxDone DeadlineExceeded) warmWorld
      = Ok ((["10.0.0.1"], None), w') /\
    w_group w' = emptyGroup.
Proof.
  destruct cache_hit_is_local as (_ & H & _).
  apply (H timedCtx "example.com" (CtxDone DeadlineExceeded) warmWorld
           {| rrs := ["10.0.0.1"]; used := true |}).
  - intros Ho. discriminate Ho.
  - reflexivity.
Defined.

(** X5: failures are not cached. A lookup that returns an error returns no
    results, found no entry for the key, and leaves the resolver exactly as
    it was: no entry is added, changed or removed. The error is the one of
    the caller's context when that was done first, and the provider's
    otherwise. *)
Theorem failed_lookup_caches_nothing ctx key sel w rs e w' :
  lookup ctx key sel w = Ok ((rs, Some e), w') ->
  rs = [] /\ w_r w' = w_r w /\ r_cache (w_r w) !! key = None /\
  (sel = CtxDone e \/ exists res, sel = Received res /\ Err res = Some e).
Proof.
  rewrite lookup_run.
  destruct (r_cache (w_r w) !! key) as [entry|] eqn:E; [done|].
  intros Hrun. destruct (valid_key key) eqn:Hk.
  - destruct sel as [err|res].
    + destruct (update_done ctx key true err w Hk) as (fn & g & _ & _ & Heq).
      rewrite Heq in Hrun. simplify_eq. eauto.
    + destruct (update_received ctx key true res w Hk) as (g & Heq).
      rewrite Heq in Hrun. unfold received in Hrun. rewrite E in Hrun.
      destruct (Err res) as [e'|] eqn:Ee; simplify_eq. simpl.
      split; [done|]. split; [done|]. split; [done|]. right. eauto.
  - exfalso. unfold_m.
    destruct (lookupFunc (w_r w) ctx key) as [fn|msg] eqn:Hfn; [|done].
    assert (valid_key key = true) by (apply (lookupFunc_valid (w_r w) ctx); eauto).
    congruence.
Qed.

Lemma failed_lookup_caches_nothing_witness :
  exists w',
    lookup Background "hexample.org" (Received failedResult) warmWorld
      = Ok (([], Some (errorString "no such host")), w') /\
    w_r w' = w_r warmWorld.
Proof.
  eexists. split; [vm_compute; reflexivity|].
  eapply (failed_lookup_caches_nothing Background "hexample.org"
            (Received failedResult) warmWorld).
  vm_compute. reflexivity.
Defined.

(** ** What a public call leaves alone *)

Lemma once_Do_init_config r :
  r_Timeout (once_Do_init r) = r_Timeout r /\
  r_Resolver (once_Do_init r) = r_Resolver r.
Proof. unfold once_Do_init. by destruct (r_once r). Qed.

Lemma once_Do_init_id r : r_once r = true -> once_Do_init r = r.
Proof. unfold once_Do_init. by intros ->. Qed.

Lemma update_Ok_valid ctx key u sel w a w' :
  update ctx key u sel w = Ok (a, w') -> valid_key key = true.
Proof.
  intros Hrun. apply (lookupFunc_valid (w_r w) ctx). unfold_m.
  destruct (lookupFunc (w_r w) ctx key) as [fn|msg] eqn:Hfn; [eauto | done].
Qed.

Lemma update_config ctx key u sel w a w' :
  update ctx key u sel w = Ok (a, w') ->
  r_Timeout (w_r w') = r_Timeout (w_r w) /\
  r_Resolver (w_r w') = r_Resolver (w_r w) /\
  r_once (w_r w') = r_once (w_r w).
Proof.
  intros Hrun. pose proof (update_Ok_valid _ _ _ _ _ _ _ Hrun) as Hk.
  destruct sel as [err|res].
  - destruct (update_done ctx key u err w Hk) as (fn & g & _ & _ & Heq).
    rewrite Heq in Hrun. by simplify_eq.
  - destruct (update_received ctx key u res w Hk) as (g & Heq).
    rewrite Heq in Hrun. simplify_eq. simpl. apply received_config.
Qed.

Lemma lookup_config ctx key sel w a w' :
  lookup ctx key sel w = Ok (a, w') ->
  r_Timeout (w_r w') = r_Timeout (w_r w) /\
  r_Resolver (w_r w') = r_Resolver (w_r w) /\
  r_once (w_r w') = r_once (w_r w).
Proof.
  rewrite lookup_run.
  destruct (r_cache (w_r w) !! key) as [e|] eqn:E.
  - intros ?; simplify_eq. simpl. apply load_config.
  - apply update_config.
Qed.

(** The coordinator after [update]: one [DoChan], and a [Forget] when the
    caller's deadline expired. *)
Lemma update_group ctx key u sel w a w' :
  update ctx key u sel w = Ok (a, w') ->
  exists fn,
    lookupFunc (w_r w) ctx key = Ok fn /\
    w_group w' =
      match sel with
      | CtxDone err =>
          if decide (err = DeadlineExceeded)
          then Forget key (DoChan key fn (w_group w)).2
          else (DoChan key fn (w_group w)).2
      | Received _ => (DoChan key fn (w_group w)).2
      end.
Proof.
  unfold_m.
  destruct (lookupFunc (w_r w) ctx key) as [fn|msg] eqn:Hfn; [|done].
  intros Hrun. exists fn. split; [done|]. revert Hrun.
  destruct (DoChan key fn (w_group w)) as [c g] eqn:Hg. simpl.
  destruct sel as [err|res].
  - case_decide; simpl; intros ?; by simplify_eq.
  - simpl. destruct (Shared res).
    + destruct (load key (w_r w)) as [[rs1 [|]] r1] eqn:L1; simpl; rewrite L1;
        [intros ?; by simplify_eq|].
      destruct (Err res); simpl.
      * destruct (load key r1) as [[rs2 [|]] r2] eqn:L2; rewrite ?L2;
          intros ?; by simplify_eq.
      * intros ?; by simplify_eq.
    + simpl. destruct (Err res); simpl.
      * destruct (load key (w_r w)) as [[rs2 [|]] r2] eqn:L2; rewrite ?L2;
          intros ?; by simplify_eq.
      * intros ?; by simplify_eq.
Qed.

Lemma DoChan_nextch key fn g : g_nextch (DoChan key fn g).2 = S (g_nextch g).
Proof. unfold DoChan. by destruct (g_m g !! key). Qed.

Lemma run_call_lookup_host range ctx host sel w w' :
  run_call range (CallLookupHost ctx host sel) w = Ok (tt, w') ->
  exists a,
    lookup ctx (hostKey host) sel
      {| w_r := once_Do_init (w_r w); w_group := w_group w |} = Ok (a, w').
Proof.
  simpl. unfold bind at 1. rewrite LookupHost_run.
  destruct (lookup _ _ _ _) as [[a w1]|msg]; [|done].
  intros [= <-]. eauto.
Qed.

Lemma run_call_lookup_addr range ctx addr sel w w' :
  run_call range (CallLookupAddr ctx addr sel) w = Ok (tt, w') ->
  exists a,
    lookup ctx (addrKey addr) sel
      {| w_r := once_Do_init (w_r w); w_group := w_group w |} = Ok (a, w').
Proof.
  simpl. unfold bind at 1. rewrite LookupAddr_run.
  destruct (lookup _ _ _ _) as [[a w1]|msg]; [|done].
  intros [= <-]. eauto.
Qed.

(** A lookup keeps every entry, with its results, and never clears a used
    flag. *)
Lemma lookup_keeps ctx key sel w a w' k e :
  lookup ctx key sel w = Ok (a, w') ->
  r_cache (w_r w) !! k = Some e ->
  exists e',
    r_cache (w_r w') !! k = Some e' /\ rrs e' = rrs e /\
    (used e = true -> used e' = true).
Proof.
  intros Hrun Hk. destruct (decide (k = key)) as [->|Hne].
  - rewrite lookup_run, Hk in Hrun. simplify_eq. simpl.
    rewrite load_cache_lookup, decide_True by done. rewrite Hk. simpl. eauto.
  - rewrite (lookup_frame _ _ _ _ _ _ k Hrun Hne). eauto.
Qed.

Lemma run_call_keeps range c key w w' e :
  initialised (w_r w) ->
  keeps key c ->
  run_call range c w = Ok (tt, w') ->
  r_cache (w_r w) !! key = Some e ->
  initialised (w_r w') /\
  exists e',
    r_cache (w_r w') !! key = Some e' /\ rrs e' = rrs e /\
    (used e = true -> used e' = true).
Proof.
  intros Hi Hkeep Hrun Hk.
  destruct c as [ctx host sel|ctx addr sel|host|res]; [| | |done].
  - apply run_call_lookup_host in Hrun as [a Hrun]. split.
    + intros Ho. apply lookup_config in Hrun as (_ & _ & Ho'). simpl in Ho'.
      rewrite once_Do_init_once in Ho'. congruence.
    + eapply lookup_keeps; [exact Hrun|]. simpl. by rewrite once_Do_init_cache.
  - apply run_call_lookup_addr in Hrun as [a Hrun]. split.
    + intros Ho. apply lookup_config in Hrun as (_ & _ & Ho'). simpl in Ho'.
      rewrite once_Do_init_once in Ho'. congruence.
    + eapply lookup_keeps; [exact Hrun|]. simpl. by rewrite once_Do_init_cache.
  - simpl in Hkeep.
    change (Ok (tt, {| w_r := set_cache (delete (hostKey host)
                                           (r_cache (once_Do_init (w_r w))))
                                (once_Do_init (w_r w));
                       w_group := w_group w |}) = Ok (tt, w')) in Hrun.
    injection Hrun as <-. split.
    + intros Ho. simpl in Ho. by rewrite once_Do_init_once in Ho.
    + simpl. rewrite lookup_delete_ne by done.
      rewrite once_Do_init_cache by done. eauto.
Qed.

Lemma run_calls_keeps range cs key w w' e :
  initialised (w_r w) ->
  Forall (keeps key) cs ->
  run_calls range cs w = Ok (tt, w') ->
  r_cache (w_r w) !! key = Some e ->
  initialised (w_r w') /\
  exists e',
    r_cache (w_r w') !! key = Some e' /\ rrs e' = rrs e /\
    (used e = true -> used e' = true).
Proof.
  revert w e. induction cs as [|c cs IH]; intros w e Hi Hall Hrun Hk.
  - cbn in Hrun. injection Hrun as <-. split; [done|]. exists e. auto.
  - apply Forall_cons in Hall as [Hc Hall]. cbn [run_calls] in Hrun.
    unfold bind in Hrun.
    destruct (run_call range c w) as [[[] w1]|msg] eqn:H1; [|done].
    destruct (run_call_keeps range c key w w1 e Hi Hc H1 Hk)
      as (Hi1 & e1 & Hk1 & Hr1 & Hu1).
    destruct (IH w1 e1 Hi1 Hall Hrun Hk1) as (Hi' & e' & Hk' & Hr' & Hu').
    split; [done|]. exists e'. split; [done|]. split; [congruence|]. auto.
Qed.

(** X6: an entry stays until it is removed or refreshed. Through any
    sequence of public calls that holds no [Refresh] and no [Remove] of the
    entry's host (lookups of this and of other keys, whatever they receive,
    and removals of other hosts), the entry of a key keeps its results, and
    its used flag once set; a lookup of the key after the sequence is
    answered with those results and no error, whatever its context and
    whatever its [select] would yield. *)
Theorem cached_entry_persists range cs key w w' e :
  initialised (w_r w) ->
  Forall (keeps key) cs ->
  run_calls range cs w = Ok (tt, w') ->
  r_cache (w_r w) !! key = Some e ->
  (exists e',
     r_cache (w_r w') !! key = Some e' /\ rrs e' = rrs e /\
     (used e = true -> used e' = true)) /\
  (forall ctx sel, value_of (lookup ctx key sel w') = Some (rrs e, None)).
Proof.
  intros Hi Hall Hrun Hk.
  destruct (run_calls_keeps range cs key w w' e Hi Hall Hrun Hk)
    as (_ & e' & Hk' & Hr' & Hu').
  split; [eauto|]. intros ctx sel. rewrite lookup_run, Hk'. simpl. by rewrite Hr'.
Qed.

Lemma cached_entry_persists_witness :
  value_of (lookup timedCtx "hexample.com" (CtxDone DeadlineExceeded)
     match run_calls map_to_list
             [CallLookupAddr Background "10.0.0.1" (Received failedResult);
              CallRemove "example.org";
              CallLookupHost Background "example.org" (Received okResult)]
             warmWorld with
     | Ok (_, w') => w'
     | Panic _ => warmWorld
     end) = Some (["10.0.0.1"], None).
Proof.
  refine (proj2 (cached_entry_persists map_to_list
            [CallLookupAddr Background "10.0.0.1" (Received failedResult);
             CallRemove "example.org";
             CallLookupHost Background "example.org" (Received okResult)]
            "hexample.com" warmWorld _ {| rrs := ["10.0.0.1"]; used := true |}
            _ _ _ _) timedCtx (CtxDone DeadlineExceeded)).
  - intros Ho. discriminate Ho.
  - repeat constructor; simpl; discriminate.
  - vm_compute. reflexivity.
  - reflexivity.
Defined.

(** X7: an answer is served from the cache until the next refresh or
    removal. After a [LookupHost] that returned results without error, and
    any public calls other than [Refresh] and [Remove] of that host, a
    [LookupHost] of the host returns the same results, whatever its context
    and whatever its [select] would yield; the same holds of [LookupAddr]. *)
Theorem answer_is_cached range cs w :
  (forall ctx host sel rs w1 w2 ctx' sel',
     LookupHost ctx host sel w = Ok ((rs, None), w1) ->
     Forall (keeps (hostKey host)) cs ->
     run_calls range cs w1 = Ok (tt, w2) ->
     value_of (LookupHost ctx' host sel' w2) = Some (rs, None)) /\
  (forall ctx addr sel rs w1 w2 ctx' sel',
     LookupAddr ctx addr sel w = Ok ((rs, None), w1) ->
     Forall (keeps (addrKey addr)) cs ->
     run_calls range cs w1 = Ok (tt, w2) ->
     value_of (LookupAddr ctx' addr sel' w2) = Some (rs, None)).
Proof.
  assert (H : forall ctx key sel rs w1 w2 ctx' sel',
             lookup ctx key sel {| w_r := once_Do_init (w_r w); w_group := w_group w |}
               = Ok ((rs, None), w1) ->
             Forall (keeps key) cs ->
             run_calls range cs w1 = Ok (tt, w2) ->
             value_of (lookup ctx' key sel'
                         {| w_r := once_Do_init (w_r w2); w_group := w_group w2 |})
               = Some (rs, None)).
  { intros ctx key sel rs w1 w2 ctx' sel' H1 Hall Hrun.
    destruct (lookup_success_entry _ _ _ _ _ _ H1) as (e & He & _ & Hrs).
    assert (Hi1 : initialised (w_r w1)).
    { intros Ho. apply lookup_config in H1 as (_ & _ & Ho'). simpl in Ho'.
      rewrite once_Do_init_once in Ho'. congruence. }
    destruct (run_calls_keeps range cs key w1 w2 e Hi1 Hall Hrun He)
      as (Hi2 & e' & Hk' & Hr' & _).
    rewrite lookup_run. simpl. rewrite once_Do_init_cache by done.
    rewrite Hk'. simpl. congruence. }
  split.
  - intros ctx host sel rs w1 w2 ctx' sel'. rewrite !LookupHost_run. apply H.
  - intros ctx addr sel rs w1 w2 ctx' sel'. rewrite !LookupAddr_run. apply H.
Qed.

Lemma answer_is_cached_witness :
  value_of (LookupHost timedCtx "example.com" (CtxDone Canceled)
     match run_calls map_to_list
             [CallRemove "example.org";
              CallLookupAddr Background "93.184.216.34" (Received failedResult)]
             match LookupHost Background "example.com" (Received okResult) freshWorld with
             | Ok (_, w1) => w1
             | Panic _ => freshWorld
             end with
     | Ok (_, w2) => w2
     | Panic _ => freshWorld
     end) = Some (["93.184.216.34"], None).
Proof.
  refine (proj1 (answer_is_cached map_to_list
            [CallRemove "example.org";
             CallLookupAddr Background "93.184.216.34" (Received failedResult)]
            freshWorld)
          Background "example.com" (Received okResult) ["93.184.216.34"] _ _
          timedCtx (CtxDone Canceled) _ _ _).
  - vm_compute. reflexivity.
  - repeat constructor; simpl; discriminate.
  - vm_compute. reflexivity.
Defined.

(** ** More on the refresh sweep *)

Lemma updateKeys_group upd res w w' :
  updateKeys upd res w = Ok (tt, w') ->
  g_nextch (w_group w') = (g_nextch (w_group w) + length upd)%nat.
Proof.
  revert w. induction upd as [|key upd IH]; intros w Hrun.
  - cbn in Hrun. injection Hrun as <-. simpl. lia.
  - cbn [updateKeys] in Hrun. unfold bind at 1 in Hrun.
    destruct (update Background key false (Received (res key)) w)
      as [[a w1]|msg] eqn:Hu; [|done].
    apply update_group in Hu as (fn & _ & Hg).
    rewrite (IH _ Hrun), Hg, DoChan_nextch. simpl. lia.
Qed.

(** [refreshRecords] in full: the store, the configuration and the number
    of requests made of the coordinator. *)
Lemma refreshRecords_full range res w :
  range_ok range ->
  initialised (w_r w) ->
  keys_valid (r_cache (w_r w)) ->
  exists w',
    refreshRecords range res w = Ok (tt, w') /\
    r_Timeout (w_r w') = r_Timeout (w_r w) /\
    r_Resolver (w_r w') = r_Resolver (w_r w) /\
    r_once (w_r w') = true /\
    (forall k, r_cache (w_r w') !! k = refreshed res (r_cache (w_r w)) k) /\
    g_nextch (w_group w') =
      (g_nextch (w_group w) + length (used_keys (range (r_cache (w_r w)))))%nat.
Proof.
  intros Hr Hi Hv.
  destruct (refreshRecords_run range res w Hr Hi Hv) as (w' & Hrun & Ho & Hc).
  exists w'. split; [done|].
  rewrite refreshRecords_unfold in Hrun. cbv zeta in Hrun.
  rewrite (once_Do_init_cache _ Hi) in Hrun.
  match type of Hrun with updateKeys ?upd res ?w1 = _ =>
    destruct (updateKeys_run upd res w1) as (w'' & Hrun' & Ht & Hp & _)
  end.
  { apply NoDup_used_keys, range_ok_NoDup, Hr. }
  { intros k (e & He & _)%elem_of_used_keys. apply Hv.
    apply (range_ok_elem range _ k e Hr) in He. by exists e. }
  rewrite Hrun' in Hrun. injection Hrun as ->.
  destruct (once_Do_init_config (w_r w)) as [Ht0 Hp0].
  split; [by rewrite Ht|]. split; [by rewrite Hp|]. split; [done|].
  split; [done|]. apply updateKeys_group in Hrun'. by rewrite Hrun'.
Qed.

Lemma keys_valid_cold : keys_valid (r_cache (w_r coldWorld)).
Proof.
  intros k [e He]. unfold coldWorld in He. simpl in He.
  apply lookup_singleton_Some in He as [<- _]. reflexivity.
Qed.

(** X8: what a refresh leaves alone. [Refresh] never fails, never adds a
    key (every entry the store holds afterwards is under a key that held a
    used entry before) and does not change the timeout or the provider
    configured. It asks the coordinator for exactly one resolution per used
    entry and for none on behalf of an unused one; when no entry is used,
    the empty store included, it empties the store and does not touch the
    coordinator at all. *)
Theorem refresh_footprint range res w :
  range_ok range ->
  initialised (w_r w) ->
  keys_valid (r_cache (w_r w)) ->
  exists w',
    Refresh range res w = Ok (tt, w') /\
    r_Timeout (w_r w') = r_Timeout (w_r w) /\
    r_Resolver (w_r w') = r_Resolver (w_r w) /\
    (forall k, is_Some (r_cache (w_r w') !! k) ->
       exists e, r_cache (w_r w) !! k = Some e /\ used e = true) /\
    g_nextch (w_group w') =
      (g_nextch (w_group w) + length (used_keys (range (r_cache (w_r w)))))%nat /\
    ((forall k e, r_cache (w_r w) !! k = Some e -> used e = false) ->
     r_cache (w_r w') = ∅ /\ w_group w' = w_group w).
Proof.
  intros Hr Hi Hv. unfold Refresh.
  destruct (refreshRecords_full range res w Hr Hi Hv)
    as (w' & Hrun & Ht & Hp & _ & Hc & Hn).
  exists w'. do 3 (split; [done|]). split; [|split; [done|]].
  - intros k. rewrite Hc. unfold refreshed.
    destruct (r_cache (w_r w) !! k) as [e|]; [|by intros [? ?]].
    destruct (used e) eqn:U; [eauto | by intros [? ?]].
  - intros Hunused. split.
    + apply map_eq. intros k. rewrite Hc, lookup_empty. unfold refreshed.
      destruct (r_cache (w_r w) !! k) as [e|] eqn:E; [|done].
      by rewrite (Hunused k e E).
    + rewrite refreshRecords_unfold in Hrun. cbv zeta in Hrun.
      rewrite (once_Do_init_cache _ Hi) in Hrun.
      destruct (used_keys (range (r_cache (w_r w)))) as [|k upd] eqn:Hu.
      * cbn in Hrun. by injection Hrun as <-.
      * exfalso. assert (Hin : k ∈ used_keys (range (r_cache (w_r w)))).
        { rewrite Hu. by left. }
        apply elem_of_used_keys in Hin as (e & He & Hue).
        apply (range_ok_elem range _ k e Hr) in He.
        rewrite (Hunused k e He) in Hue. done.
Qed.

Lemma refresh_footprint_witness :
  exists w',
    Refresh map_to_list (fun _ => okResult) coldWorld = Ok (tt, w') /\
    r_cache (w_r w') = ∅ /\ w_group w' = emptyGroup.
Proof.
  destruct (refresh_footprint map_to_list (fun _ => okResult) coldWorld)
    as (w' & Hrun & _ & _ & _ & _ & Hnone).
  - exact range_ok_map_to_list.
  - intros Ho. discriminate Ho.
  - exact keys_valid_cold.
  - exists w'. split; [exact Hrun|]. apply Hnone.
    intros k e He. unfold coldWorld in He. simpl in He.
    apply lookup_singleton_Some in He as [_ <-]. reflexivity.
Defined.

(** X9: the order in which the map is ranged over does not matter. Two
    refreshes of the same state that range over the store in different
    orders, the coordinator delivering the same result for each key, leave
    the same resolver: the same store and the same configuration. *)
Theorem refresh_order_irrelevant range1 range2 res w :
  range_ok range1 -> range_ok range2 ->
  initialised (w_r w) ->
  keys_valid (r_cache (w_r w)) ->
  exists w1 w2,
    Refresh range1 res w = Ok (tt, w1) /\
    Refresh range2 res w = Ok (tt, w2) /\
    w_r w1 = w_r w2.
Proof.
  intros Hr1 Hr2 Hi Hv. unfold Refresh.
  destruct (refreshRecords_full range1 res w Hr1 Hi Hv)
    as (w1 & Hrun1 & Ht1 & Hp1 & Ho1 & Hc1 & _).
  destruct (refreshRecords_full range2 res w Hr2 Hi Hv)
    as (w2 & Hrun2 & Ht2 & Hp2 & Ho2 & Hc2 & _).
  exists w1, w2. do 2 (split; [done|]).
  assert (Hc : r_cache (w_r w1) = r_cache (w_r w2)).
  { apply map_eq. intros k. by rewrite Hc1, Hc2. }
  destruct (w_r w1), (w_r w2). simpl in *. congruence.
Qed.

Lemma keys_valid_pair : keys_valid (r_cache (w_r pairWorld)).
Proof.
  intros k [e He]. unfold pairWorld in He. simpl in He.
  apply lookup_insert_Some in He as [[<- _]|[_ He]]; [reflexivity|].
  apply lookup_singleton_Some in He as [<- _]. reflexivity.
Qed.

Lemma refresh_order_irrelevant_witness :
  used_keys (map_to_list (r_cache (w_r pairWorld))) = ["r10.0.0.1"; "hexample.com"] /\
  used_keys (reverse (map_to_list (r_cache (w_r pairWorld))))
    = ["hexample.com"; "r10.0.0.1"] /\
  exists w1 w2,
    Refresh map_to_list mixedResults pairWorld = Ok (tt, w1) /\
    Refresh (fun m => reverse (map_to_list m)) mixedResults pairWorld = Ok (tt, w2) /\
    w_r w1 = w_r w2.
Proof.
  split; [vm_compute; reflexivity|]. split; [vm_compute; reflexivity|].
  apply (refresh_order_irrelevant map_to_list (fun m => reverse (map_to_list m))
           mixedResults pairWorld).
  - exact range_ok_map_to_list.
  - intros m. apply reverse_Permutation.
  - intros Ho. discriminate Ho.
  - exact keys_valid_pair.
Defined.

(** ** Removal *)

(** X10: after [Remove] the host is resolved anew. [Remove] is idempotent: a
    second removal of the host changes nothing. A [LookupHost] of the host
    that follows does not find the removed entry: it returns what the
    resolution it waits for delivers (its results, or no results and its
    error), and the error of the caller's context when that is done first. *)
Theorem remove_then_lookup host w :
  initialised (w_r w) ->
  exists w1,
    Remove host w = Ok (tt, w1) /\
    Remove host w1 = Ok (tt, w1) /\
    (forall ctx res,
       value_of (LookupHost ctx host (Received res) w1)
         = Some (outcome_of (Val res, Err res))) /\
    (forall ctx err,
       value_of (LookupHost ctx host (CtxDone err) w1) = Some ([], Some err)).
Proof.
  intros Hi.
  set (r1 := set_cache (delete (hostKey host) (r_cache (once_Do_init (w_r w))))
               (once_Do_init (w_r w))).
  exists {| w_r := r1; w_group := w_group w |}. split; [reflexivity|].
  assert (Ho1 : once_Do_init r1 = r1).
  { apply once_Do_init_id. subst r1. simpl. apply once_Do_init_once. }
  assert (Hnone : r_cache r1 !! hostKey host = None).
  { subst r1. simpl. apply lookup_delete_eq. }
  assert (Hrem : set_cache (delete (hostKey host) (r_cache r1)) r1 = r1).
  { subst r1. unfold set_cache. simpl. by rewrite delete_delete_eq. }
  clearbody r1.
  assert (Hl : forall ctx sel,
             LookupHost ctx host sel {| w_r := r1; w_group := w_group w |}
             = update ctx (hostKey host) true sel
                 {| w_r := r1; w_group := w_group w |}).
  { intros ctx sel. rewrite LookupHost_run, lookup_run. cbn [w_r w_group].
    rewrite Ho1. by rewrite Hnone. }
  split; [|split].
  - change (Remove host {| w_r := r1; w_group := w_group w |})
      with (Ok (tt, {| w_r := set_cache (delete (hostKey host)
                                           (r_cache (once_Do_init r1)))
                                (once_Do_init r1);
                       w_group := w_group w |})).
    rewrite Ho1. by rewrite Hrem.
  - intros ctx res. rewrite Hl.
    destruct (update_received ctx (hostKey host) true res
                {| w_r := r1; w_group := w_group w |} (valid_hostKey host))
      as (g & Heq).
    rewrite Heq. unfold received, outcome_of. cbn [w_r]. rewrite Hnone.
    by destruct (Err res).
  - intros ctx err. rewrite Hl.
    destruct (update_done ctx (hostKey host) true err
                {| w_r := r1; w_group := w_group w |} (valid_hostKey host))
      as (fn & g & _ & _ & Heq).
    by rewrite Heq.
Qed.

Lemma remove_then_lookup_witness :
  exists w1,
    Remove "example.com" warmWorld = Ok (tt, w1) /\
    value_of (LookupHost Background "example.com" (Received okResult) w1)
      = Some (["93.184.216.34"], None).
Proof.
  destruct (remove_then_lookup "example.com" warmWorld)
    as (w1 & Hrun & _ & Hl & _).
  - intros Ho. discriminate Ho.
  - exists w1. split; [exact Hrun|]. exact (Hl Background okResult).
Defined.

(** ** The store over a sequence of public calls *)

Lemma run_call_footprint range c w :
  range_ok range -> good w ->
  exists w',
    run_call range c w = Ok (tt, w') /\ good w' /\
    r_Timeout (w_r w') = r_Timeout (w_r w) /\
    r_Resolver (w_r w') = r_Resolver (w_r w) /\
    forall k, is_Some (r_cache (w_r w') !! k) ->
              is_Some (r_cache (w_r w) !! k) \/ looks_up k c.
Proof.
  intros Hr Hg. destruct (run_call_good range c w Hr Hg) as (w' & Hrun & Hg').
  exists w'. do 2 (split; [done|]). destruct Hg as [Hi Hv].
  destruct (once_Do_init_config (w_r w)) as [Ht0 Hp0].
  destruct c as [ctx host sel|ctx addr sel|host|res].
  - apply run_call_lookup_host in Hrun as [a Hrun].
    destruct (lookup_config _ _ _ _ _ _ Hrun) as (Ht & Hp & _). simpl in Ht, Hp.
    split; [congruence|]. split; [congruence|].
    intros k Hk. destruct (decide (k = hostKey host)) as [->|Hne]; [by right|].
    left. rewrite (lookup_frame _ _ _ _ _ _ k Hrun Hne) in Hk. simpl in Hk.
    by rewrite once_Do_init_cache in Hk.
  - apply run_call_lookup_addr in Hrun as [a Hrun].
    destruct (lookup_config _ _ _ _ _ _ Hrun) as (Ht & Hp & _). simpl in Ht, Hp.
    split; [congruence|]. split; [congruence|].
    intros k Hk. destruct (decide (k = addrKey addr)) as [->|Hne]; [by right|].
    left. rewrite (lookup_frame _ _ _ _ _ _ k Hrun Hne) in Hk. simpl in Hk.
    by rewrite once_Do_init_cache in Hk.
  - change (Ok (tt, {| w_r := set_cache (delete (hostKey host)
                                           (r_cache (once_Do_init (w_r w))))
                                (once_Do_init (w_r w));
                       w_group := w_group w |}) = Ok (tt, w')) in Hrun.
    injection Hrun as <-. simpl. do 2 (split; [done|]).
    intros k [e He]. left. apply lookup_delete_Some in He as [_ He].
    rewrite once_Do_init_cache in He by done. eauto.
  - destruct (refreshRecords_full range res w Hr Hi Hv)
      as (w'' & Hrun' & Ht & Hp & _ & Hc & _).
    simpl in Hrun. unfold Refresh in Hrun. rewrite Hrun' in Hrun.
    injection Hrun as ->. do 2 (split; [done|]).
    intros k Hk. left. rewrite Hc in Hk. by eapply refreshed_is_Some.
Qed.

Lemma run_calls_footprint range cs w :
  range_ok range -> good w ->
  exists w',
    run_calls range cs w = Ok (tt, w') /\ good w' /\
    r_Timeout (w_r w') = r_Timeout (w_r w) /\
    r_Resolver (w_r w') = r_Resolver (w_r w) /\
    forall k, is_Some (r_cache (w_r w') !! k) ->
              is_Some (r_cache (w_r w) !! k) \/ exists c, c ∈ cs /\ looks_up k c.
Proof.
  intros Hr. revert w. induction cs as [|c cs IH]; intros w Hg.
  - exists w. split; [done|]. do 3 (split; [done|]). auto.
  - destruct (run_call_footprint range c w Hr Hg)
      as (w1 & Hrun1 & Hg1 & Ht1 & Hp1 & Hk1).
    destruct (IH w1 Hg1) as (w' & Hrun & Hg' & Ht & Hp & Hk).
    exists w'. split.
    { cbn [run_calls]. unfold bind. by rewrite Hrun1. }
    split; [done|]. split; [congruence|]. split; [congruence|].
    intros k Hs. destruct (Hk k Hs) as [Hs1|(c' & Hin & Hl)].
    + destruct (Hk1 k Hs1) as [?|Hl]; [by left|].
      right. exists c. split; [by left | done].
    + right. exists c'. split; [by right | done].
Qed.

(** X11: what the store of a resolver can hold. Whatever public calls are
    made on a new resolver, in whatever order and whatever they receive, no
    call panics, the timeout and the provider configured are never changed,
    and every key the store holds in the end is the forward key of a host or
    the reverse key of an address that one of the calls looked up: neither
    [Remove] nor [Refresh] ever adds an entry. *)
Theorem store_holds_looked_up_keys range cs timeout provider g :
  range_ok range ->
  exists w',
    run_calls range cs {| w_r := newResolver timeout provider; w_group := g |}
      = Ok (tt, w') /\
    r_Timeout (w_r w') = timeout /\
    r_Resolver (w_r w') = provider /\
    forall k, is_Some (r_cache (w_r w') !! k) ->
              exists c, c ∈ cs /\ looks_up k c.
Proof.
  intros Hr.
  destruct (run_calls_footprint range cs
              {| w_r := newResolver timeout provider; w_group := g |} Hr
              (good_new timeout provider g))
    as (w' & Hrun & _ & Ht & Hp & Hk).
  exists w'. do 3 (split; [done|]).
  intros k Hs. destruct (Hk k Hs) as [[e He]|?]; [|done].
  simpl in He. by rewrite lookup_empty in He.
Qed.

Lemma store_holds_looked_up_keys_witness :
  exists w',
    run_calls map_to_list
      [CallLookupHost Background "example.com" (Received okResult);
       CallRefresh (fun _ => failedResult);
       CallRemove "example.org"]
      freshWorld = Ok (tt, w') /\
    r_Timeout (w_r w') = 0%Z.
Proof.
  destruct (store_holds_looked_up_keys map_to_list
              [CallLookupHost Background "example.com" (Received okResult);
               CallRefresh (fun _ => failedResult);
               CallRemove "example.org"]
              0%Z None emptyGroup)
    as (w' & Hrun & Ht & _).
  - exact range_ok_map_to_list.
  - exists w'. split; [exact Hrun | exact Ht].
Defined.

(** ** A deletion between the two sections of a read *)

(** X12: the results a lookup returns are in the store when it returns. A
    lookup that reads an entry whose used flag is not set leaves the read
    section of [load] about to mark it. When the entry is deleted before the
    write section runs, by [Remove] or by a [Refresh] (which deletes it,
    being unused), the write section puts the entry back: the lookup returns
    the entry's results with no error and the store holds them again, marked
    used, every other entry being as the deletion left it. *)
Theorem load_restores_deleted_entry range ctx key res w entry :
  range_ok range ->
  initialised (w_r w) ->
  keys_valid (r_cache (w_r w)) ->
  r_cache (w_r w) !! key = Some entry ->
  used entry = false ->
  caller_step ctx key CStart w = Some (CMark entry, w) /\
  forall w1,
    (exists host, key = hostKey host /\ Remove host w = Ok (tt, w1)) \/
    Refresh range res w = Ok (tt, w1) ->
    r_cache (w_r w1) !! key = None /\
    exists w2,
      caller_step ctx key (CMark entry) w1 = Some (CDone (rrs entry) None, w2) /\
      r_cache (w_r w2) !! key = Some {| rrs := rrs entry; used := true |} /\
      forall k, k <> key -> r_cache (w_r w2) !! k = r_cache (w_r w1) !! k.
Proof.
  intros Hr Hi Hv Hk Hu. split.
  { cbn [caller_step]. unfold load_read. rewrite Hk. cbn [after_load].
    by rewrite Hu. }
  intros w1 Hdel.
  assert (Hnone : r_cache (w_r w1) !! key = None).
  { destruct Hdel as [(host & -> & Hrem)|Href].
    - change (Ok (tt, {| w_r := set_cache (delete (hostKey host)
                                             (r_cache (once_Do_init (w_r w))))
                                  (once_Do_init (w_r w));
                         w_group := w_group w |}) = Ok (tt, w1)) in Hrem.
      injection Hrem as <-. simpl. apply lookup_delete_eq.
    - unfold Refresh in Href.
      destruct (refreshRecords_run range res w Hr Hi Hv) as (w' & Hrun & _ & Hc).
      rewrite Hrun in Href. injection Href as ->.
      rewrite Hc. unfold refreshed. by rewrite Hk, Hu. }
  split; [done|]. eexists. split; [reflexivity|]. simpl. split.
  - apply lookup_insert_eq.
  - intros k Hne. by apply lookup_insert_ne.
Qed.

Lemma load_restores_deleted_entry_witness :
  exists w1 w2,
    Remove "example.com" coldWorld = Ok (tt, w1) /\
    r_cache (w_r w1) !! "hexample.com" = None /\
    caller_step Background "hexample.com"
      (CMark {| rrs := ["10.0.0.1"]; used := false |}) w1
      = Some (CDone ["10.0.0.1"] None, w2) /\
    r_cache (w_r w2) !! "hexample.com"
      = Some {| rrs := ["10.0.0.1"]; used := true |}.
Proof.
  destruct (load_restores_deleted_entry map_to_list Background "hexample.com"
              (fun _ => okResult) coldWorld {| rrs := ["10.0.0.1"]; used := false |})
    as [_ H].
  - exact range_ok_map_to_list.
  - intros Ho. discriminate Ho.
  - exact keys_valid_cold.
  - reflexivity.
  - reflexivity.
  - destruct (H {| w_r := set_cache (delete "hexample.com" (r_cache (w_r coldWorld)))
                            (w_r coldWorld);
                   w_group := emptyGroup |})
      as (Hnone & w2 & Hstep & Hback & _).
    + left. exists "example.com". split; reflexivity.
    + eexists _, w2. split; [reflexivity|]. split; [exact Hnone|].
      split; [exact Hstep | exact Hback].
Defined.

(** ** Lookups answered by the network *)

(** A caller that starts a call nobody joins receives, when the call ends,
    what its work function returned, not flagged shared. *)
Lemma alone_receives_unshared key fn g out :
  g_m g !! key = None ->
  g_chan (doCall (g_next g) out (DoChan key fn g).2) !! (DoChan key fn g).1
    = Some (unshared out).
Proof.
  intros Hm. unfold DoChan. rewrite Hm. cbn [fst snd]. unfold doCall.
  cbn [g_calls]. rewrite lookup_insert_eq. cbn [g_chan c_chans deliver foldr].
  by rewrite lookup_insert_eq.
Qed.

(** X13: a lookup that misses the cache, with no provider configured, is
    answered by the network through the package's default resolver. A caller
    alone on its key gets, for a host, the addresses [net.LookupIP] returns
    for the network ["ip"], each rendered as a string and in the same order,
    and they are stored under the forward key, marked used; when the network
    reports an error, the caller gets no results and that error, and the
    store is left as it was. A reverse lookup passes on the names
    [net.LookupAddr] returns in the same way. The context the network is
    given is the derived one: it carries the DNS-start and DNS-done hooks of
    the caller's trace, so that they are triggered. *)
Theorem lookup_by_default_resolver
    (IP : Type) (IP_String : IP -> string)
    (net_LookupIP : Context -> string -> string -> list IP * option error)
    (net_LookupAddr : Context -> string -> list string * option error)
    (ctx : Context) (w : World) :
  initialised (w_r w) ->
  r_Resolver (w_r w) = None ->
  let ctx' := (prepareCtx (w_r w) ctx).1 in
  (forall host,
     r_cache (w_r w) !! hostKey host = None ->
     exists w',
       LookupHostAlone IP IP_String net_LookupIP net_LookupAddr ctx host w =
         Ok (match net_LookupIP ctx' "ip" host with
             | (ips, None) => (map IP_String ips, None)
             | (_, Some e) => ([], Some e)
             end, w') /\
       r_cache (w_r w') =
         match net_LookupIP ctx' "ip" host with
         | (ips, None) =>
             <[hostKey host := {| rrs := map IP_String ips; used := true |}]>
               (r_cache (w_r w))
         | (_, Some e) => r_cache (w_r w)
         end) /\
  (forall addr,
     r_cache (w_r w) !! addrKey addr = None ->
     exists w',
       LookupAddrAlone IP IP_String net_LookupIP net_LookupAddr ctx addr w =
         Ok (match net_LookupAddr ctx' addr with
             | (names, None) => (names, None)
             | (_, Some e) => ([], Some e)
             end, w') /\
       r_cache (w_r w') =
         match net_LookupAddr ctx' addr with
         | (names, None) =>
             <[addrKey addr := {| rrs := names; used := true |}]> (r_cache (w_r w))
         | (_, Some e) => r_cache (w_r w)
         end) /\
  (forall trace,
     ctx_trace ctx = Some trace ->
     exists t, ctx_trace ctx' = Some t /\
               DNSStart t = DNSStart trace /\ DNSDone t = DNSDone trace).
Proof.
  intros Hi Hp ctx'.
  assert (Hmiss : forall key res,
             valid_key key = true ->
             r_cache (w_r w) !! key = None ->
             exists w',
               lookup ctx key (Received res)
                 {| w_r := once_Do_init (w_r w); w_group := w_group w |}
               = Ok (match Err res with
                     | Some e => ([], Some e)
                     | None => (Val res, None)
                     end, w') /\
               r_cache (w_r w') =
                 match Err res with
                 | Some e => r_cache (w_r w)
                 | None => <[key := {| rrs := Val res; used := true |}]> (r_cache (w_r w))
                 end).
  { intros key res Hk Hnone. rewrite lookup_run. cbn [w_r].
    rewrite (once_Do_init_cache _ Hi), Hnone.
    destruct (update_received ctx key true res
                {| w_r := once_Do_init (w_r w); w_group := w_group w |} Hk)
      as (g & Heq).
    rewrite Heq. unfold received. cbn [w_r].
    rewrite (once_Do_init_cache _ Hi), Hnone.
    destruct (Err res) as [e|]; eexists; (split; [reflexivity|]); cbn [snd w_r].
    - by apply once_Do_init_cache.
    - rewrite storeLocked_cache. by rewrite once_Do_init_cache. }
  split; [|split].
  - intros host Hnone.
    unfold LookupHostAlone, getResolver, bind.
    change (lookupFunc (w_r w) ctx ("h" +:+ host))
      with (Ok {| w_kind := kindHost; w_resolver := r_Resolver (w_r w);
                  w_ctx := ctx; w_subject := host |}).
    cbv beta iota. rewrite LookupHost_run.
    match goal with |- context [Received ?r] => set (res := r) end.
    destruct (Hmiss (hostKey host) res (valid_hostKey host) Hnone)
      as (w' & Hrun & Hc).
    exists w'. rewrite Hrun, Hc. subst res. unfold unshared, run_work.
    cbn [w_resolver w_ctx w_kind w_subject Val Err]. rewrite Hp. cbn [default].
    subst ctx'. destruct (prepareCtx (w_r w) ctx) as [c1 cancel].
    cbn [fst LookupHost_ defaultResolver]. unfold defaultResolverWithTrace_LookupHost.
    by destruct (net_LookupIP c1 "ip" host) as [ips [e|]].
  - intros addr Hnone.
    unfold LookupAddrAlone, getResolver, bind.
    change (lookupFunc (w_r w) ctx ("r" +:+ addr))
      with (Ok {| w_kind := kindAddr; w_resolver := r_Resolver (w_r w);
                  w_ctx := ctx; w_subject := addr |}).
    cbv beta iota. rewrite LookupAddr_run.
    match goal with |- context [Received ?r] => set (res := r) end.
    destruct (Hmiss (addrKey addr) res (valid_addrKey addr) Hnone)
      as (w' & Hrun & Hc).
    exists w'. rewrite Hrun, Hc. subst res. unfold unshared, run_work.
    cbn [w_resolver w_ctx w_kind w_subject Val Err]. rewrite Hp. cbn [default].
    subst ctx'. destruct (prepareCtx (w_r w) ctx) as [c1 cancel].
    cbn [fst LookupAddr_ defaultResolver]. unfold defaultResolverWithTrace_LookupAddr.
    by destruct (net_LookupAddr c1 addr) as [names [e|]].
  - intros trace Htr. subst ctx'. unfold prepareCtx, ContextClientTrace.
    rewrite Htr. destruct (r_Timeout (w_r w) >? 0)%Z; cbn; eauto.
Qed.

Lemma lookup_by_default_resolver_witness :
  exists w',
    LookupHostAlone string (fun s => s) sampleLookupIP sampleLookupAddr
      tracedCtx "example.com" freshWorld
    = Ok ((["93.184.216.34"; "2606:2800:220:1::1"], None), w') /\
    r_cache (w_r w') !! "hexample.com"
    = Some {| rrs := ["93.184.216.34"; "2606:2800:220:1::1"]; used := true |}.
Proof.
  destruct (lookup_by_default_resolver string (fun s => s) sampleLookupIP
              sampleLookupAddr tracedCtx freshWorld)
    as (Hhost & _ & _).
  - intros _. reflexivity.
  - reflexivity.
  - destruct (Hhost "example.com") as (w' & Hrun & Hc); [reflexivity|].
    exists w'. split; [exact Hrun|]. rewrite Hc. reflexivity.
Defined.

(** ** The cache-clearing test *)

Lemma lookup_miss_entry ctx key sel w a w' :
  lookup ctx key sel w = Ok (a, w') ->
  r_cache (w_r w) !! key = None ->
  r_cache (w_r w') !! key = None \/
  exists rs, a = (rs, None) /\
             r_cache (w_r w') !! key = Some {| rrs := rs; used := true |}.
Proof.
  rewrite lookup_run. intros Hrun Hnone. rewrite Hnone in Hrun.
  pose proof (update_Ok_valid _ _ _ _ _ _ _ Hrun) as Hk.
  destruct sel as [err|res].
  - destruct (update_done ctx key true err w Hk) as (fn & g & _ & _ & Heq).
    rewrite Heq in Hrun. simplify_eq. by left.
  - destruct (update_received ctx key true res w Hk) as (g & Heq).
    rewrite Heq in Hrun. injection Hrun as <- <-. cbn [w_r].
    rewrite received_entry. unfold received. rewrite Hnone. simpl.
    destruct (Err res); [by left|]. right. eauto.
Qed.

(** X14: [TestClearCache], for every host, context and provider. On a
    resolver whose store is empty, a new one in particular: after
    [LookupHost] the entry of the host, if there is one, is marked used;
    after a [Refresh] whose re-resolution succeeds it is, if there is one,
    not marked used; after a second [Refresh] there is none, the store is
    empty again and the cycle can repeat. When the lookup succeeded, the
    entry is there after it and after the first refresh. And when a
    [LookupHost] has succeeded and the re-resolution of the [Refresh] that
    follows fails, the entry still holds the results the lookup returned. *)
Theorem TestClearCache :
  (forall range ctx host sel res1 res2 w rs err w1,
     range_ok range ->
     r_cache (w_r w) = ∅ ->
     LookupHost ctx host sel w = Ok ((rs, err), w1) ->
     Err (res1 (hostKey host)) = None ->
     Shared (res1 (hostKey host)) = false ->
     (forall e, r_cache (w_r w1) !! hostKey host = Some e -> used e = true) /\
     exists w2 w3,
       Refresh range res1 w1 = Ok (tt, w2) /\
       (forall e, r_cache (w_r w2) !! hostKey host = Some e -> used e = false) /\
       Refresh range res2 w2 = Ok (tt, w3) /\
       r_cache (w_r w3) = ∅ /\
       (err = None ->
        r_cache (w_r w1) !! hostKey host = Some {| rrs := rs; used := true |} /\
        r_cache (w_r w2) !! hostKey host
          = Some {| rrs := Val (res1 (hostKey host)); used := false |})) /\
  (forall range ctx host sel res w rs w1 e,
     range_ok range ->
     initialised (w_r w) ->
     keys_valid (r_cache (w_r w)) ->
     LookupHost ctx host sel w = Ok ((rs, None), w1) ->
     Err (res (hostKey host)) = Some e ->
     exists w2,
       Refresh range res w1 = Ok (tt, w2) /\
       r_cache (w_r w2) !! hostKey host = Some {| rrs := rs; used := true |}).
Proof.
  split.
  - intros range ctx host sel res1 res2 w rs err w1 Hr Hempty Hrun Herr Hsh.
    set (key := hostKey host) in *.
    assert (Hi : initialised (w_r w)) by (intros _; exact Hempty).
    rewrite LookupHost_run in Hrun. fold key in Hrun.
    assert (Hc0 : r_cache (once_Do_init (w_r w)) = ∅)
      by (by rewrite once_Do_init_cache).
    assert (Ho1 : r_once (w_r w1) = true).
    { apply lookup_config in Hrun as (_ & _ & Ho). rewrite Ho. simpl.
      apply once_Do_init_once. }
    assert (Hother : forall k, k <> key -> r_cache (w_r w1) !! k = None).
    { intros k Hne. rewrite (lookup_frame _ _ _ _ _ _ k Hrun Hne). simpl.
      by rewrite Hc0, lookup_empty. }
    assert (Hkey : r_cache (w_r w1) !! key = None \/
                   err = None /\
                   r_cache (w_r w1) !! key = Some {| rrs := rs; used := true |}).
    { destruct (lookup_miss_entry _ _ _ _ _ _ Hrun) as [?|(rs' & Ha & He)].
      - simpl. by rewrite Hc0, lookup_empty.
      - by left.
      - right. by simplify_eq. }
    assert (Hv1 : keys_valid (r_cache (w_r w1))).
    { intros k [e He]. destruct (decide (k = key)) as [->|Hne]; [done|].
      rewrite Hother in He by done. done. }
    assert (Hi1 : initialised (w_r w1)) by (intros Ho; congruence).
    split.
    { intros e He. destruct Hkey as [Hn|[_ Hs]]; [congruence|].
      rewrite Hs in He. by injection He as <-. }
    unfold Refresh.
    destruct (refreshRecords_full range res1 w1 Hr Hi1 Hv1)
      as (w2 & Hrun2 & _ & _ & Ho2 & Hc2 & _).
    assert (Hi2 : initialised (w_r w2)) by (intros Ho; congruence).
    assert (Hv2 : keys_valid (r_cache (w_r w2)))
      by (by eapply keys_valid_refreshed).
    destruct (refreshRecords_full range res2 w2 Hr Hi2 Hv2)
      as (w3 & Hrun3 & _ & _ & _ & Hc3 & _).
    assert (Hkey2 : r_cache (w_r w2) !! key =
                    match r_cache (w_r w1) !! key with
                    | Some _ => Some {| rrs := Val (res1 key); used := false |}
                    | None => None
                    end).
    { rewrite Hc2. unfold refreshed.
      destruct Hkey as [Hn|[_ Hs]]; [by rewrite Hn|]. rewrite Hs. simpl.
      by rewrite Hsh, Herr. }
    exists w2, w3. split; [done|]. split.
    { intros e He. rewrite Hkey2 in He.
      destruct (r_cache (w_r w1) !! key); [|done]. by injection He as <-. }
    split; [done|]. split.
    { apply map_eq. intros k. rewrite Hc3, lookup_empty. unfold refreshed.
      destruct (decide (k = key)) as [->|Hne].
      - rewrite Hkey2. by destruct (r_cache (w_r w1) !! key).
      - rewrite Hc2. unfold refreshed. by rewrite Hother. }
    intros ->. destruct Hkey as [Hn|[_ Hs]].
    + exfalso. destruct (lookup_success_entry _ _ _ _ _ _ Hrun) as (e & He & _).
      congruence.
    + split; [done|]. by rewrite Hkey2, Hs.
  - intros range ctx host sel res w rs w1 e Hr Hi Hv Hrun Herr.
    rewrite LookupHost_run in Hrun.
    destruct (lookup_success_entry _ _ _ _ _ _ Hrun) as (entry & He & Hu & Hrs).
    assert (Ho1 : r_once (w_r w1) = true).
    { apply lookup_config in Hrun as (_ & _ & Ho). rewrite Ho. simpl.
      apply once_Do_init_once. }
    assert (Hi1 : initialised (w_r w1)) by (intros Ho; congruence).
    assert (Hv1 : keys_valid (r_cache (w_r w1))).
    { intros k Hk. destruct (decide (k = hostKey host)) as [->|Hne]; [done|].
      rewrite (lookup_frame _ _ _ _ _ _ k Hrun Hne) in Hk. simpl in Hk.
      rewrite once_Do_init_cache in Hk by done. by apply Hv. }
    unfold Refresh.
    destruct (refreshRecords_full range res w1 Hr Hi1 Hv1)
      as (w2 & Hrun2 & _ & _ & _ & Hc2 & _).
    exists w2. split; [done|]. rewrite Hc2. unfold refreshed. rewrite He, Hu.
    simpl. rewrite Herr. rewrite orb_true_r. by rewrite Hrs.
Qed.

Lemma TestClearCache_witness :
  exists w1 w2 w3,
    LookupHost Background "google.com" (Received okResult) freshWorld
      = Ok ((["93.184.216.34"], None), w1) /\
    Refresh map_to_list (fun _ => okResult) w1 = Ok (tt, w2) /\
    Refresh map_to_list (fun _ => okResult) w2 = Ok (tt, w3) /\
    r_cache (w_r w1) !! "hgoogle.com" = Some {| rrs := ["93.184.216.34"]; used := true |} /\
    r_cache (w_r w2) !! "hgoogle.com" = Some {| rrs := ["93.184.216.34"]; used := false |} /\
    r_cache (w_r w3) = ∅.
Proof.
  destruct TestClearCache as [H _].
  destruct (LookupHost Background "google.com" (Received okResult) freshWorld)
    as [[a w1]|msg] eqn:Hrun; [|discriminate Hrun].
  assert (Ha : a = (["93.184.216.34"], None)).
  { vm_compute in Hrun. injection Hrun as <- _. reflexivity. }
  subst a.
  destruct (H map_to_list Background "google.com" (Received okResult)
              (fun _ => okResult) (fun _ => okResult) freshWorld
              ["93.184.216.34"] None w1)
    as (_ & w2 & w3 & H2 & _ & H3 & Hempty & Hentries).
  - exact range_ok_map_to_list.
  - reflexivity.
  - exact Hrun.
  - reflexivity.
  - reflexivity.
  - destruct (Hentries eq_refl) as [He1 He2].
    exists w1, w2, w3. split; [reflexivity|]. split; [exact H2|].
    split; [exact H3|]. split; [exact He1|]. split; [exact He2 | exact Hempty].
Defined.
